(** * termle: a terminal Wordle clone, embedded in Rocq

    The repository holds two versions of the program, both `package main`:
    - [src/termle.go]: a board of coloured strings, a single-pass
      [board.addGuess], a fixed-width answer file read by seeking;
    - [src/unnamed/part_000]: the [game] struct with hints and hard mode, the
      two-pass [game.addGuess], an answer file read line by line.

    A Go [string] is a sequence of bytes: [list ascii].  Every guess that
    reaches the evaluators has passed the regexp [^[A-Za-z]{5}$], so ranging
    over it yields one ASCII rune per byte, at the byte's index; a [rune] is
    modelled by the byte that encodes it.  A Go [int] is a 64-bit integer:
    [Z] with the wrap-around written out.  A panic is [None]. *)

From Stdlib Require Import ZArith List Ascii String Lia SpecFloat Permutation.
From Stdlib Require Import DecimalString.
From stdpp Require Import gmap strings list fin_maps sorting.

Local Open Scope Z_scope.

(** ** The pieces of the Go runtime and library the program uses *)
Module Go.

Definition int_max : Z := 2 ^ 63 - 1.
Definition int_min : Z := - 2 ^ 63.

(** Arithmetic on [int] wraps. *)
Definition wrap (z : Z) : Z := (z + 2 ^ 63) mod 2 ^ 64 - 2 ^ 63.

Definition byte (n : nat) : ascii := ascii_of_nat n.
Definition bytes (s : string) : list ascii := list_ascii_of_string s.
Definition code (c : ascii) : Z := Z.of_nat (nat_of_ascii c).

(** A string of ASCII bytes.  On these the functions of package strings
    below are exact; on other text Go decodes UTF-8 and maps runes. *)
Definition isASCII (s : list ascii) : bool := forallb (λ c, code c <? 128) s.

(** *** package strings, on ASCII text *)
Definition isLower (c : ascii) : bool := (97 <=? code c) && (code c <=? 122).
Definition isUpper (c : ascii) : bool := (65 <=? code c) && (code c <=? 90).
Definition isLetter (c : ascii) : bool := isLower c || isUpper c.

Definition toUpper (c : ascii) : ascii :=
  if isLower c then byte (Z.to_nat (code c - 32)) else c.

(** [strings.ToUpper]. *)
Definition ToUpper (s : list ascii) : list ascii := map toUpper s.

(** The white space of [unicode.IsSpace] below U+0080: tab, line feed,
    vertical tab, form feed, carriage return, space. *)
Definition isSpace (c : ascii) : bool :=
  ((9 <=? code c) && (code c <=? 13)) || (code c =? 32).

Fixpoint TrimLeft (s : list ascii) : list ascii :=
  match s with
  | c :: s' => if isSpace c then TrimLeft s' else s
  | [] => []
  end.

(** [strings.TrimSpace]. *)
Definition TrimSpace (s : list ascii) : list ascii :=
  rev (TrimLeft (rev (TrimLeft s))).

Fixpoint HasPrefix (s p : list ascii) : bool :=
  match p, s with
  | [], _ => true
  | _ :: _, [] => false
  | b :: p', a :: s' => Ascii.eqb a b && HasPrefix s' p'
  end.

(** [strings.Contains]: [sub] occurs in [s]. *)
Fixpoint Contains (s sub : list ascii) : bool :=
  HasPrefix s sub ||
  match s with
  | [] => false
  | _ :: s' => Contains s' sub
  end.

(** [strings.ContainsRune], for an ASCII rune. *)
Definition ContainsRune (s : list ascii) (r : ascii) : bool :=
  existsb (Ascii.eqb r) s.

(** [string(r)] for an ASCII rune. *)
Definition string_of_rune (r : ascii) : list ascii := [r].

(** [strconv.Itoa]. *)
Definition Itoa (z : Z) : list ascii :=
  bytes (DecimalString.NilZero.string_of_int (Z.to_int z)).

(** *** bufio.Scanner with the default split function, ScanLines

    The scanner is modelled over the whole content of its reader: [src] is
    what has not been consumed, [token] the last token ([Text] of a scanner
    that holds none is the empty string).  The model is exact on data whose
    lines are all shorter than bufio.MaxScanTokenSize ([shortLines] below):
    on a longer line the scanner of Go stops with ErrTooLong. *)
Record Scanner := mkScanner { src : list ascii; token : list ascii }.

Definition NewScanner (r : list ascii) : Scanner := mkScanner r [].

Definition LF : ascii := byte 10.
Definition CR : ascii := byte 13.

(** [bufio.MaxScanTokenSize]. *)
Definition MaxScanTokenSize : Z := 64 * 1024.

(** Every line of [data], a carriage return before its line feed counted, is
    shorter than the buffer of the scanner; [n] bytes of the current line
    have been seen. *)
Fixpoint shortLines (n : Z) (data : list ascii) : bool :=
  match data with
  | [] => n <? MaxScanTokenSize
  | c :: rest =>
      if Ascii.eqb c LF then (n <? MaxScanTokenSize) && shortLines 0 rest
      else shortLines (n + 1) rest
  end.

(** The bytes before the first line feed, and what follows that line feed. *)
Fixpoint cutLine (data : list ascii) : list ascii * list ascii :=
  match data with
  | [] => ([], [])
  | c :: rest =>
      if Ascii.eqb c LF then ([], rest)
      else let '(l, r) := cutLine rest in (c :: l, r)
  end.

(** [dropCR]: a line loses one trailing carriage return. *)
Definition dropCR (line : list ascii) : list ascii :=
  match rev line with
  | c :: l => if Ascii.eqb c CR then rev l else line
  | [] => line
  end.

(** [Scan]: at the end of the input there is no token and the result is false;
    otherwise the token is the next line, an unterminated last line included. *)
Definition Scan (s : Scanner) : bool * Scanner :=
  match src s with
  | [] => (false, mkScanner [] [])
  | _ :: _ => let '(l, r) := cutLine (src s) in (true, mkScanner r (dropCR l))
  end.

Definition Text (s : Scanner) : list ascii := token s.

(** All the lines a scanner yields. *)
Fixpoint ScanAll (fuel : nat) (s : Scanner) : list (list ascii) :=
  match fuel with
  | O => []
  | S n => let '(ok, s') := Scan s in
           if ok then Text s' :: ScanAll n s' else []
  end.

Definition Lines (data : list ascii) : list (list ascii) :=
  ScanAll (S (length data)) (NewScanner data).

(** *** embed.FS files: Seek from the start and Read

    [Seek] fails on an offset outside [0, len]; [Read] fails with io.EOF at or
    past the end and otherwise copies what is left into the buffer, whose
    other bytes keep their zero value. *)
Definition Seek (data : list ascii) (offset : Z) : option Z :=
  if (offset <? 0) || (Z.of_nat (length data) <? offset) then None
  else Some offset.

Definition Read (data : list ascii) (offset : Z) (n : nat) : option (list ascii) :=
  if Z.of_nat (length data) <=? offset then None
  else Some (take n (drop (Z.to_nat offset) data ++ replicate n (byte 0))).

(** *** float64, as the IEEE 754 binary64 numbers of SpecFloat *)
Definition float64 : Type := spec_float.
Definition prec : Z := 53.
Definition emax : Z := 1024.

(** [float64(z)]: the integer rounded to the nearest float. *)
Definition float64_of_int (z : Z) : float64 := binary_normalize prec emax z 0 false.
Definition fadd (x y : float64) : float64 := SFadd prec emax x y.
Definition fdiv (x y : float64) : float64 := SFdiv prec emax x y.

(** [int(f)]: the fraction is discarded (truncation towards zero).  The
    floats the program converts are far inside the range of [int]; for an
    infinity or a NaN the model takes the value of amd64. *)
Definition int_of_float64 (f : float64) : Z :=
  match f with
  | S754_zero _ => 0
  | S754_finite s m e =>
      let v := if 0 <=? e then Z.pos m * 2 ^ e else Z.pos m / 2 ^ (- e) in
      if s then - v else v
  | _ => int_min
  end.

(** *** package time

    A [Time] is an instant: seconds since 1970-01-01T00:00:00Z and the
    nanoseconds within the second.  A [Duration] is an int64 count of
    nanoseconds. *)
Record Time := mkTime { unixSec : Z; nsec : Z }.

Definition Second : Z := 10 ^ 9.
Definition Hour : Z := 3600 * Second.

(** The day number (days since 1970-01-01) of a date of the proleptic
    Gregorian calendar, and the date of a day number. *)
Definition days_from_civil (y m d : Z) : Z :=
  let y := if m <=? 2 then y - 1 else y in
  let era := y / 400 in
  let yoe := y - era * 400 in
  let doy := (153 * (if 2 <? m then m - 3 else m + 9) + 2) / 5 + d - 1 in
  let doe := yoe * 365 + yoe / 4 - yoe / 100 + doy in
  era * 146097 + doe - 719468.

Definition civil_from_days (z : Z) : Z * Z * Z :=
  let z := z + 719468 in
  let era := z / 146097 in
  let doe := z - era * 146097 in
  let yoe := (doe - doe / 1460 + doe / 36524 - doe / 146096) / 365 in
  let doy := doe - (365 * yoe + yoe / 4 - yoe / 100) in
  let mp := (5 * doy + 2) / 153 in
  let d := doy - (153 * mp + 2) / 5 + 1 in
  let m := if mp <? 10 then mp + 3 else mp - 9 in
  (if m <=? 2 then yoe + era * 400 + 1 else yoe + era * 400, m, d).

(** [t.Date()] in a zone [offset] seconds east of UTC. *)
Definition Date (t : Time) (offset : Z) : Z * Z * Z :=
  civil_from_days ((unixSec t + offset) / 86400).

(** [time.Date(y, m, d, 0, 0, 0, 0, time.UTC)], for a date of the calendar. *)
Definition DateUTC (y m d : Z) : Time := mkTime (days_from_civil y m d * 86400) 0.

(** [t.Sub(u)]: the difference, or the largest or smallest [Duration] when it
    does not fit. *)
Definition Sub (t u : Time) : Z :=
  let d := (unixSec t - unixSec u) * Second + (nsec t - nsec u) in
  if int_max <? d then int_max else if d <? int_min then int_min else d.

(** [d.Hours()]: whole hours and the fraction of an hour, added as floats. *)
Definition Hours (d : Z) : float64 :=
  fadd (float64_of_int (Z.quot d Hour))
       (fdiv (float64_of_int (Z.rem d Hour)) (float64_of_int (60 * 60 * 10 ^ 9))).

End Go.

(** ** src/unnamed/part_000: the game with hints and hard mode *)
Module Part000.
Import Go.

Definition totalWordles : Z := 2315.

(** [firstDay]: 2021-06-19T00:00:00Z (UTC to avoid DST). *)
Definition firstDay : Time := DateUTC 2021 6 19.

(** [daysSinceFirstWordle], at the instant [now] in a local zone [offset]
    seconds east of UTC: [time.Now().Date()] is the local date, [today] the
    midnight of that date in UTC. *)
Definition daysSinceFirstWordle (now : Time) (offset : Z) : Z :=
  let '(year, month, day) := Date now offset in
  let today := DateUTC year month day in
  int_of_float64 (fdiv (Hours (Sub today firstDay)) (float64_of_int 24)).

(** [randomDay]: [rand.Intn(totalWordles)] lies in [0, totalWordles); [r] is
    the draw of the generator. *)
Definition randomDay (r : Z) : Z := r `mod` totalWordles.

(** The flags: [-day] (its default is [daysSinceFirstWordle()]), [-random]
    and [-hard]. *)
Record flags := mkFlags { dayFlag : option Z; randomFlag : bool; hardFlag : bool }.

(** The three squares, byte for byte as the source file holds them between
    the back quotes: c3 a2 c2 ac e2 80 ba, c3 b0 c5 b8 c5 b8 c2 a8 and
    c3 b0 c5 b8 c5 b8 c2 a9. *)
Definition blackSquare : list ascii :=
  [byte 195; byte 162; byte 194; byte 172; byte 226; byte 128; byte 186].
Definition yellowSquare : list ascii :=
  [byte 195; byte 176; byte 197; byte 184; byte 197; byte 184; byte 194; byte 168].
Definition greenSquare : list ascii :=
  [byte 195; byte 176; byte 197; byte 184; byte 197; byte 184; byte 194; byte 169].

(** [files]: the embedded guesses.txt and answers.txt. *)
Record FS := mkFS { guesses_txt : list ascii; answers_txt : list ascii }.

(** [valid]: the regexp ^[A-Za-z]{5}$. *)
Definition valid (s : list ascii) : bool :=
  (length s =? 5)%nat && forallb isLetter s.

Record hints := mkHints {
  yellow : gmap ascii bool;
  green : list ascii              (* [5]rune; the zero rune is an empty slot *)
}.

Record cell := mkCell { color : list ascii; letter : list ascii }.

Record game := mkGame {
  day : Z;
  currentTurn : Z;
  turnsRemaining : Z;
  complete : bool;
  won : bool;
  answer : list ascii;
  validGuesses : gset (list ascii);
  hardMode : bool;
  hints_ : hints;
  board : list (list cell)
}.

Definition emptyRune : ascii := byte 0.
Definition ESC : ascii := byte 27.
Definition quote : ascii := byte 34.

Definition green_ (l : list ascii) : list ascii :=
  ESC :: bytes "[37;102m" ++ l ++ ESC :: bytes "[0m".
Definition yellow_ (l : list ascii) : list ascii :=
  ESC :: bytes "[37;103m" ++ l ++ ESC :: bytes "[0m".
Definition white (l : list ascii) : list ascii :=
  ESC :: bytes "[0;107m" ++ l ++ ESC :: bytes "[0m".
Definition black (l : list ascii) : list ascii :=
  ESC :: bytes "[37;100m" ++ l ++ ESC :: bytes "[0m".
Definition clearBoard : list ascii := [ESC; "c"%char].
Definition prompt : list ascii := bytes ">".

(** [guessesSet]: the upper-cased lines of guesses.txt.  On a file with
    [shortLines] the scanner ends without an error and the panic after the
    loop is not reached. *)
Definition guessesSet (fs : FS) : gset (list ascii) :=
  list_to_set (ToUpper <$> Lines (guesses_txt fs)).

(** The loop [for i := 0; i <= day; i++ { s.Scan() }] of [answerForDay]; the
    counter wraps as an [int] does.  [None]: the loop is still running when
    the fuel is spent. *)
Fixpoint scanLoop (fuel : nat) (i day : Z) (s : Scanner) : option Scanner :=
  if i <=? day then
    match fuel with
    | O => None
    | S n => scanLoop n (wrap (i + 1)) day (snd (Scan s))
    end
  else Some s.

(** [answerForDay]: the text of the scanner after day+1 scans, upper-cased. *)
Definition answerForDay (fuel : nat) (fs : FS) (day : Z) : option (list ascii) :=
  s ← scanLoop fuel 0 day (NewScanner (answers_txt fs));
  Some (ToUpper (Text s)).

Definition newBoard : list (list cell) :=
  replicate 6 (replicate 5 (mkCell blackSquare (bytes "_"))).

Definition newGame (fuel : nat) (fs : FS) (day : Z) (hardmode : bool) : option game :=
  a ← answerForDay fuel fs day;
  Some {| day := day; currentTurn := 0; turnsRemaining := 6;
          complete := false; won := false; hardMode := hardmode;
          hints_ := mkHints ∅ (replicate 5 emptyRune);
          answer := a; validGuesses := guessesSet fs; board := newBoard |}.

(** The errors of [checkHints], by the arguments of their format strings. *)
Inductive hintError :=
  | MustContain (letter : ascii)
  | MustBeAt (i : Z) (greenHint : ascii).

(** [err.Error()]. *)
Definition Error (e : hintError) : list ascii :=
  match e with
  | MustContain l =>
      bytes "guess must contain " ++ quote :: string_of_rune l ++ [quote]
  | MustBeAt i gh =>
      bytes "position " ++ Itoa i ++ bytes " must contain " ++
      quote :: string_of_rune gh ++ [quote]
  end.

(** [range g.hints.yellow] yields the keys of the map in an order the
    language leaves open: [iter] is one such order. *)
Definition ranges (m : gmap ascii bool) (iter : list ascii) : Prop :=
  iter ≡ₚ (map_to_list m).*1.

(** The first loop of [checkHints]: yellow letters must be present. *)
Fixpoint checkYellow (iter : list ascii) (guess : list ascii) : option hintError :=
  match iter with
  | [] => None
  | l :: rest =>
      if negb (Contains guess (string_of_rune l)) then Some (MustContain l)
      else checkYellow rest guess
  end.

(** The second loop: green letters must be used in their places.  [guess[i]]
    is read only for a slot that is set, and panics past the end of [guess]. *)
Fixpoint checkGreen (i : nat) (gs : list ascii) (guess : list ascii)
  : option (option hintError) :=
  match gs with
  | [] => Some None
  | greenHint :: rest =>
      if negb (Ascii.eqb greenHint emptyRune) then
        c ← guess !! i;
        if negb (Ascii.eqb greenHint c)
        then Some (Some (MustBeAt (Z.of_nat i) greenHint))
        else checkGreen (S i) rest guess
      else checkGreen (S i) rest guess
  end.

Definition rune_le (a b : ascii) : Prop := (nat_of_ascii a ≤ nat_of_ascii b)%nat.

#[local] Instance rune_le_dec : RelDecision rune_le.
Proof. intros a b. unfold rune_le. apply _. Defined.

(** [%v] of the map[rune]bool: keys as numbers, in increasing order. *)
Definition showYellow (m : gmap ascii bool) : list ascii :=
  let keys := merge_sort rune_le ((map_to_list m).*1) in
  bytes "map[" ++
  concat (imap (λ k l, (if k is O then [] else bytes " ") ++
                       Itoa (code l) ++ bytes ":" ++
                       bytes (if default false (m !! l) then "true" else "false"))
               keys) ++
  bytes "]".

(** [checkHints]: what it prints, and the error it returns ([Some None] is
    the nil error). *)
Definition checkHints (iter : list ascii) (g : game) (guess : list ascii)
  : list ascii * option (option hintError) :=
  (bytes "Checking yellows " ++ showYellow (yellow (hints_ g)) ++ [LF],
   match checkYellow iter guess with
   | Some e => Some (Some e)
   | None => checkGreen 0 (green (hints_ g)) guess
   end).

Definition setBoard (g : game) (b : list (list cell)) : game :=
  {| day := day g; currentTurn := currentTurn g;
     turnsRemaining := turnsRemaining g; complete := complete g; won := won g;
     answer := answer g; validGuesses := validGuesses g;
     hardMode := hardMode g; hints_ := hints_ g; board := b |}.

Definition setHints (g : game) (h : hints) : game :=
  {| day := day g; currentTurn := currentTurn g;
     turnsRemaining := turnsRemaining g; complete := complete g; won := won g;
     answer := answer g; validGuesses := validGuesses g;
     hardMode := hardMode g; hints_ := h; board := board g |}.

(** [g.board[g.currentTurn][i]] updated by [f]; an index out of range panics. *)
Definition updCell (f : cell → cell) (g : game) (i : nat) : option game :=
  if currentTurn g <? 0 then None else
  row ← board g !! Z.to_nat (currentTurn g);
  c ← row !! i;
  Some (setBoard g (<[Z.to_nat (currentTurn g) := <[i := f c]> row]> (board g))).

Definition setColor (c : list ascii) (x : cell) : cell := mkCell c (letter x).
Definition setLetter (l : list ascii) (x : cell) : cell := mkCell (color x) l.

(** [g.hints.green[i] = r]. *)
Definition setGreen (g : game) (i : nat) (r : ascii) : option game :=
  if (i <? length (green (hints_ g)))%nat
  then Some (setHints g (mkHints (yellow (hints_ g)) (<[i := r]> (green (hints_ g)))))
  else None.

(** [g.hints.yellow[r] = true]. *)
Definition setYellow (g : game) (r : ascii) : game :=
  setHints g (mkHints (<[r := true]> (yellow (hints_ g))) (green (hints_ g))).

(** [freq[r]]: a missing key reads as zero. *)
Definition at0 (freq : gmap ascii Z) (r : ascii) : Z := default 0 (freq !! r).
(** [freq[r]++] and [freq[r]--]. *)
Definition incr (freq : gmap ascii Z) (r : ascii) : gmap ascii Z :=
  <[r := wrap (at0 freq r + 1)]> freq.
Definition decr (freq : gmap ascii Z) (r : ascii) : gmap ascii Z :=
  <[r := wrap (at0 freq r - 1)]> freq.

(** The first loop over the guess: the green cells, and every letter. *)
Fixpoint pass1 (i : nat) (rs : list ascii) (g : game) (freq : gmap ascii Z)
  : option (game * gmap ascii Z) :=
  match rs with
  | [] => Some (g, freq)
  | r :: rs' =>
      a ← answer g !! i;
      '(g1, freq1) ←
        (if Ascii.eqb a r then
           g' ← updCell (setColor greenSquare) g i;
           g'' ← setGreen g' i r;
           Some (g'', decr freq r)
         else Some (g, freq));
      g2 ← updCell (setLetter (string_of_rune r)) g1 i;
      pass1 (S i) rs' g2 freq1
  end.

(** The second loop: a cell is yellow when it is not green, the letter exists
    somewhere in the answer, and there is room left to colour. *)
Fixpoint pass2 (i : nat) (rs : list ascii) (g : game) (freq : gmap ascii Z)
  : option (game * gmap ascii Z) :=
  match rs with
  | [] => Some (g, freq)
  | r :: rs' =>
      a ← answer g !! i;
      if negb (Ascii.eqb a r) && ContainsRune (answer g) r && (0 <? at0 freq r) then
        g1 ← updCell (setColor yellowSquare) g i;
        g2 ← updCell (setLetter (string_of_rune r)) g1 i;
        pass2 (S i) rs' (setYellow g2 r) (decr freq r)
      else pass2 (S i) rs' g freq
  end.

(** [game.addGuess]. *)
Definition addGuess (g : game) (guess : list ascii) : option game :=
  let freq := foldl incr ∅ (answer g) in
  '(g1, freq1) ← pass1 0 guess g freq;
  '(g2, _) ← pass2 0 guess g1 freq1;
  let tr := wrap (turnsRemaining g2 - 1) in
  let same := bool_decide (guess = answer g2) in
  Some {| day := day g2;
          currentTurn := wrap (currentTurn g2 + 1);
          turnsRemaining := tr;
          complete := if same || (tr =? 0) then true else complete g2;
          won := if same then true else won g2;
          answer := answer g2; validGuesses := validGuesses g2;
          hardMode := hardMode g2; hints_ := hints_ g2; board := board g2 |}.

(** [game.print], as the text written to standard output. *)
Definition printCell (x : cell) : list ascii :=
  bytes " " ++
  (if bool_decide (color x = greenSquare) then green_ (letter x)
   else if bool_decide (color x = yellowSquare) then yellow_ (letter x)
   else black (letter x)).

Definition print (g : game) : list ascii :=
  bytes "Wordle " ++ Itoa (day g) ++ [LF] ++
  concat ((λ y, concat (printCell <$> y) ++ [LF]) <$> board g).

Definition printTurn (g : game) : list ascii :=
  clearBoard ++ print g ++ prompt.

Definition printTurnWithError (g : game) (err : list ascii) : list ascii :=
  clearBoard ++ print g ++ err ++ [LF] ++ prompt.

(** [turnS] of [printShareableScore]: the turn count of a won game, X of a
    lost one. *)
Definition turnS (g : game) : list ascii :=
  if won g then Itoa (currentTurn g) else bytes "X".

(** [game.printShareableScore]; [g.board[i]] panics past the last row. *)
Definition printShareableScore (g : game) : option (list ascii) :=
  let n := Z.to_nat (currentTurn g) in
  if (length (board g) <? n)%nat then None else
  Some ((if won g then bytes "you won!" ++ [LF]
         else bytes "you lose!" ++ [LF] ++ bytes "Answer was " ++ answer g ++ [LF]) ++
        bytes "Wordle " ++ Itoa (day g) ++ bytes " " ++ turnS g ++ bytes "/6" ++ [LF; LF] ++
        concat ((λ y, concat (color <$> y) ++ [LF]) <$> take n (board g))).

(** One round of the loop of [main] on the ASCII line [text]: the state after
    it and what it printed.  [iter] is the order in which [checkHints] ranges
    over the yellow hints. *)
Definition turn (iter : list ascii) (g : game) (text : list ascii)
  : option (game * list ascii) :=
  let guess := ToUpper (TrimSpace text) in
  if negb (valid guess) then
    Some (g, printTurnWithError g (bytes "Please enter a 5 letter word"))
  else if negb (bool_decide (guess ∈ validGuesses g)) then
    Some (g, printTurnWithError g (bytes "Not in word list"))
  else if hardMode g then
    let '(out, res) := checkHints iter g guess in
    err ← res;
    match err with
    | Some e => Some (g, out ++ printTurnWithError g (bytes "Hard Mode: " ++ Error e))
    | None => g' ← addGuess g guess; Some (g', out ++ printTurn g')
    end
  else
    g' ← addGuess g guess; Some (g', printTurn g').

(** The loop [for !g.complete && s.Scan()] over the lines of standard input,
    each with the order of that round's range over the yellow hints. *)
Fixpoint mainLoop (g : game) (input : list (list ascii * list ascii)) (out : list ascii)
  : option (game * list ascii) :=
  if complete g then Some (g, out) else
  match input with
  | [] => Some (g, out)
  | (text, iter) :: rest =>
      '(g', o) ← turn iter g text;
      mainLoop g' rest (out ++ o)
  end.

(** The day [main] selects. *)
Definition selectDay (fl : flags) (now : Time) (offset r : Z) : Z :=
  if randomFlag fl then randomDay r
  else default (daysSinceFirstWordle now offset) (dayFlag fl).

(** [main]: the flags, the clock and its zone, the draw of the random
    generator, the lines the scanner of standard input yields, and [err]:
    whether [s.Err()] is non-nil when the loop ends (a failed read, or a line
    over 64 KiB).  It is the run on ASCII files and input, the lines of the
    files as [shortLines] has them. *)
Definition main (fuel : nat) (fs : FS) (fl : flags) (now : Time) (offset r : Z)
    (input : list (list ascii * list ascii)) (err : bool)
  : option (game * list ascii) :=
  g ← newGame fuel fs (selectDay fl now offset r) (hardFlag fl);
  '(g', out) ← mainLoop g input (printTurn g);
  if err then None
  else if complete g' then s ← printShareableScore g'; Some (g', out ++ s)
  else Some (g', out).

(** The states the loop of [main] passes through: the new game, and the state
    after each round that starts in a game that is not complete, whatever the
    line and the order of the range over the yellow hints. *)
Inductive reachable (g0 : game) : game → Prop :=
  | reach_new : reachable g0 g0
  | reach_turn g iter text g' out :
      reachable g0 g → complete g = false →
      ranges (yellow (hints_ g)) iter →
      turn iter g text = Some (g', out) → reachable g0 g'.

End Part000.

(** ** src/termle.go: the board of coloured strings *)
Module TermleGo.
Import Go.

Definition totalWordles : Z := 2315.
Definition ESC : ascii := byte 27.

(** [firstDay]: 2021-06-19T00:00:00Z. *)
Definition firstDay : Time := DateUTC 2021 6 19.

Definition valid (s : list ascii) : bool :=
  (length s =? 5)%nat && forallb isLetter s.

Definition green (l : list ascii) : list ascii :=
  ESC :: bytes "[37;102m" ++ l ++ ESC :: bytes "[0m".
Definition yellow (l : list ascii) : list ascii :=
  ESC :: bytes "[37;103m" ++ l ++ ESC :: bytes "[0m".
Definition white (l : list ascii) : list ascii :=
  ESC :: bytes "[0;107m" ++ l ++ ESC :: bytes "[0m".
Definition black (l : list ascii) : list ascii :=
  ESC :: bytes "[37;100m" ++ l ++ ESC :: bytes "[0m".
Definition clearBoard : list ascii := [ESC; "c"%char].
Definition prompt : list ascii := bytes ">".

(** [type board [][]string]. *)
Abbreviation board := (list (list (list ascii))).

Definition newBoard : board := replicate 6 (replicate 5 (black (bytes "_"))).

(** [b[turn][i] = x]; an index out of range panics. *)
Definition setCell (b : board) (turn : Z) (i : nat) (x : list ascii) : option board :=
  if turn <? 0 then None else
  row ← b !! Z.to_nat turn;
  _ ← row !! i;
  Some (<[Z.to_nat turn := <[i := x]> row]> b).

(** The loop of [board.addGuess] from index [i] on, for an ASCII guess: there
    ranging over the string yields one rune per byte, at the byte's index. *)
Fixpoint addGuessFrom (i : nat) (cs : list ascii) (b : board) (turn : Z)
    (answer : list ascii) : option board :=
  match cs with
  | [] => Some b
  | c :: cs' =>
      a ← answer !! i;
      b' ← setCell b turn i
             (if Ascii.eqb c a then green (string_of_rune c)
              else if ContainsRune answer c then yellow (string_of_rune c)
              else black (string_of_rune c));
      addGuessFrom (S i) cs' b' turn answer
  end.

(** [board.addGuess]. *)
Definition addGuess (b : board) (turn : Z) (guess answer : list ascii) : option board :=
  addGuessFrom 0 guess b turn answer.

Definition print (b : board) : list ascii :=
  concat ((λ y, concat ((λ x, bytes " " ++ x) <$> y) ++ [LF]) <$> b).

Definition printTurn (b : board) : list ascii := clearBoard ++ print b ++ prompt.

Definition printTurnWithError (b : board) (err : list ascii) : list ascii :=
  clearBoard ++ print b ++ err ++ [LF] ++ prompt.

(** [guessesSet], as in part_000: exact on a file with [shortLines]. *)
Definition guessesSet (guesses_txt : list ascii) : gset (list ascii) :=
  list_to_set (ToUpper <$> Lines guesses_txt).

(** [answerForDay]: seek to day*7, read five bytes.  A failed Seek or Read
    panics. *)
Definition answerForDay (answers_txt : list ascii) (day : Z) : option (list ascii) :=
  off ← Seek answers_txt (wrap (day * 7));
  answer ← Read answers_txt off 5;
  Some (ToUpper answer).

(** [currentDay], at the instant [now]. *)
Definition currentDay (now : Time) : Z :=
  wrap (int_of_float64 (fdiv (Hours (Sub now firstDay)) (float64_of_int 24)) - 1).

(** The variables of [main] that the loop changes. *)
Record state := mkState {
  b : board;
  currentTurn : Z;
  turnsRemaining : Z
}.

(** One round of the loop of [main] on the ASCII line [text]: the state after
    it, what it printed, and whether [main] returned. *)
Definition turn (answer : list ascii) (validGuesses : gset (list ascii))
    (st : state) (text : list ascii) : option (state * list ascii * bool) :=
  let guess := ToUpper (TrimSpace text) in
  if negb (valid guess) then
    Some (st, printTurnWithError (b st) (bytes "Please enter a 5 letter word"), false)
  else if negb (bool_decide (guess ∈ validGuesses)) then
    Some (st, printTurnWithError (b st) (bytes "Not in word list"), false)
  else
    b' ← addGuess (b st) (currentTurn st) guess answer;
    if bool_decide (guess = answer) then
      Some (mkState b' (currentTurn st) (turnsRemaining st),
            printTurn b' ++ bytes "you won!", true)
    else
      let tr := wrap (turnsRemaining st - 1) in
      let st' := mkState b' (wrap (currentTurn st + 1)) tr in
      if tr =? 0 then
        Some (st', printTurn b' ++ bytes "you lose!" ++ [LF] ++
                   bytes "Answer was  " ++ answer ++ [LF], true)
      else Some (st', printTurn b', false).

(** The loop [for s.Scan()] over the lines of standard input; the flag tells
    whether a round returned from [main]. *)
Fixpoint mainLoop (answer : list ascii) (validGuesses : gset (list ascii))
    (st : state) (input : list (list ascii)) (out : list ascii)
  : option (state * list ascii * bool) :=
  match input with
  | [] => Some (st, out, false)
  | text :: rest =>
      '(st', o, returned) ← turn answer validGuesses st text;
      if returned : bool then Some (st', out ++ o, true)
      else mainLoop answer validGuesses st' rest (out ++ o)
  end.

Definition randomDay (r : Z) : Z := r `mod` totalWordles.

(** The day [main] selects: [dayFlag] is the value of [-day], whose default
    is [currentDay()]. *)
Definition selectDay (dayFlag : option Z) (randomFlag : bool) (now : Time) (r : Z) : Z :=
  if randomFlag then randomDay r else default (currentDay now) dayFlag.

(** [main]: the embedded files, the flags, the clock, the draw of the random
    generator, the lines the scanner of standard input yields, and [err]:
    whether [s.Err()] is non-nil when the loop runs out of lines.  It is the
    run on ASCII files and input, the lines of guesses.txt as [shortLines]
    has them. *)
Definition main (guesses_txt answers_txt : list ascii) (dayFlag : option Z)
    (randomFlag : bool) (now : Time) (r : Z)
    (input : list (list ascii)) (err : bool) : option (state * list ascii) :=
  answer ← answerForDay answers_txt (selectDay dayFlag randomFlag now r);
  let st := mkState newBoard 0 6 in
  '(st', out, returned) ← mainLoop answer (guessesSet guesses_txt) st input (printTurn newBoard);
  if returned : bool then Some (st', out)
  else if err then None else Some (st', out).

End TermleGo.

(** ** The two passes of [game.addGuess], read off row by row

    What the loops of [Part000.pass1] and [Part000.pass2] leave in the cells,
    the green hints, the yellow hints and [freq], as functions of the guess
    [rs], the answer letters [ans] at the same positions and the cells [row]
    they start from. *)
Module Passes.
Import Go Part000.

Fixpoint cells1 (rs ans : list ascii) (row : list cell) : list cell :=
  match rs, ans, row with
  | r :: rs', a :: ans', c :: row' =>
      mkCell (if Ascii.eqb a r then greenSquare else color c) (string_of_rune r)
        :: cells1 rs' ans' row'
  | _, _, _ => row
  end.

Fixpoint greens1 (rs ans gs : list ascii) : list ascii :=
  match rs, ans, gs with
  | r :: rs', a :: ans', g :: gs' =>
      (if Ascii.eqb a r then r else g) :: greens1 rs' ans' gs'
  | _, _, _ => gs
  end.

Fixpoint freqs1 (rs ans : list ascii) (freq : gmap ascii Z) : gmap ascii Z :=
  match rs, ans with
  | r :: rs', a :: ans' => freqs1 rs' ans' (if Ascii.eqb a r then decr freq r else freq)
  | _, _ => freq
  end.

(** The condition of the second loop. *)
Definition room (answer : list ascii) (a r : ascii) (freq : gmap ascii Z) : bool :=
  negb (Ascii.eqb a r) && ContainsRune answer r && (0 <? at0 freq r).

Fixpoint cells2 (answer rs ans : list ascii) (row : list cell) (freq : gmap ascii Z)
  : list cell :=
  match rs, ans, row with
  | r :: rs', a :: ans', c :: row' =>
      if room answer a r freq
      then mkCell yellowSquare (string_of_rune r) :: cells2 answer rs' ans' row' (decr freq r)
      else c :: cells2 answer rs' ans' row' freq
  | _, _, _ => row
  end.

Fixpoint yellows2 (answer rs ans : list ascii) (y : gmap ascii bool) (freq : gmap ascii Z)
  : gmap ascii bool :=
  match rs, ans with
  | r :: rs', a :: ans' =>
      if room answer a r freq
      then yellows2 answer rs' ans' (<[r := true]> y) (decr freq r)
      else yellows2 answer rs' ans' y freq
  | _, _ => y
  end.

(** The row a guess leaves on a row of new cells. *)
Definition blank : cell := mkCell blackSquare (bytes "_").

Definition scored (answer guess : list ascii) : list cell :=
  cells2 answer guess answer (cells1 guess answer (replicate 5 blank))
         (freqs1 guess answer (foldl incr ∅ answer)).

(** The state [addGuess] expects of a game in progress: the row of the
    current turn exists and is new, and the green hints are a [5]rune. *)
Definition fresh (g : game) : Prop :=
  0 ≤ currentTurn g ∧
  board g !! Z.to_nat (currentTurn g) = Some (replicate 5 blank) ∧
  length (green (hints_ g)) = 5%nat.

(** The game [addGuess] leaves when it starts from a fresh one. *)
Definition played (g : game) (guess : list ascii) : game :=
  let same := bool_decide (guess = answer g) in
  let tr := wrap (turnsRemaining g - 1) in
  {| day := day g;
     currentTurn := wrap (currentTurn g + 1);
     turnsRemaining := tr;
     complete := if same || (tr =? 0) then true else complete g;
     won := if same then true else won g;
     answer := answer g; validGuesses := validGuesses g; hardMode := hardMode g;
     hints_ :=
       mkHints (yellows2 (answer g) guess (answer g) (yellow (hints_ g))
                         (freqs1 guess (answer g) (foldl incr ∅ (answer g))))
               (greens1 guess (answer g) (green (hints_ g)));
     board := <[Z.to_nat (currentTurn g) := scored (answer g) guess]> (board g) |}.

(** The evaluation of a guess: the colours [addGuess] leaves in the row of the
    turn. *)
Definition evaluation (g : game) (guess : list ascii) : option (list (list ascii)) :=
  g' ← addGuess g guess;
  match board g' !! Z.to_nat (currentTurn g) with
  | Some row => Some (color <$> row)
  | None => None
  end.

(** The cells the loop of [TermleGo.addGuess] writes, read off the same way. *)
Fixpoint painted (answer cs ans : list ascii) (row : list (list ascii))
  : list (list ascii) :=
  match cs, ans, row with
  | c :: cs', a :: ans', _ :: row' =>
      (if Ascii.eqb c a then TermleGo.green (string_of_rune c)
       else if ContainsRune answer c then TermleGo.yellow (string_of_rune c)
       else TermleGo.black (string_of_rune c)) :: painted answer cs' ans' row'
  | _, _, _ => row
  end.

(** Letter counts: the occurrences of [c] in a string; the cells of a row
    that hold [c] and are not black; the positions where guess and answer
    both hold [c]; the positions where the guess holds [c] and the answer
    does not. *)
Definition count (c : ascii) (s : list ascii) : nat :=
  length (filter (λ x, x = c) s).

Definition marked (c : ascii) (guess : list ascii) (colours : list (list ascii)) : nat :=
  length (filter (λ p, p.1 = c ∧ p.2 ≠ blackSquare) (zip guess colours)).

Definition matched (c : ascii) (guess ans : list ascii) : nat :=
  length (filter (λ p, p.1 = c ∧ p.2 = c) (zip guess ans)).

Definition unmatched (c : ascii) (guess ans : list ascii) : nat :=
  length (filter (λ p, p.1 = c ∧ p.2 ≠ c) (zip guess ans)).

(** [freq] stays inside the [int] range for [n] more decrements. *)
Definition small (freq : gmap ascii Z) (n : nat) : Prop :=
  ∀ c, int_min + Z.of_nat n ≤ at0 freq c ≤ int_max - Z.of_nat n.

End Passes.

(** ** The rounds of the loop of [Part000.main] *)
Module Rounds.
Import Go Part000 Passes.

(** The guess a line of input stands for. *)
Definition guessOf (text : list ascii) : list ascii := ToUpper (TrimSpace text).

(** A round of the loop of [Part000.main] accepts the line: the guess has the
    format, is in the word list and, in hard mode, passes [checkHints]. *)
Definition accepts (iter : list ascii) (g : game) (text : list ascii) : bool :=
  valid (guessOf text) && bool_decide (guessOf text ∈ validGuesses g) &&
  (negb (hardMode g) ||
   match (checkHints iter g (guessOf text)).2 with
   | Some None => true
   | _ => false
   end).

(** [accepted g guesses g']: rounds of the loop that each accept their line
    lead from [g] to [g'], and [guesses] are the guesses of the lines. *)
Inductive accepted : game → list (list ascii) → game → Prop :=
  | accepted_nil g : accepted g [] g
  | accepted_cons g iter text g1 out guesses g' :
      complete g = false →
      ranges (yellow (hints_ g)) iter →
      accepts iter g text = true →
      turn iter g text = Some (g1, out) →
      accepted g1 guesses g' →
      accepted g (guessOf text :: guesses) g'.

(** The invariant of the loop of [Part000.main]. *)
Definition inv (g : game) : Prop :=
  0 ≤ currentTurn g ≤ 6 ∧
  currentTurn g + turnsRemaining g = 6 ∧
  (complete g = false → currentTurn g < 6) ∧
  (∀ t : nat, currentTurn g ≤ Z.of_nat t < 6 → board g !! t = Some (replicate 5 blank)) ∧
  length (green (hints_ g)) = 5%nat.

(** What the hints say is true of the answer: a green slot that is set holds
    the letter of the answer at its position, and every yellow letter occurs
    in the answer. *)
Definition truthful (g : game) : Prop :=
  (∀ (i : nat) gh, green (hints_ g) !! i = Some gh → gh ≠ emptyRune →
                   answer g !! i = Some gh) ∧
  (∀ l, l ∈ dom (yellow (hints_ g)) → l ∈ answer g).

End Rounds.

(** ** Answer files, and the scanner run over them *)
Module Stores.
Import Go.

(** The scanner after [n] more scans. *)
Fixpoint scans (n : nat) (s : Scanner) : Scanner :=
  match n with
  | O => s
  | S k => scans k (Scan s).2
  end.

(** A fixed-width answer file: every answer followed by a two-byte line
    ending, carriage return and line feed. *)
Definition records (ws : list (list ascii)) : list ascii :=
  concat ((λ w, w ++ [CR; LF]) <$> ws).

(** A newline-delimited answer file: every answer followed by a line feed. *)
Definition textLines (ws : list (list ascii)) : list ascii :=
  concat ((λ w, w ++ [LF]) <$> ws).

End Stores.

(** ** Durations in whole days *)
Module Clock.
Import Go.

(** [int(d.Hours() / 24)] of a duration [d], as both programs compute it. *)
Definition daysOf (d : Z) : Z :=
  int_of_float64 (fdiv (Hours d) (float64_of_int 24)).

(** A duration of [k] whole days. *)
Definition wholeDays (k : Z) : Z := k * 86400 * Second.

(** [daysOf] is exact on the [n] whole-day durations from [k] days on. *)
Fixpoint exactDays (n : nat) (k : Z) : bool :=
  match n with
  | O => true
  | S n' => (daysOf (wholeDays k) =? k) && exactDays n' (k + 1)
  end.

End Clock.
(** ** The rounds of the loop of [TermleGo.main] *)
Module Turns.
Import Go TermleGo.

(** A round of the loop of [TermleGo.main] accepts the line: the guess has the
    format and is in the word list. *)
Definition accepts (vg : gset (list ascii)) (text : list ascii) : bool :=
  valid (Rounds.guessOf text) && bool_decide (Rounds.guessOf text ∈ vg).

(** The guesses of the lines the loop accepts, in the order of the input. *)
Definition guesses (vg : gset (list ascii)) (input : list (list ascii))
  : list (list ascii) :=
  Rounds.guessOf <$> filter (λ text, accepts vg text = true) input.

(** The guesses that are played when [n] turns remain: those up to the first
    one that equals the answer, and at most [n]. *)
Fixpoint plays (answer : list ascii) (n : nat) (gs : list (list ascii))
  : list (list ascii) :=
  match n, gs with
  | S n', guess :: gs' =>
      guess :: (if bool_decide (guess = answer) then [] else plays answer n' gs')
  | _, _ => []
  end.

(** A row of the new board, and the row a guess leaves on it. *)
Definition blankRow : list (list ascii) := replicate 5 (black (bytes "_")).
Definition row (answer guess : list ascii) : list (list ascii) :=
  Passes.painted answer guess answer blankRow.

(** What [main] prints at the end of a lost game. *)
Definition lost (answer : list ascii) : list ascii :=
  bytes "you lose!" ++ [LF] ++ bytes "Answer was  " ++ answer ++ [LF].

End Turns.

(** ** The guesses a game of [Part000.main] has played *)
Module History.
Import Go Part000 Passes.


End History.

(** ** Durations that end just before midnight *)
Module Rounding.
Import Go Clock.

(** One nanosecond before the end of each of the [n] days from day [k] on,
    [daysOf] already yields the number of the next day. *)
Fixpoint roundsUp (n : nat) (k : Z) : bool :=
  match n with
  | O => true
  | S n' => (daysOf (wholeDays (k + 1) - 1) =? k + 1) && roundsUp n' (k + 1)
  end.

End Rounding.

(** ** What the two programs show of a board *)
Module Display.
Import Go Part000.

(** The text [game.print] shows for a cell, after the space: the switch on
    the colour of the cell. *)
Definition shown (x : cell) : list ascii :=
  if bool_decide (color x = greenSquare) then green_ (letter x)
  else if bool_decide (color x = yellowSquare) then yellow_ (letter x)
  else black (letter x).

(** The board of termle.go that holds these texts. *)
Definition shownBoard (bd : list (list cell)) : TermleGo.board :=
  (λ y : list cell, shown <$> y) <$> bd.

End Display.


(** ** Concrete files and games, for the examples below *)
Module Examples.
Import Go Part000 Passes Rounds Stores Clock.

(** guesses.txt with three words, answers.txt with one. *)
Definition crane_fs : FS :=
  mkFS (bytes "trace" ++ [LF] ++ bytes "crane" ++ [LF] ++ bytes "llama")
       (bytes "crane").
Definition crane_game : game :=
  {| day := 0; currentTurn := 0; turnsRemaining := 6; complete := false; won := false;
     answer := bytes "CRANE"; validGuesses := guessesSet crane_fs; hardMode := false;
     hints_ := mkHints ∅ (replicate 5 emptyRune); board := newBoard |}.


(** 2021-06-20T12:00:00Z. *)
Definition june20_noon : Time := mkTime 1624190400 0.

Definition trace : list ascii := bytes "trace".
Definition crane : list ascii := bytes "crane".

(** A game whose answer repeats a letter. *)
Definition allot_game : game :=
  {| day := 0; currentTurn := 0; turnsRemaining := 6; complete := false; won := false;
     answer := bytes "ALLOT"; validGuesses := guessesSet crane_fs; hardMode := false;
     hints_ := mkHints ∅ (replicate 5 emptyRune); board := newBoard |}.

(** The game of CRANE in hard mode, and that game after the guess TRACE. *)
Definition hard_game : game :=
  {| day := 0; currentTurn := 0; turnsRemaining := 6; complete := false; won := false;
     answer := bytes "CRANE"; validGuesses := guessesSet crane_fs; hardMode := true;
     hints_ := mkHints ∅ (replicate 5 emptyRune); board := newBoard |}.

Definition hard_game_after_trace : game := played hard_game (bytes "TRACE").

(** A fixed-width answer file of two records. *)
Definition two_answers : list (list ascii) := [bytes "cigar"; bytes "rebut"].

(** An answer that is not in the word list. *)
Definition stray_fs : FS := mkFS (bytes "trace") (bytes "crane").
Definition stray_game : game :=
  {| day := 0; currentTurn := 0; turnsRemaining := 6; complete := false; won := false;
     answer := bytes "CRANE"; validGuesses := guessesSet stray_fs; hardMode := false;
     hints_ := mkHints ∅ (replicate 5 emptyRune); board := newBoard |}.

(** An answer of three letters. *)
Definition cat_fs : FS := mkFS (bytes "trace") (bytes "cat").
Definition cat_game : game :=
  {| day := 0; currentTurn := 0; turnsRemaining := 6; complete := false; won := false;
     answer := bytes "CAT"; validGuesses := guessesSet cat_fs; hardMode := false;
     hints_ := mkHints ∅ (replicate 5 emptyRune); board := newBoard |}.

(** The flags -day 0 -hard. *)
Definition day0_hard : flags := mkFlags (Some 0) false true.

(** Two lines of input, with the orders of the two ranges over the yellow
    hints. *)
Definition trace_crane : list (list ascii * list ascii) :=
  [(trace, []); (crane, ["C"%char])].


(** The board of termle.go after TRACE and CRANE against CRANE. *)
Definition termle_board_1 : TermleGo.board :=
  Turns.row (bytes "CRANE") (bytes "TRACE") :: replicate 5 Turns.blankRow.
Definition termle_board_2 : TermleGo.board :=
  Turns.row (bytes "CRANE") (bytes "TRACE") :: Turns.row (bytes "CRANE") (bytes "CRANE")
    :: replicate 4 Turns.blankRow.

End Examples.

(** * Properties *)

Import Go Part000 Passes Rounds Stores Clock Examples.

(** ** The passes of [game.addGuess] run to the row they are read off as *)

Lemma insert_middle {A} (l1 l2 : list A) x y :
  <[length l1 := x]> (l1 ++ y :: l2) = l1 ++ x :: l2.
Proof.
  replace (length l1) with (length l1 + 0)%nat by lia.
  by rewrite insert_app_r.
Qed.

Lemma updCell_app f g pre c suf :
  0 ≤ currentTurn g →
  board g !! Z.to_nat (currentTurn g) = Some (pre ++ c :: suf) →
  updCell f g (length pre) =
    Some (setBoard g (<[Z.to_nat (currentTurn g) := pre ++ f c :: suf]> (board g))).
Proof.
  intros Hct Hrow. unfold updCell.
  destruct (Z.ltb_spec (currentTurn g) 0); [lia|].
  rewrite Hrow. simpl. rewrite list_lookup_middle by done. simpl.
  by rewrite insert_middle.
Qed.

Lemma setGreen_app g gp gh gs r :
  green (hints_ g) = gp ++ gh :: gs →
  setGreen g (length gp) r =
    Some (setHints g (mkHints (yellow (hints_ g)) (gp ++ r :: gs))).
Proof.
  intros Hg. unfold setGreen. rewrite Hg.
  destruct (Nat.ltb_spec (length gp) (length (gp ++ gh :: gs))) as [_|H].
  - by rewrite insert_middle.
  - rewrite length_app in H. simpl in H. lia.
Qed.

Lemma pass1_run rs : ∀ i pre suf ap as_ gp gs g freq,
  0 ≤ currentTurn g →
  board g !! Z.to_nat (currentTurn g) = Some (pre ++ suf) →
  answer g = ap ++ as_ → green (hints_ g) = gp ++ gs →
  length pre = i → length ap = i → length gp = i →
  (length rs ≤ length suf)%nat → (length rs ≤ length as_)%nat →
  (length rs ≤ length gs)%nat →
  pass1 i rs g freq =
    Some (setHints
            (setBoard g (<[Z.to_nat (currentTurn g) := pre ++ cells1 rs as_ suf]> (board g)))
            (mkHints (yellow (hints_ g)) (gp ++ greens1 rs as_ gs)),
          freqs1 rs as_ freq).
Proof.
  induction rs as [|r rs IH];
    intros i pre suf ap as_ gp gs g freq Hct Hrow Ha Hg Lpre Lap Lgp L1 L2 L3.
  - simpl. rewrite list_insert_id by done. rewrite <- Hg.
    by destruct g as [? ? ? ? ? ? ? ? [? ?] ?].
  - destruct suf as [|c suf]; [simpl in L1; lia|].
    destruct as_ as [|a as_]; [simpl in L2; lia|].
    destruct gs as [|gh gs]; [simpl in L3; lia|].
    simpl in L1, L2, L3.
    assert (Hlt : (Z.to_nat (currentTurn g) < length (board g))%nat)
      by (eapply lookup_lt_Some; exact Hrow).
    cbn [pass1 cells1 greens1 freqs1].
    rewrite Ha, <- Lap, list_lookup_middle by done. cbn [mbind option_bind].
    rewrite Lap, <- Lpre.
    destruct (Ascii.eqb a r) eqn:E.
    + rewrite (updCell_app _ _ _ _ _ Hct Hrow). cbn [mbind option_bind].
      rewrite Lpre, <- Lgp.
      erewrite setGreen_app by (simpl; exact Hg). cbn [mbind option_bind].
      rewrite Lgp, <- Lpre.
      erewrite updCell_app; [| simpl; done | simpl; by apply list_lookup_insert_eq ].
      cbn [mbind option_bind].
      rewrite (IH (S (length pre)) (pre ++ [mkCell greenSquare (string_of_rune r)]) suf
                  (ap ++ [a]) as_ (gp ++ [r]) gs);
        simpl; rewrite ?length_app; simpl; try lia.
      * rewrite !list_insert_insert_eq. rewrite <- !app_assoc. simpl. done.
      * rewrite !list_insert_insert_eq. rewrite list_lookup_insert_eq by done.
        by rewrite <- app_assoc.
      * by rewrite Ha, <- app_assoc.
      * by rewrite <- app_assoc.
    + cbn [mbind option_bind].
      erewrite updCell_app; [| done | exact Hrow ].
      cbn [mbind option_bind].
      rewrite (IH (S (length pre)) (pre ++ [mkCell (color c) (string_of_rune r)]) suf
                  (ap ++ [a]) as_ (gp ++ [gh]) gs);
        simpl; rewrite ?length_app; simpl; try lia.
      * rewrite !list_insert_insert_eq. rewrite <- !app_assoc. simpl. done.
      * rewrite list_lookup_insert_eq by done.
        by rewrite <- app_assoc.
      * by rewrite Ha, <- app_assoc.
      * by rewrite Hg, <- app_assoc.
Qed.

Lemma pass2_run rs : ∀ i pre suf ap as_ g freq,
  0 ≤ currentTurn g →
  board g !! Z.to_nat (currentTurn g) = Some (pre ++ suf) →
  answer g = ap ++ as_ →
  length pre = i → length ap = i →
  (length rs ≤ length suf)%nat → (length rs ≤ length as_)%nat →
  ∃ freq',
  pass2 i rs g freq =
    Some (setHints
            (setBoard g (<[Z.to_nat (currentTurn g) :=
                             pre ++ cells2 (answer g) rs as_ suf freq]> (board g)))
            (mkHints (yellows2 (answer g) rs as_ (yellow (hints_ g)) freq)
                     (green (hints_ g))),
          freq').
Proof.
  induction rs as [|r rs IH];
    intros i pre suf ap as_ g freq Hct Hrow Ha Lpre Lap L1 L2.
  - exists freq. simpl. rewrite list_insert_id by done.
    by destruct g as [? ? ? ? ? ? ? ? [? ?] ?].
  - destruct suf as [|c suf]; [simpl in L1; lia|].
    destruct as_ as [|a as_]; [simpl in L2; lia|].
    simpl in L1, L2.
    assert (Hlt : (Z.to_nat (currentTurn g) < length (board g))%nat)
      by (eapply lookup_lt_Some; exact Hrow).
    assert (Hai : answer g !! i = Some a)
      by (rewrite Ha, <- Lap; by apply list_lookup_middle).
    cbn [pass2 cells2 yellows2].
    rewrite Hai. cbn [mbind option_bind].
    rewrite <- Lpre. fold (room (answer g) a r freq).
    destruct (room (answer g) a r freq) eqn:E.
    + rewrite (updCell_app _ _ _ _ _ Hct Hrow). cbn [mbind option_bind].
      erewrite updCell_app; [| simpl; done | simpl; by apply list_lookup_insert_eq ].
      cbn [mbind option_bind].
      match goal with |- context [pass2 _ _ ?g' ?f] =>
        destruct (IH (S (length pre)) (pre ++ [mkCell yellowSquare (string_of_rune r)]) suf
                  (ap ++ [a]) as_ g' f) as [f' Hf'] end;
        [ simpl; rewrite ?length_app; simpl; try lia;
          rewrite ?list_insert_insert_eq, ?list_lookup_insert_eq by done;
          rewrite ?Ha; rewrite <- ?app_assoc; done .. | ].
      exists f'. rewrite Hf'. simpl.
      rewrite !list_insert_insert_eq. rewrite <- !app_assoc. simpl. done.
    + destruct (IH (S (length pre)) (pre ++ [c]) suf (ap ++ [a]) as_ g freq) as [f' Hf'];
        [ simpl; rewrite ?length_app; simpl; try lia;
          rewrite ?Ha; rewrite <- ?app_assoc; done .. | ].
      exists f'. rewrite Hf'. rewrite <- !app_assoc. simpl. done.
Qed.

Lemma cells1_length rs : ∀ ans row, length (cells1 rs ans row) = length row.
Proof.
  induction rs as [|r rs IH]; intros [|a ans] [|c row]; simpl; try done.
  by rewrite IH.
Qed.

Lemma greens1_length rs : ∀ ans gs, length (greens1 rs ans gs) = length gs.
Proof.
  induction rs as [|r rs IH]; intros [|a ans] [|c gs]; simpl; try done.
  by rewrite IH.
Qed.

Lemma cells2_length answer rs : ∀ ans row f, length (cells2 answer rs ans row f) = length row.
Proof.
  induction rs as [|r rs IH]; intros [|a ans] [|c row] f; simpl; try done.
  destruct (room answer a r f); simpl; by rewrite IH.
Qed.

Lemma addGuess_fresh g guess :
  fresh g → (length guess ≤ 5)%nat → (length guess ≤ length (answer g))%nat →
  addGuess g guess = Some (played g guess).
Proof.
  intros (Hct & Hrow & Hgr) L5 La. unfold addGuess.
  rewrite (pass1_run guess 0 [] (replicate 5 blank) [] (answer g) [] (green (hints_ g)) g);
    try done; rewrite ?length_replicate; try lia.
  cbn [mbind option_bind].
  match goal with |- context [pass2 _ _ ?g' ?f] =>
    destruct (pass2_run guess 0 [] (cells1 guess (answer g) (replicate 5 blank)) []
                (answer g) g' f) as [f' Hf'] end; try done.
  - simpl. apply list_lookup_insert_eq. eapply lookup_lt_Some; exact Hrow.
  - by rewrite cells1_length, length_replicate.
  - rewrite Hf'. cbn [mbind option_bind]. simpl.
    rewrite list_insert_insert_eq. done.
Qed.

Lemma evaluation_fresh g guess :
  fresh g → (length guess ≤ 5)%nat → (length guess ≤ length (answer g))%nat →
  evaluation g guess = Some (color <$> scored (answer g) guess).
Proof.
  intros Hf L5 La. unfold evaluation. rewrite addGuess_fresh by done.
  cbn [mbind option_bind played board].
  destruct Hf as (Hct & Hrow & Hgr).
  rewrite list_lookup_insert_eq by (eapply lookup_lt_Some; exact Hrow). done.
Qed.

Lemma square_distinct :
  greenSquare ≠ yellowSquare ∧ greenSquare ≠ blackSquare ∧ yellowSquare ≠ blackSquare.
Proof. by repeat split. Qed.

Lemma newGame_answer fuel fs day hard g :
  newGame fuel fs day hard = Some g →
  answerForDay fuel fs day = Some (answer g) ∧
  currentTurn g = 0 ∧ turnsRemaining g = 6 ∧ complete g = false ∧ won g = false ∧
  board g = newBoard ∧ hints_ g = mkHints ∅ (replicate 5 emptyRune) ∧
  hardMode g = hard ∧ Part000.day g = day ∧ validGuesses g = guessesSet fs.
Proof.
  unfold newGame. destruct (answerForDay fuel fs day) as [a|]; [|done].
  simpl. intros [= <-]. by simpl.
Qed.

Lemma inv_fresh g : inv g → complete g = false → fresh g.
Proof.
  intros (Hct & Hsum & Hc & Hrows & Hg) Hcomp. specialize (Hc Hcomp).
  repeat split; [lia| |done].
  apply Hrows. lia.
Qed.

Lemma newGame_inv fuel fs day hard g : newGame fuel fs day hard = Some g → inv g.
Proof.
  intros H. apply newGame_answer in H as (_ & Hct & Htr & Hc & _ & Hb & Hh & _).
  unfold inv. rewrite Hct, Htr, Hb, Hh. simpl.
  repeat split; try lia.
  intros t Ht. unfold newBoard.
  assert (t < 6)%nat by lia.
  by rewrite lookup_replicate_2.
Qed.

(** C2, as amended: for the answer CRANE and the guess TRACE the evaluation is
    [absent; correct; correct; present; correct].  The A of TRACE stands where
    the A of CRANE stands, so the first loop marks it correct. *)
Theorem crane_trace_evaluation g :
  fresh g → answer g = bytes "CRANE" →
  evaluation g (bytes "TRACE") =
    Some [blackSquare; greenSquare; greenSquare; yellowSquare; greenSquare].
Proof.
  intros Hf Ha.
  rewrite evaluation_fresh by (rewrite ?Ha; first [exact Hf | simpl; lia]).
  rewrite Ha. by vm_compute.
Qed.

Lemma crane_game_new : newGame 1 crane_fs 0 false = Some crane_game.
Proof. reflexivity. Qed.

(** [crane_trace_evaluation] at the new game of CRANE. *)
Lemma crane_trace_evaluation_witness :
  evaluation crane_game (bytes "TRACE") =
    Some [blackSquare; greenSquare; greenSquare; yellowSquare; greenSquare].
Proof.
  apply (crane_trace_evaluation crane_game).
  - repeat split; simpl; first [lia | reflexivity].
  - reflexivity.
Defined.

(** C2, as stated, fails: the evaluation of TRACE against CRANE is not
    [absent; correct; present; present; correct]. *)
Lemma crane_trace_not_as_claimed :
  evaluation crane_game (bytes "TRACE") ≠
    Some [blackSquare; greenSquare; yellowSquare; yellowSquare; greenSquare].
Proof. by vm_compute. Qed.

Lemma setCell_app b turn pre c suf x :
  0 ≤ turn → b !! Z.to_nat turn = Some (pre ++ c :: suf) →
  TermleGo.setCell b turn (length pre) x =
    Some (<[Z.to_nat turn := pre ++ x :: suf]> b).
Proof.
  intros Ht Hrow. unfold TermleGo.setCell.
  destruct (Z.ltb_spec turn 0); [lia|].
  rewrite Hrow. simpl. rewrite list_lookup_middle by done. simpl.
  by rewrite insert_middle.
Qed.

Lemma addGuessFrom_run cs : ∀ i pre suf ap as_ b turn answer,
  0 ≤ turn → b !! Z.to_nat turn = Some (pre ++ suf) →
  answer = ap ++ as_ → length pre = i → length ap = i →
  (length cs ≤ length suf)%nat → (length cs ≤ length as_)%nat →
  TermleGo.addGuessFrom i cs b turn answer =
    Some (<[Z.to_nat turn := pre ++ painted answer cs as_ suf]> b).
Proof.
  induction cs as [|c cs IH]; intros i pre suf ap as_ b turn answer Ht Hrow Ha Lpre Lap L1 L2.
  - cbn [TermleGo.addGuessFrom painted]. f_equal. symmetry. by apply list_insert_id.
  - destruct suf as [|x suf]; [simpl in L1; lia|].
    destruct as_ as [|a as_]; [simpl in L2; lia|].
    simpl in L1, L2.
    assert (Hlt : (Z.to_nat turn < length b)%nat) by (eapply lookup_lt_Some; exact Hrow).
    assert (Hai : answer !! i = Some a)
      by (rewrite Ha, <- Lap; by apply list_lookup_middle).
    cbn [TermleGo.addGuessFrom painted]. rewrite Hai. cbn [mbind option_bind].
    rewrite <- Lpre. erewrite setCell_app by done. cbn [mbind option_bind].
    erewrite (IH (S (length pre)) (pre ++ [_]) suf (ap ++ [a]) as_);
      [ | done | rewrite list_lookup_insert_eq by done; by rewrite <- app_assoc
        | by rewrite Ha, <- app_assoc
        | rewrite length_app; simpl; lia | rewrite length_app; simpl; lia | lia | lia ].
    rewrite list_insert_insert_eq, <- app_assoc. done.
Qed.

Lemma scored_same answer rs : ∀ row f,
  (length rs ≤ length row)%nat →
  color <$> cells2 answer rs rs (cells1 rs rs row) f =
    replicate (length rs) greenSquare ++ (color <$> drop (length rs) row).
Proof.
  induction rs as [|r rs IH]; intros row f L.
  - simpl. by rewrite drop_0.
  - destruct row as [|c row]; [simpl in L; lia|]. simpl in L.
    cbn [cells1 cells2]. unfold room. rewrite Ascii.eqb_refl. simpl.
    rewrite IH by lia. done.
Qed.

Lemma painted_same answer cs : ∀ row,
  (length cs ≤ length row)%nat →
  painted answer cs cs row =
    ((λ c, TermleGo.green (string_of_rune c)) <$> cs) ++ drop (length cs) row.
Proof.
  induction cs as [|c cs IH]; intros row L.
  - simpl. by rewrite drop_0.
  - destruct row as [|x row]; [simpl in L; lia|]. simpl in L.
    cbn [painted]. rewrite Ascii.eqb_refl. simpl. rewrite IH by lia. done.
Qed.

Lemma valid_length s : valid s = true → length s = 5%nat.
Proof.
  unfold valid. intros [H _]%andb_prop. by apply Nat.eqb_eq.
Qed.

(** C8: a guess equal to the answer is marked correct at all five positions,
    by [game.addGuess] (every colour of the row is the green square) and by
    [board.addGuess] of termle.go (every cell of the row is the green text of
    its letter). *)
Theorem guess_equal_answer_all_correct g (bd : TermleGo.board) turn row guess :
  fresh g → valid guess = true → guess = answer g →
  0 ≤ turn → bd !! Z.to_nat turn = Some row → length row = 5%nat →
  evaluation g guess = Some (replicate 5 greenSquare) ∧
  ∃ bd', TermleGo.addGuess bd turn guess guess = Some bd' ∧
         bd' !! Z.to_nat turn = Some ((λ c, TermleGo.green (string_of_rune c)) <$> guess).
Proof.
  intros Hf Hv Hg Ht Hrow Lrow. pose proof (valid_length _ Hv) as L5. split.
  - rewrite evaluation_fresh by first [exact Hf | lia | rewrite <- Hg; lia].
    rewrite <- Hg. unfold scored.
    rewrite scored_same by (rewrite length_replicate; lia).
    rewrite L5. simpl. done.
  - eexists. split.
    + unfold TermleGo.addGuess.
      apply (addGuessFrom_run guess 0 [] row [] guess); simpl; try done; lia.
    + rewrite list_lookup_insert_eq by (eapply lookup_lt_Some; exact Hrow).
      simpl. rewrite painted_same by lia.
      rewrite drop_ge by lia. by rewrite app_nil_r.
Qed.

Lemma wrap_id z : int_min ≤ z ≤ int_max → wrap z = z.
Proof.
  unfold int_min, int_max, wrap. intros H.
  rewrite Z.mod_small by lia. lia.
Qed.

Lemma updCell_answer f g i g' : updCell f g i = Some g' → answer g' = answer g.
Proof.
  unfold updCell. destruct (currentTurn g <? 0); [done|].
  destruct (board g !! Z.to_nat (currentTurn g)) as [row|]; [|done]. simpl.
  destruct (row !! i); [|done]. simpl. by intros [= <-].
Qed.

Lemma setGreen_answer g i r g' : setGreen g i r = Some g' → answer g' = answer g.
Proof.
  unfold setGreen. destruct (_ <? _)%nat; [|done]. by intros [= <-].
Qed.

Lemma pass1_short rs : ∀ i g f,
  rs ≠ [] → (length (answer g) < i + length rs)%nat → pass1 i rs g f = None.
Proof.
  induction rs as [|r rs IH]; intros i g f Hne L; [done|].
  cbn [pass1]. destruct (answer g !! i) as [a|] eqn:Ha; [|done].
  cbn [mbind option_bind].
  apply lookup_lt_Some in Ha. simpl in L.
  assert (Hrs : rs ≠ []) by (destruct rs; [simpl in L; lia | done]).
  destruct (Ascii.eqb a r).
  - destruct (updCell _ g i) as [g1|] eqn:E1; [|done]. cbn [mbind option_bind].
    destruct (setGreen g1 i r) as [g2|] eqn:E2; [|done]. cbn [mbind option_bind].
    destruct (updCell _ g2 i) as [g3|] eqn:E3; [|done]. cbn [mbind option_bind].
    apply IH; [done|].
    rewrite (updCell_answer _ _ _ _ E3), (setGreen_answer _ _ _ _ E2),
      (updCell_answer _ _ _ _ E1). lia.
  - cbn [mbind option_bind].
    destruct (updCell _ g i) as [g3|] eqn:E3; [|done]. cbn [mbind option_bind].
    apply IH; [done|]. rewrite (updCell_answer _ _ _ _ E3). lia.
Qed.

Lemma addGuess_short g guess :
  guess ≠ [] → (length (answer g) < length guess)%nat → addGuess g guess = None.
Proof.
  intros Hne L. unfold addGuess. by rewrite pass1_short.
Qed.

Lemma addGuess_played g guess g' :
  fresh g → valid guess = true → addGuess g guess = Some g' → g' = played g guess.
Proof.
  intros Hf Hv H. pose proof (valid_length _ Hv) as L5.
  destruct (decide (length (answer g) < length guess)%nat) as [Hs|Hs].
  - rewrite addGuess_short in H; [done | by destruct guess | done].
  - rewrite addGuess_fresh in H by (first [exact Hf | lia]). by injection H.
Qed.

Lemma accepts_turn iter g text :
  accepts iter g text = true →
  ∃ out, turn iter g text = (g' ← addGuess g (guessOf text); Some (g', out g')).
Proof.
  unfold accepts, turn. fold (guessOf text).
  intros [[Hv Hin]%andb_prop Hh]%andb_prop.
  rewrite Hv, Hin. cbn [negb].
  destruct (hardMode g); cbn [negb orb] in Hh.
  - destruct (checkHints iter g (guessOf text)) as [o res]. cbn [snd] in Hh.
    destruct res as [[e|]|]; try done.
    exists (λ g', o ++ printTurn g'). reflexivity.
  - exists printTurn. reflexivity.
Qed.

Lemma turn_played iter g text g' out :
  inv g → complete g = false → accepts iter g text = true →
  turn iter g text = Some (g', out) → g' = played g (guessOf text).
Proof.
  intros Hi Hc Ha Ht. destruct (accepts_turn _ _ _ Ha) as [o Ho].
  rewrite Ho in Ht.
  destruct (addGuess g (guessOf text)) as [g1|] eqn:E; [|done].
  simpl in Ht. injection Ht as <- _.
  eapply addGuess_played; [by apply inv_fresh | | done].
  unfold accepts in Ha. by apply andb_prop in Ha as [[? _]%andb_prop _].
Qed.

Lemma rejects_turn iter g text g' out :
  accepts iter g text = false → turn iter g text = Some (g', out) → g' = g.
Proof.
  unfold accepts, turn. fold (guessOf text). intros Ha.
  destruct (valid (guessOf text)); cbn [negb andb] in *; [|congruence].
  destruct (bool_decide (guessOf text ∈ validGuesses g)); cbn [negb andb] in *; [|congruence].
  destruct (hardMode g); cbn [negb orb] in *; [|done].
  destruct (checkHints iter g (guessOf text)) as [o res]. cbn [snd] in *.
  destruct res as [[e|]|]; try done. cbn [mbind option_bind]. congruence.
Qed.



Lemma inv_played g guess :
  inv g → complete g = false → inv (played g guess).
Proof.
  intros (Hct & Hsum & Hc & Hrows & Hg) Hcomp. specialize (Hc Hcomp).
  unfold inv, played. cbn [currentTurn turnsRemaining complete board hints_ green].
  rewrite !wrap_id by (unfold int_min, int_max; lia).
  repeat split; try lia.
  - destruct (bool_decide _ || _) eqn:E; [done|].
    intros _. apply orb_false_iff in E as [_ E]. apply Z.eqb_neq in E. lia.
  - intros t Ht. rewrite list_lookup_insert_ne by lia. apply Hrows. lia.
  - by rewrite greens1_length.
Qed.

Lemma turn_inv iter g text g' out :
  inv g → complete g = false → turn iter g text = Some (g', out) → inv g'.
Proof.
  intros Hi Hc Ht. destruct (accepts iter g text) eqn:Ha.
  - rewrite (turn_played _ _ _ _ _ Hi Hc Ha Ht). by apply inv_played.
  - by rewrite (rejects_turn _ _ _ _ _ Ha Ht).
Qed.

Lemma reachable_inv g0 g : inv g0 → reachable g0 g → inv g.
Proof.
  intros H0 Hr. induction Hr as [|g iter text g' out _ IH Hc _ Ht]; [done|].
  by eapply turn_inv.
Qed.

(** C9: in every state the loop of [main] reaches from the new game,
    currentTurn + turnsRemaining = 6 and 0 <= currentTurn <= 6.  The rounds
    that reject their line and the rounds that accept it are both steps of
    [reachable]. *)
Theorem turns_sum_to_six fuel fs day hard g0 g :
  newGame fuel fs day hard = Some g0 → reachable g0 g →
  currentTurn g + turnsRemaining g = 6 ∧ 0 ≤ currentTurn g ≤ 6.
Proof.
  intros Hn Hr. apply newGame_inv in Hn.
  destruct (reachable_inv _ _ Hn Hr) as (? & ? & _). done.
Qed.

Lemma last_eq_Some (a b : list ascii) :
  bool_decide (a = b) = bool_decide (Some a = Some b).
Proof. apply bool_decide_ext. split; congruence. Qed.

Lemma accepted_run g guesses g' :
  inv g → won g = false → accepted g guesses g' →
  inv g' ∧ answer g' = answer g ∧
  currentTurn g' = currentTurn g + Z.of_nat (length guesses) ∧
  (guesses ≠ [] →
   won g' = bool_decide (last guesses = Some (answer g)) ∧
   complete g' = bool_decide (last guesses = Some (answer g)) || (turnsRemaining g' =? 0)).
Proof.
  intros Hi Hw Ha. induction Ha as [g|g iter text g1 out guesses g' Hc _ Hacc Ht Hrest IH].
  - split; [done|]. split; [done|]. split; [simpl; lia|]. done.
  - pose proof (turn_played _ _ _ _ _ Hi Hc Hacc Ht) as ->.
    pose proof (inv_played g (guessOf text) Hi Hc) as Hi1.
    assert (Hct1 : currentTurn (played g (guessOf text)) = currentTurn g + 1).
    { destruct Hi as (? & ? & Hlt & _). specialize (Hlt Hc).
      unfold played; cbn [currentTurn]. rewrite wrap_id; [done|].
      unfold int_min, int_max; lia. }
    destruct guesses as [|x rest].
    + inversion Hrest; subst.
      split; [done|]. split; [done|]. split; [rewrite Hct1; simpl; lia|].
      intros _. split.
      * unfold played; cbn [won answer]. simpl. rewrite Hw, <- last_eq_Some.
        repeat case_bool_decide; congruence.
      * unfold played; cbn [complete turnsRemaining answer]. simpl.
        rewrite Hc, <- last_eq_Some.
        destruct (_ =? 0); repeat case_bool_decide; simpl; congruence.
    + assert (Hc1 : complete (played g (guessOf text)) = false) by (by inversion Hrest).
      assert (Hw1 : won (played g (guessOf text)) = false).
      { unfold played in Hc1 |- *; cbn [complete won] in *.
        destruct (bool_decide (guessOf text = answer g)); [done|]. done. }
      destruct (IH Hi1 Hw1) as (Hi' & Ha' & Hct' & Hl).
      split; [done|]. split; [done|].
      split; [rewrite Hct', Hct1; simpl length; lia|].
      intros _. destruct Hl as [Hl1 Hl2]; [done|]. rewrite Hl1, Hl2. done.
Qed.

(** ** Six turns, a win, and the end of the game *)

Lemma complete_stops g input out :
  complete g = true → mainLoop g input out = Some (g, out).
Proof. intros H. destruct input; simpl; by rewrite H. Qed.

Lemma complete_accepts_nothing g more g' :
  complete g = true → accepted g more g' → more = [] ∧ g' = g.
Proof. intros H Ha. inversion Ha; subst; [done | congruence]. Qed.

(** C5: from the new game, six accepted guesses that all differ from the
    answer end the game lost (complete, not won), and fewer leave it in
    progress; an accepted guess equal to the answer as the k-th guess ends it
    won, with turn count k (the [currentTurn] that [printShareableScore]
    prints); and a complete game takes no further round. *)
Theorem six_guesses_or_a_win fuel fs day hard g0 guesses g :
  newGame fuel fs day hard = Some g0 → accepted g0 guesses g →
  (Forall (λ x, x ≠ answer g0) guesses →
   (length guesses = 6%nat → complete g = true ∧ won g = false) ∧
   ((length guesses < 6)%nat → complete g = false ∧ won g = false)) ∧
  (last guesses = Some (answer g0) →
   complete g = true ∧ won g = true ∧
   currentTurn g = Z.of_nat (length guesses) ∧
   turnS g = Itoa (Z.of_nat (length guesses))) ∧
  (complete g = true →
   (∀ input out, mainLoop g input out = Some (g, out)) ∧
   (∀ more g', accepted g more g' → more = [] ∧ g' = g)).
Proof.
  intros Hn Ha.
  pose proof (newGame_inv _ _ _ _ _ Hn) as Hi.
  apply newGame_answer in Hn as (_ & Hct & _ & Hc0 & Hw & _).
  destruct (accepted_run _ _ _ Hi Hw Ha) as ((_ & Hsum & _) & _ & Hct' & Hl).
  rewrite Hct in Hct'. split_and!.
  - intros Hne.
    assert (Hlast : bool_decide (last guesses = Some (answer g0)) = false).
    { apply bool_decide_eq_false. intros [l' ->]%last_Some.
      rewrite Forall_forall in Hne. apply (Hne (answer g0)); [|done].
      apply elem_of_app. right. by left. }
    split.
    + intros L6. destruct Hl as [Hw' Hc']; [by intros ->|].
      rewrite Hc', Hw', Hlast. rewrite L6 in Hct'.
      replace (turnsRemaining g) with 0 by lia. done.
    + intros L6. destruct guesses as [|x rest].
      * inversion Ha; subst. done.
      * destruct Hl as [Hw' Hc']; [done|]. rewrite Hc', Hw', Hlast.
        destruct (Z.eqb_spec (turnsRemaining g) 0); [lia | done].
  - intros Hlast. destruct Hl as [Hw' Hc']; [by intros ->|].
    rewrite Hc', Hw'. rewrite bool_decide_eq_true_2 by done.
    split_and!; [done | done | lia |].
    unfold turnS. rewrite Hw', bool_decide_eq_true_2 by done. f_equal. lia.
  - intros Hc. split.
    + intros input out. by apply complete_stops.
    + intros more g'. by apply complete_accepts_nothing.
Qed.

(** [six_guesses_or_a_win] at the game of CRANE: six times TRACE, and TRACE
    followed by CRANE. *)
Lemma six_guesses_or_a_win_witness :
  (∃ g, accepted crane_game (replicate 6 (guessOf trace)) g ∧
        complete g = true ∧ won g = false) ∧
  (∃ g, accepted crane_game [guessOf trace; guessOf crane] g ∧
        complete g = true ∧ won g = true ∧ currentTurn g = 2 ∧ turnS g = bytes "2").
Proof.
  split.
  - assert (∃ g, accepted crane_game (replicate 6 (guessOf trace)) g) as [g H].
    { eexists.
      eapply (accepted_cons _ [] trace);
        [reflexivity | by vm_compute | by vm_compute | vm_compute; reflexivity |].
      do 5 (eapply (accepted_cons _ ["C"%char] trace);
            [reflexivity | by vm_compute | by vm_compute | vm_compute; reflexivity |]).
      apply accepted_nil. }
    exists g. split; [exact H|].
    apply (proj1 (six_guesses_or_a_win 1 crane_fs 0 false crane_game _ g eq_refl H)).
    + repeat constructor; by vm_compute.
    + reflexivity.
  - assert (∃ g, accepted crane_game [guessOf trace; guessOf crane] g) as [g H].
    { eexists.
      eapply (accepted_cons _ [] trace);
        [reflexivity | by vm_compute | by vm_compute | vm_compute; reflexivity |].
      eapply (accepted_cons _ ["C"%char] crane);
        [reflexivity | by vm_compute | by vm_compute | vm_compute; reflexivity |].
      apply accepted_nil. }
    exists g. split; [exact H|].
    apply (proj1 (proj2 (six_guesses_or_a_win 1 crane_fs 0 false crane_game _ g eq_refl H))).
    reflexivity.
Defined.


Lemma HasPrefix_single s l : HasPrefix s [l] = true ↔ ∃ s', s = l :: s'.
Proof.
  destruct s as [|a s]; simpl.
  - split; [done | by intros [? ?]].
  - rewrite andb_true_iff. split.
    + intros [H%Ascii.eqb_eq _]. subst. eauto.
    + intros [s' [= -> ->]]. split; [apply Ascii.eqb_refl|]. by destruct s'.
Qed.

Lemma Contains_rune s l : Contains s (string_of_rune l) = true ↔ l ∈ s.
Proof.
  unfold string_of_rune. induction s as [|a s IH].
  - simpl. split; [done | by intros ?%elem_of_nil].
  - cbn [Contains]. rewrite orb_true_iff, IH, HasPrefix_single, elem_of_cons.
    split.
    + intros [[s' [= -> ->]]|H]; auto.
    + intros [->|H]; eauto.
Qed.

Lemma checkYellow_None iter guess :
  checkYellow iter guess = None ↔ ∀ l, l ∈ iter → l ∈ guess.
Proof.
  induction iter as [|l iter IH]; simpl.
  - split; [|done]. by intros _ l ?%elem_of_nil.
  - destruct (Contains guess (string_of_rune l)) eqn:E; simpl.
    + rewrite IH. apply Contains_rune in E. split.
      * intros H x [->|Hx]%elem_of_cons; auto.
      * intros H x Hx. apply H. by right.
    + split; [done|]. intros H. exfalso.
      assert (l ∈ guess) as Hl by (apply H; by left).
      apply Contains_rune in Hl. congruence.
Qed.

Lemma checkYellow_Some iter guess e :
  checkYellow iter guess = Some e →
  ∃ l, e = MustContain l ∧ l ∈ iter ∧ l ∉ guess.
Proof.
  induction iter as [|l iter IH]; simpl; [done|].
  destruct (Contains guess (string_of_rune l)) eqn:E; simpl.
  - intros H. destruct (IH H) as (x & -> & Hx & Hn). exists x.
    repeat split; [by right | done].
  - intros [= <-]. exists l. repeat split; [by left|].
    intros Hl%Contains_rune. congruence.
Qed.

Lemma checkGreen_spec gs : ∀ i guess,
  (i + length gs ≤ length guess)%nat →
  let wrong (j : nat) gh :=
    gs !! j = Some gh ∧ gh ≠ emptyRune ∧ guess !! (i + j)%nat ≠ Some gh in
  ((∀ j gh, ¬ wrong j gh) → checkGreen i gs guess = Some None) ∧
  ((∃ j gh, wrong j gh) →
   ∃ j gh, wrong j gh ∧ checkGreen i gs guess = Some (Some (MustBeAt (Z.of_nat (i + j)) gh))).
Proof.
  induction gs as [|gh gs IH]; intros i guess L wrong.
  - split; [done|]. intros (j & x & H & _). by rewrite lookup_nil in H.
  - simpl in L. cbn [checkGreen].
    destruct (lookup_lt_is_Some_2 guess i) as [c Hc]; [lia|].
    destruct (IH (S i) guess) as [IH1 IH2]; [lia|].
    assert (Hshift : ∀ j, (S i + j)%nat = (i + S j)%nat) by (intros; lia).
    assert (Htail1 : (∀ j x, ¬ wrong j x) → checkGreen (S i) gs guess = Some None).
    { intros H. apply IH1. intros j x (Hj & Hx & Hg). apply (H (S j) x).
      unfold wrong. rewrite <- Hshift. by split_and!. }
    assert (Htail2 : (∃ j x, wrong (S j) x) →
              ∃ j x, wrong j x ∧
                checkGreen (S i) gs guess = Some (Some (MustBeAt (Z.of_nat (i + j)) x))).
    { intros (j & x & Hj & Hx & Hg).
      destruct IH2 as (j' & x' & (Hj' & Hx' & Hg') & Hr).
      { exists j, x. rewrite Hshift. by split_and!. }
      exists (S j'), x'. unfold wrong. rewrite <- Hshift. by split_and!. }
    destruct (Ascii.eqb gh emptyRune) eqn:E0; cbn [negb].
    + apply Ascii.eqb_eq in E0. split; [done|].
      intros (j & x & Hj & Hx & Hg). destruct j as [|j].
      { simpl in Hj. congruence. }
      apply Htail2. exists j, x. by split_and!.
    + apply Ascii.eqb_neq in E0. rewrite Hc. cbn [mbind option_bind].
      destruct (Ascii.eqb gh c) eqn:E1; cbn [negb].
      * apply Ascii.eqb_eq in E1. subst c. split; [done|].
        intros (j & x & Hj & Hx & Hg). destruct j as [|j].
        { simpl in Hj. injection Hj as <-. rewrite Nat.add_0_r in Hg. congruence. }
        apply Htail2. exists j, x. by split_and!.
      * apply Ascii.eqb_neq in E1.
        assert (Hw : wrong 0%nat gh).
        { unfold wrong. rewrite Nat.add_0_r, Hc. split_and!; [done..|congruence]. }
        split.
        -- intros H. exfalso. by apply (H 0%nat gh).
        -- intros _. exists 0%nat, gh. by rewrite Nat.add_0_r.
Qed.

Lemma ranges_elem_of (m : gmap ascii bool) iter l :
  ranges m iter → l ∈ iter ↔ l ∈ dom m.
Proof.
  unfold ranges. intros ->. rewrite elem_of_dom, list_elem_of_fmap. split.
  - intros ([k v] & -> & H%elem_of_map_to_list). simpl. eauto.
  - intros [v Hv]. exists (l, v). split; [done|]. by apply elem_of_map_to_list.
Qed.

Lemma missing_or_not iter (m : gmap ascii bool) (guess : list ascii) :
  ranges m iter →
  (∃ l, l ∈ dom m ∧ l ∉ guess) ∨ (∀ l, ¬ (l ∈ dom m ∧ l ∉ guess)).
Proof.
  intros Hr. destruct (checkYellow iter guess) as [e|] eqn:E.
  - left. destruct (checkYellow_Some _ _ _ E) as (l & _ & Hl & Hn).
    exists l. split; [|done]. by apply (ranges_elem_of _ _ _ Hr).
  - right. intros l [Hl Hn]. apply Hn.
    apply (proj1 (checkYellow_None iter guess) E). by apply (ranges_elem_of _ _ _ Hr).
Qed.

(** The three cases of [checkHints] on a five-letter guess. *)
Lemma checkHints_cases iter g guess :
  ranges (yellow (hints_ g)) iter →
  length guess = 5%nat → length (green (hints_ g)) = 5%nat →
  let missing l := l ∈ dom (yellow (hints_ g)) ∧ l ∉ guess in
  let wrong (i : nat) gh :=
    green (hints_ g) !! i = Some gh ∧ gh ≠ emptyRune ∧ guess !! i ≠ Some gh in
  let res := (checkHints iter g guess).2 in
  ((∃ l, missing l) → ∃ l, missing l ∧ res = Some (Some (MustContain l))) ∧
  ((∀ l, ¬ missing l) → (∃ i gh, wrong i gh) →
   ∃ i gh, wrong i gh ∧ res = Some (Some (MustBeAt (Z.of_nat i) gh))) ∧
  ((∀ l, ¬ missing l) → (∀ i gh, ¬ wrong i gh) → res = Some None).
Proof.
  intros Hr Lg Lgr missing wrong res.
  assert (Hy : checkYellow iter guess = None ↔ ∀ l, ¬ missing l).
  { rewrite checkYellow_None. unfold missing. split.
    - intros H l [Hl Hn]. apply Hn, H. by apply (ranges_elem_of _ _ _ Hr).
    - intros H l Hl. destruct (decide (l ∈ guess)) as [|Hn]; [done|].
      exfalso. apply (H l). split; [|done]. by apply (ranges_elem_of _ _ _ Hr). }
  destruct (checkGreen_spec (green (hints_ g)) 0 guess) as [G1 G2]; [simpl; lia|].
  simpl in G1, G2. fold wrong in G1, G2.
  split_and!.
  - intros Hm. unfold res, checkHints. cbn [snd].
    destruct (checkYellow iter guess) as [e|] eqn:E.
    + destruct (checkYellow_Some _ _ _ E) as (l & -> & Hl & Hn).
      exists l. split; [|done]. split; [|done]. by apply (ranges_elem_of _ _ _ Hr).
    + exfalso. destruct Hm as [l Hl]. by apply (proj1 Hy eq_refl l).
  - intros Hm Hw. apply Hy in Hm. unfold res, checkHints. cbn [snd]. rewrite Hm.
    by apply G2.
  - intros Hm Hw. apply Hy in Hm. unfold res, checkHints. cbn [snd]. rewrite Hm.
    by apply G1.
Qed.

(** The round of [main] in hard mode, by the result of [checkHints]. *)
Lemma hard_turn iter g text :
  valid (guessOf text) = true → guessOf text ∈ validGuesses g → hardMode g = true →
  ∃ out,
    turn iter g text =
      match (checkHints iter g (guessOf text)).2 with
      | Some (Some e) => Some (g, out g)
      | Some None => g' ← addGuess g (guessOf text); Some (g', out g')
      | None => None
      end.
Proof.
  intros Hv Hin Hh. unfold turn. fold (guessOf text). rewrite Hv.
  rewrite bool_decide_eq_true_2 by done. cbn [negb]. rewrite Hh.
  destruct (checkHints iter g (guessOf text)) as [o r]. cbn [snd].
  destruct r as [[e|]|]; cbn [mbind option_bind].
  - by exists (λ g', o ++ printTurnWithError g' (bytes "Hard Mode: " ++ Error e)).
  - by exists (λ g', o ++ printTurn g').
  - by exists (λ _, []).
Qed.

(** C4: [checkHints] on a five-letter guess.  If a key of the yellow hints
    is absent from the guess, the error names such a letter; otherwise, if a
    green slot is set and the guess has another letter there, the error names
    such a position and its letter; otherwise there is no error.  The result
    depends on the game through its hints only, and the round of [main] calls
    [checkHints] on the game as the earlier turns left it: on an error the
    game is returned as it was, and only on success is the guess passed to
    [addGuess]. *)
Theorem hard_mode_validation iter g guess :
  ranges (yellow (hints_ g)) iter →
  length guess = 5%nat → length (green (hints_ g)) = 5%nat →
  let missing l := l ∈ dom (yellow (hints_ g)) ∧ l ∉ guess in
  let wrong (i : nat) gh :=
    green (hints_ g) !! i = Some gh ∧ gh ≠ emptyRune ∧ guess !! i ≠ Some gh in
  let res := (checkHints iter g guess).2 in
  ((∃ l, missing l) → ∃ l, missing l ∧ res = Some (Some (MustContain l))) ∧
  ((∀ l, ¬ missing l) → (∃ i gh, wrong i gh) →
   ∃ i gh, wrong i gh ∧ res = Some (Some (MustBeAt (Z.of_nat i) gh))) ∧
  ((∀ l, ¬ missing l) → (∀ i gh, ¬ wrong i gh) → res = Some None) ∧
  (∀ g2, hints_ g2 = hints_ g → (checkHints iter g2 guess).2 = res) ∧
  (∀ text, guessOf text = guess → valid guess = true → guess ∈ validGuesses g →
     hardMode g = true →
     ∃ out,
       turn iter g text =
         match res with
         | Some (Some e) => Some (g, out g)
         | Some None => g' ← addGuess g guess; Some (g', out g')
         | None => None
         end).
Proof.
  intros Hr Lg Lgr missing wrong res.
  destruct (checkHints_cases iter g guess Hr Lg Lgr) as (H1 & H2 & H3).
  split_and!; [done | done | done | |].
  - intros g2 H2'. unfold res, checkHints. cbn [snd]. by rewrite H2'.
  - intros text <- Hv Hin Hh. by apply hard_turn.
Qed.

(** X5: in hard mode a guess of the valid format, in the word list, that
    lacks a yellow letter or has another letter in a green slot is rejected:
    the round returns the game as it was. *)
Theorem hard_mode_rejects iter g text :
  hardMode g = true → ranges (yellow (hints_ g)) iter →
  length (green (hints_ g)) = 5%nat →
  valid (guessOf text) = true → guessOf text ∈ validGuesses g →
  (∃ l, l ∈ dom (yellow (hints_ g)) ∧ l ∉ guessOf text) ∨
  (∃ (i : nat) gh, green (hints_ g) !! i = Some gh ∧ gh ≠ emptyRune ∧
                   guessOf text !! i ≠ Some gh) →
  accepts iter g text = false ∧ ∃ out, turn iter g text = Some (g, out).
Proof.
  intros Hh Hr Lgr Hv Hin Hbad.
  destruct (checkHints_cases iter g (guessOf text) Hr (valid_length _ Hv) Lgr)
    as (H1 & H2 & _). cbn zeta in H1, H2.
  assert (He : ∃ e, (checkHints iter g (guessOf text)).2 = Some (Some e)).
  { destruct (missing_or_not iter (yellow (hints_ g)) (guessOf text) Hr) as [Hm|Hm].
    - destruct (H1 Hm) as (l & _ & E). eauto.
    - destruct Hbad as [[l Hl]|Hbad]; [by destruct (Hm l)|].
      destruct (H2 Hm Hbad) as (i & gh & _ & E). eauto. }
  destruct He as [e He]. split.
  - unfold accepts. rewrite Hh, He. cbn [negb orb]. by rewrite andb_false_r.
  - destruct (hard_turn iter g text Hv Hin Hh) as [out Ho]. rewrite He in Ho. eauto.
Qed.

(** ** The scanning loop of [answerForDay] *)


Lemma scanLoop_run n : ∀ fuel i day s,
  day < int_max → int_min ≤ i → Z.of_nat n = day + 1 - i → (n ≤ fuel)%nat →
  scanLoop fuel i day s = Some (scans n s).
Proof.
  induction n as [|n IH]; intros fuel i day s Hd Hi Hn Hf.
  - destruct (Z.leb_spec i day); [lia|].
    destruct fuel; simpl; by destruct (Z.leb_spec i day); try lia.
  - destruct fuel as [|fuel]; [lia|]. simpl.
    destruct (Z.leb_spec i day); [|lia].
    rewrite wrap_id by (unfold int_max in *; unfold int_min in *; lia).
    apply IH; lia.
Qed.



Lemma cutLine_length data : (length (cutLine data).2 ≤ length data)%nat.
Proof.
  induction data as [|c data IH]; simpl; [done|].
  destruct (Ascii.eqb c LF); simpl; [lia|].
  destruct (cutLine data) as [l r]. simpl in *. lia.
Qed.

Lemma Scan_shorter s ok s' :
  Scan s = (ok, s') →
  (ok = false ∧ s' = mkScanner [] []) ∨ (ok = true ∧ (length (src s') < length (src s))%nat).
Proof.
  unfold Scan. destruct (src s) as [|c data] eqn:E.
  - intros [= <- <-]. by left.
  - destruct (cutLine (c :: data)) as [l r] eqn:El. intros [= <- <-]. right.
    split; [done|]. simpl.
    cbn [cutLine] in El. destruct (Ascii.eqb c LF).
    + injection El as <- <-. lia.
    + pose proof (cutLine_length data) as H. destruct (cutLine data) as [l' r'].
      injection El as <- <-. simpl in H. lia.
Qed.

Lemma scans_end n : scans n (mkScanner [] []) = mkScanner [] [].
Proof. induction n; simpl; [done|]. by rewrite IHn. Qed.








(** ** The two answer stores *)

Lemma cutLine_record w rest :
  LF ∉ w → cutLine (w ++ CR :: LF :: rest) = (w ++ [CR], rest).
Proof.
  induction w as [|c w IH]; intros Hn.
  - reflexivity.
  - apply not_elem_of_cons in Hn as [Hc Hw]. cbn [app cutLine].
    destruct (Ascii.eqb_spec c LF) as [->|_]; [done|].
    by rewrite IH.
Qed.

Lemma dropCR_record w : dropCR (w ++ [CR]) = w.
Proof.
  unfold dropCR. rewrite rev_app_distr. simpl. by rewrite rev_involutive.
Qed.

Lemma Scan_record w ws tok :
  LF ∉ w →
  Scan (mkScanner (records (w :: ws)) tok) = (true, mkScanner (records ws) w).
Proof.
  intros Hn. unfold Scan, records. cbn [src fmap list_fmap concat].
  rewrite <- app_assoc. cbn [app].
  destruct (w ++ CR :: LF :: _) as [|c data] eqn:E; [by destruct w|].
  rewrite <- E, cutLine_record by done. by rewrite dropCR_record.
Qed.

Lemma scans_records ws : ∀ k w tok,
  Forall (λ w, LF ∉ w) ws → ws !! k = Some w →
  scans (S k) (mkScanner (records ws) tok) = mkScanner (records (drop (S k) ws)) w.
Proof.
  induction ws as [|w0 ws IH]; intros k w tok Hall Hk; [done|].
  apply Forall_cons in Hall as [H0 Hall].
  cbn [scans]. rewrite Scan_record by done. cbn [snd].
  destruct k as [|k].
  - by injection Hk as ->.
  - simpl in Hk. by apply IH.
Qed.

Lemma records_length ws :
  Forall (λ w, length w = 5%nat) ws → length (records ws) = (7 * length ws)%nat.
Proof.
  induction 1 as [|w ws Hw _ IH]; [done|].
  unfold records in *. cbn [fmap list_fmap concat]. rewrite !length_app. cbn [length].
  rewrite Hw. fold (fmap (λ w, w ++ [CR; LF]) ws). rewrite IH. lia.
Qed.

Lemma drop_records ws : ∀ k,
  Forall (λ w, length w = 5%nat) ws →
  drop (7 * k) (records ws) = records (drop k ws).
Proof.
  induction ws as [|w ws IH]; intros k Hall.
  - rewrite drop_nil. unfold records. simpl. by rewrite drop_nil.
  - apply Forall_cons in Hall as [Hw Hall].
    destruct k as [|k]; [by rewrite Nat.mul_0_r|].
    replace (7 * S k)%nat with (length (w ++ [CR; LF]) + 7 * k)%nat
      by (rewrite length_app; simpl; lia).
    unfold records. cbn [fmap list_fmap concat]. rewrite drop_app_add.
    by apply IH.
Qed.

Lemma valid_letters w c : valid w = true → c ∈ w → isLetter c = true.
Proof.
  unfold valid. intros [_ H]%andb_prop Hc.
  rewrite forallb_forall in H. apply H. by apply list_elem_of_In.
Qed.

Lemma valid_no_LF w : valid w = true → LF ∉ w.
Proof. intros Hv H. by apply (valid_letters _ _ Hv) in H. Qed.

Lemma valid_no_CR w : valid w = true → CR ∉ w.
Proof. intros Hv H. by apply (valid_letters _ _ Hv) in H. Qed.

Lemma cutLine_line w rest : LF ∉ w → cutLine (w ++ LF :: rest) = (w, rest).
Proof.
  induction w as [|c w IH]; intros Hn.
  - reflexivity.
  - apply not_elem_of_cons in Hn as [Hc Hw]. cbn [app cutLine].
    destruct (Ascii.eqb_spec c LF) as [->|_]; [done|].
    by rewrite IH.
Qed.

Lemma dropCR_line w : CR ∉ w → dropCR w = w.
Proof.
  intros Hn. unfold dropCR. destruct (rev w) as [|c l] eqn:E; [done|].
  destruct (Ascii.eqb_spec c CR) as [->|_]; [|done].
  exfalso. apply Hn. rewrite <- (rev_involutive w), E. simpl.
  apply elem_of_app. right. by left.
Qed.

Lemma Scan_line w ws tok :
  LF ∉ w → CR ∉ w →
  Scan (mkScanner (textLines (w :: ws)) tok) = (true, mkScanner (textLines ws) w).
Proof.
  intros Hn Hc. unfold Scan, textLines. cbn [src fmap list_fmap concat].
  rewrite <- app_assoc. cbn [app].
  destruct (w ++ LF :: _) as [|c data] eqn:E; [by destruct w|].
  rewrite <- E, cutLine_line by done. by rewrite dropCR_line.
Qed.

Lemma scans_lines ws : ∀ k w tok,
  Forall (λ w, valid w = true) ws → ws !! k = Some w →
  scans (S k) (mkScanner (textLines ws) tok) = mkScanner (textLines (drop (S k) ws)) w.
Proof.
  induction ws as [|w0 ws IH]; intros k w tok Hall Hk; [done|].
  apply Forall_cons in Hall as [H0 Hall].
  cbn [scans]. rewrite Scan_line by (by apply valid_no_LF || by apply valid_no_CR). cbn [snd].
  destruct k as [|k].
  - by injection Hk as ->.
  - simpl in Hk. by apply IH.
Qed.

(** C7: for a list of five-letter answers, seeking to day * 7 and reading
    five bytes in the fixed-width file (termle.go) and scanning day + 1 lines
    (part_000), in the fixed-width file or in the newline-delimited file,
    return the same answer, the upper-cased answer of that day, for every day
    within the list. *)
Theorem answer_stores_agree ws guesses day :
  Forall (λ w, valid w = true) ws →
  7 * Z.of_nat (length ws) ≤ int_max →
  0 ≤ day < Z.of_nat (length ws) →
  ∃ w, ws !! Z.to_nat day = Some w ∧
       TermleGo.answerForDay (records ws) day = Some (ToUpper w) ∧
       ∀ fuel, (Z.to_nat (day + 1) ≤ fuel)%nat →
         answerForDay fuel (mkFS guesses (records ws)) day = Some (ToUpper w) ∧
         answerForDay fuel (mkFS guesses (textLines ws)) day = Some (ToUpper w).
Proof.
  intros Hall Hmax Hday.
  assert (H5 : Forall (λ w, length w = 5%nat) ws)
    by (apply (Forall_impl _ _ _ Hall); intros x Hx; by apply valid_length).
  assert (Hlf : Forall (λ w, LF ∉ w) ws)
    by (apply (Forall_impl _ _ _ Hall); intros x Hx; by apply valid_no_LF).
  destruct (lookup_lt_is_Some_2 ws (Z.to_nat day)) as [w Hw]; [lia|].
  exists w. split; [done|]. split.
  - unfold TermleGo.answerForDay, Seek, Read.
    rewrite records_length by done.
    rewrite wrap_id by (unfold int_min, int_max in *; lia).
    destruct (Z.ltb_spec (day * 7) 0); [lia|].
    destruct (Z.ltb_spec (Z.of_nat (7 * length ws)) (day * 7)); [lia|].
    cbn [orb mbind option_bind].
    destruct (Z.leb_spec (Z.of_nat (7 * length ws)) (day * 7)); [lia|].
    cbn [mbind option_bind]. do 2 f_equal.
    replace (Z.to_nat (day * 7)) with (7 * Z.to_nat day)%nat by lia.
    rewrite drop_records by done.
    rewrite (drop_S _ _ _ Hw). unfold records. cbn [fmap list_fmap concat].
    rewrite <- !app_assoc.
    apply take_app_length'. by eapply Forall_lookup_1 in H5.
  - intros fuel Hf. unfold answerForDay. cbn [answers_txt].
    rewrite !(scanLoop_run (Z.to_nat (day + 1))) by (first [done | unfold int_min; lia | lia]).
    cbn [mbind option_bind].
    replace (Z.to_nat (day + 1)) with (S (Z.to_nat day)) by lia.
    unfold NewScanner.
    by rewrite (scans_records ws _ w), (scans_lines ws _ w).
Qed.


(** [answer_stores_agree] at day 1 of a list of two answers. *)
Lemma answer_stores_agree_witness :
  ∃ w, two_answers !! Z.to_nat 1 = Some w ∧
       TermleGo.answerForDay (records two_answers) 1 = Some (ToUpper w) ∧
       ∀ fuel, (Z.to_nat (1 + 1) ≤ fuel)%nat →
         answerForDay fuel (mkFS [] (records two_answers)) 1 = Some (ToUpper w) ∧
         answerForDay fuel (mkFS [] (textLines two_answers)) 1 = Some (ToUpper w).
Proof.
  apply (answer_stores_agree two_answers [] 1).
  - repeat constructor.
  - by vm_compute.
  - by vm_compute.
Defined.

(** ** Letter counts and the duplicate-letter rule *)

(** The counts of a string or a row with one more element unfold into tests
    [decide] on that element; this settles each case by arithmetic or by a
    contradiction between the tests. *)
Ltac count_cases :=
  repeat case_decide; destruct_and?; subst; try congruence;
  first [lia | exfalso; intuition congruence].

Lemma at0_empty c : at0 ∅ c = 0.
Proof. unfold at0. by rewrite lookup_empty. Qed.

Lemma at0_incr f r c :
  at0 f r < int_max → int_min ≤ at0 f r →
  at0 (incr f r) c = if decide (c = r) then at0 f c + 1 else at0 f c.
Proof.
  intros H1 H2. unfold incr, at0 at 1. destruct (decide (c = r)) as [->|Hne].
  - rewrite lookup_insert_eq. simpl. apply wrap_id. lia.
  - by rewrite lookup_insert_ne.
Qed.

Lemma at0_decr f r c :
  int_min < at0 f r → at0 f r ≤ int_max →
  at0 (decr f r) c = if decide (c = r) then at0 f c - 1 else at0 f c.
Proof.
  intros H1 H2. unfold decr, at0 at 1. destruct (decide (c = r)) as [->|Hne].
  - rewrite lookup_insert_eq. simpl. apply wrap_id. lia.
  - by rewrite lookup_insert_ne.
Qed.

Lemma count_cons c x s :
  count c (x :: s) = (if decide (x = c) then S (count c s) else count c s).
Proof. unfold count. rewrite filter_cons. by destruct (decide (x = c)). Qed.

Lemma at0_counted s : ∀ f c,
  (∀ x, 0 ≤ at0 f x ∧ at0 f x + Z.of_nat (length s) ≤ int_max) →
  at0 (foldl incr f s) c = at0 f c + Z.of_nat (count c s).
Proof.
  induction s as [|r s IH]; intros f c Hf.
  - simpl. unfold count. simpl. lia.
  - cbn [foldl]. simpl length in Hf.
    assert (Hstep : ∀ x, at0 (incr f r) x = if decide (x = r) then at0 f x + 1 else at0 f x).
    { intros x. apply at0_incr; destruct (Hf r); unfold int_min; lia. }
    rewrite IH.
    + rewrite Hstep, count_cons.
      destruct (decide (c = r)) as [->|Hne].
      * rewrite decide_True by done. lia.
      * rewrite decide_False by done. lia.
    + intros x. rewrite Hstep. destruct (Hf x). destruct (decide (x = r)); lia.
Qed.

Lemma matched_cons c r a rs ans :
  matched c (r :: rs) (a :: ans) =
    (if decide (r = c ∧ a = c) then S (matched c rs ans) else matched c rs ans).
Proof. unfold matched. simpl. rewrite filter_cons. simpl. by destruct (decide _). Qed.

Lemma unmatched_cons c r a rs ans :
  unmatched c (r :: rs) (a :: ans) =
    (if decide (r = c ∧ a ≠ c) then S (unmatched c rs ans) else unmatched c rs ans).
Proof. unfold unmatched. simpl. rewrite filter_cons. simpl. by destruct (decide _). Qed.

Lemma marked_cons c r x rs cs :
  marked c (r :: rs) (x :: cs) =
    (if decide (r = c ∧ x ≠ blackSquare) then S (marked c rs cs) else marked c rs cs).
Proof. unfold marked. simpl. rewrite filter_cons. simpl. by destruct (decide _). Qed.

Lemma matched_le_count c rs : ∀ ans, (matched c rs ans ≤ count c ans)%nat.
Proof.
  induction rs as [|r rs IH]; intros [|a ans]; try (unfold matched; simpl; lia).
  rewrite matched_cons, count_cons. specialize (IH ans).
  destruct (decide (r = c ∧ a = c)) as [[_ ->]|Hn].
  - rewrite decide_True by done. lia.
  - destruct (decide (a = c)); lia.
Qed.

Lemma small_le f n m : (m ≤ n)%nat → small f n → small f m.
Proof. intros Hm H c. specialize (H c). lia. Qed.

Lemma small_decr f r n : small f (S n) → small (decr f r) n.
Proof.
  intros H c. rewrite at0_decr by (specialize (H r); lia).
  specialize (H c). destruct (decide (c = r)); lia.
Qed.

Lemma at0_freqs1 rs : ∀ ans f c,
  small f (length rs) →
  at0 (freqs1 rs ans f) c = at0 f c - Z.of_nat (matched c rs ans).
Proof.
  induction rs as [|r rs IH]; intros [|a ans] f c Hf; try (unfold matched; simpl; lia).
  cbn [freqs1]. rewrite matched_cons. simpl length in Hf.
  destruct (Ascii.eqb_spec a r) as [->|Hne].
  - rewrite IH by (by apply small_decr).
    rewrite at0_decr by (specialize (Hf r); lia).
    destruct (decide (c = r)) as [->|Hc].
    + rewrite decide_True by done. lia.
    + rewrite decide_False by (intros [? ?]; congruence). lia.
  - rewrite IH by (eapply small_le; [|done]; lia).
    rewrite decide_False by (intros [? ?]; congruence). lia.
Qed.

Lemma small_freqs1 rs : ∀ ans f n,
  small f (length rs + n) → small (freqs1 rs ans f) n.
Proof.
  induction rs as [|r rs IH]; intros [|a ans] f n Hf; cbn [freqs1];
    try (eapply small_le; [|done]; simpl; lia).
  simpl length in Hf. destruct (Ascii.eqb a r).
  - apply IH. by apply small_decr.
  - apply IH. eapply small_le; [|done]. lia.
Qed.

Lemma ContainsRune_elem s r : ContainsRune s r = true ↔ r ∈ s.
Proof.
  unfold ContainsRune. rewrite existsb_exists. split.
  - intros (x & Hx & ->%Ascii.eqb_eq). by apply list_elem_of_In.
  - intros H. exists r. split; [by apply list_elem_of_In | apply Ascii.eqb_refl].
Qed.

Lemma count_pos c s : (0 < count c s)%nat ↔ c ∈ s.
Proof.
  induction s as [|x s IH].
  - unfold count. simpl. split; [lia | by intros ?%elem_of_nil].
  - rewrite count_cons, elem_of_cons. destruct (decide (x = c)) as [->|Hne].
    + split; [auto | lia].
    + rewrite IH. split; [auto | by intros [->|?]].
Qed.

(** The second loop against a fixed answer. *)
Section Budget.
Context (answer : list ascii).

Lemma room_true a r f :
  room answer a r f = true ↔ a ≠ r ∧ r ∈ answer ∧ 0 < at0 f r.
Proof.
  unfold room. rewrite !andb_true_iff, negb_true_iff, ContainsRune_elem, Z.ltb_lt.
  rewrite Ascii.eqb_neq. tauto.
Qed.

Lemma marked_bound c rs : ∀ ans row f,
  length row = length rs → (length rs ≤ length ans)%nat →
  Forall (λ x, color x = blackSquare) row → small f (length rs) →
  Z.of_nat (marked c rs (color <$> cells2 answer rs ans (cells1 rs ans row) f))
    ≤ Z.of_nat (matched c rs ans) + Z.max 0 (at0 f c).
Proof.
  pose proof square_distinct as (Hgy & Hgb & Hyb).
  induction rs as [|r rs IH]; intros ans row f Lr La Hb Hf.
  - unfold marked, matched. simpl. lia.
  - destruct ans as [|a ans]; [simpl in La; lia|].
    destruct row as [|x row]; [done|].
    apply Forall_cons in Hb as [Hx Hb]. simpl in Lr, La, Hf.
    cbn [cells1 cells2]. rewrite matched_cons.
    destruct (room answer a r f) eqn:E.
    + apply room_true in E as (Har & Hin & Hpos).
      rewrite fmap_cons, marked_cons. cbn [color].
      pose proof (IH ans row (decr f r) ltac:(lia) ltac:(lia) Hb (small_decr _ _ _ Hf)) as IH'.
      rewrite at0_decr in IH' by (specialize (Hf r); lia).
      count_cases.
    + rewrite fmap_cons, marked_cons. cbn [color].
      pose proof (IH ans row f ltac:(lia) ltac:(lia) Hb
                   (small_le f (S (length rs)) (length rs) ltac:(lia) Hf)) as IH'.
      destruct (Ascii.eqb_spec a r) as [->|Hne]; rewrite ?Hx;
        count_cases.
Qed.

Lemma colours_pointwise rs : ∀ ans row f i,
  length row = length rs → (length rs ≤ length ans)%nat →
  Forall (λ x, color x = blackSquare) row → small f (length rs) →
  let cs := color <$> cells2 answer rs ans (cells1 rs ans row) f in
  (cs !! i = Some greenSquare ↔ ∃ r, rs !! i = Some r ∧ ans !! i = Some r) ∧
  (cs !! i = Some yellowSquare ↔
     ∃ r a, rs !! i = Some r ∧ ans !! i = Some a ∧ a ≠ r ∧ r ∈ answer ∧
            Z.of_nat (unmatched r (take i rs) (take i ans)) < at0 f r).
Proof.
  pose proof square_distinct as (Hgy & Hgb & Hyb).
  induction rs as [|r0 rs IH]; intros ans row f i Lr La Hb Hf cs.
  - destruct row; [|done]. subst cs. cbn [cells1 cells2 fmap list_fmap].
    split.
    + split; [by rewrite lookup_nil | intros (r & H & _); by rewrite lookup_nil in H].
    + split; [by rewrite lookup_nil | intros (r & a & H & _); by rewrite lookup_nil in H].
  - destruct ans as [|a0 ans]; [simpl in La; lia|].
    destruct row as [|x row]; [done|].
    apply Forall_cons in Hb as [Hx Hb]. simpl in Lr, La, Hf.
    subst cs. cbn [cells1 cells2].
    destruct (room answer a0 r0 f) eqn:E.
    + pose proof E as (Har & Hin & Hpos)%room_true.
      rewrite fmap_cons. cbn [color].
      destruct i as [|i].
      * simpl. split.
        -- split; [congruence|]. intros (r & [= <-] & [= ->]). done.
        -- split; [|done]. intros _. exists r0, a0. unfold unmatched. simpl.
           by split_and!.
      * destruct (IH ans row (decr f r0) i ltac:(lia) ltac:(lia) Hb (small_decr _ _ _ Hf))
          as [IHg IHy].
        cbn [lookup list_lookup take]. split; [done|].
        rewrite IHy. split.
        -- intros (r & a & Hr & Ha & Hne & Hra & Hlt). exists r, a.
           split_and!; try done. rewrite unmatched_cons.
           rewrite at0_decr in Hlt by (specialize (Hf r0); lia).
           count_cases.
        -- intros (r & a & Hr & Ha & Hne & Hra & Hlt). exists r, a.
           split_and!; try done. rewrite unmatched_cons in Hlt.
           rewrite at0_decr by (specialize (Hf r0); lia).
           count_cases.
    + rewrite fmap_cons. cbn [color].
      destruct i as [|i].
      * simpl. split.
        -- destruct (Ascii.eqb_spec a0 r0) as [->|Hne].
           ++ split; [eauto | done].
           ++ rewrite Hx. split; [congruence|]. intros (r & [= <-] & [= ->]). done.
        -- split.
           ++ destruct (Ascii.eqb a0 r0); rewrite ?Hx; congruence.
           ++ intros (r & a & [= <-] & [= <-] & Hne & Hra & Hlt).
              unfold unmatched in Hlt. simpl in Hlt.
              assert (room answer a0 r0 f = true) by (apply room_true; split_and!; [done..|lia]).
              congruence.
      * destruct (IH ans row f i ltac:(lia) ltac:(lia) Hb
                    (small_le f (S (length rs)) (length rs) ltac:(lia) Hf)) as [IHg IHy].
        cbn [lookup list_lookup take]. split; [done|].
        rewrite IHy. split.
        -- intros (r & a & Hr & Ha & Hne & Hra & Hlt). exists r, a.
           split_and!; try done. rewrite unmatched_cons.
           case_decide as Hd; [|done]. destruct Hd as [-> Hd].
           assert (room answer a0 r f = true) by (apply room_true; split_and!; [done..|lia]).
           congruence.
        -- intros (r & a & Hr & Ha & Hne & Hra & Hlt). exists r, a.
           split_and!; try done. rewrite unmatched_cons in Hlt.
           case_decide; lia.
Qed.

Lemma count_le_length c s : (count c s ≤ length s)%nat.
Proof. unfold count. apply length_filter. Qed.

Lemma black_three row :
  Forall (λ x, color x = blackSquare) row →
  Forall (λ x, x = greenSquare ∨ x = yellowSquare ∨ x = blackSquare) (color <$> row).
Proof.
  induction 1 as [|x row Hx _ IH]; [by constructor|].
  rewrite fmap_cons. constructor; auto.
Qed.

Lemma colours_three rs : ∀ ans row f,
  Forall (λ x, color x = blackSquare) row →
  Forall (λ x, x = greenSquare ∨ x = yellowSquare ∨ x = blackSquare)
         (color <$> cells2 answer rs ans (cells1 rs ans row) f).
Proof.
  induction rs as [|r rs IH]; intros ans row f Hb.
  - destruct ans, row; cbn [cells1 cells2]; by apply black_three.
  - destruct ans as [|a ans], row as [|x row]; cbn [cells1 cells2];
      try (by apply black_three).
    apply Forall_cons in Hb as [Hx Hb].
    destruct (room answer a r f); rewrite fmap_cons; cbn [color];
      (apply Forall_cons; split; [|by apply IH]); auto.
    destruct (Ascii.eqb a r); auto.
Qed.

End Budget.

Lemma freq_of_answer answer c :
  Z.of_nat (length answer) ≤ 5 →
  at0 (foldl incr ∅ answer) c = Z.of_nat (count c answer) ∧
  small (foldl incr ∅ answer) 10.
Proof.
  intros L.
  assert (H : ∀ x, at0 (foldl incr ∅ answer) x = Z.of_nat (count x answer)).
  { intros x. rewrite at0_counted.
    - rewrite at0_empty. lia.
    - intros y. rewrite at0_empty. unfold int_max. lia. }
  split; [done|]. intros x. rewrite H. pose proof (count_le_length x answer).
  unfold int_min, int_max. lia.
Qed.

(** X1: the duplicate-letter rule of [game.addGuess].  On a five-letter
    answer every cell is green, yellow or black; for each letter the cells
    that hold it and are not black are at most its occurrences in the answer;
    a cell is green exactly when the answer has the same letter there; and a
    cell is yellow exactly when it is not green and the green cells of its
    letter, in the whole row, plus the earlier cells of that letter that are
    not green, are fewer than the occurrences of the letter in the answer. *)
Theorem two_pass_rule g guess :
  fresh g → valid guess = true → length (answer g) = 5%nat →
  ∃ cs, evaluation g guess = Some cs ∧ length cs = 5%nat ∧
    Forall (λ x, x = greenSquare ∨ x = yellowSquare ∨ x = blackSquare) cs ∧
    (∀ c, (marked c guess cs ≤ count c (answer g))%nat) ∧
    (∀ i r, guess !! i = Some r →
       (cs !! i = Some greenSquare ↔ answer g !! i = Some r) ∧
       (cs !! i = Some yellowSquare ↔
          answer g !! i ≠ Some r ∧
          (matched r guess (answer g) +
           unmatched r (take i guess) (take i (answer g)) < count r (answer g))%nat)).
Proof.
  intros Hf Hv La. pose proof (valid_length _ Hv) as Lg.
  exists (color <$> scored (answer g) guess).
  assert (Hblank : Forall (λ x, color x = blackSquare) (replicate 5 blank))
    by (by apply Forall_replicate).
  assert (Hf0 : ∀ c, at0 (foldl incr ∅ (answer g)) c = Z.of_nat (count c (answer g)))
    by (intros c; apply freq_of_answer; lia).
  assert (Hs0 : small (foldl incr ∅ (answer g)) 10)
    by (apply (freq_of_answer _ "a"%char); lia).
  assert (Hf1 : ∀ c, at0 (freqs1 guess (answer g) (foldl incr ∅ (answer g))) c =
                     Z.of_nat (count c (answer g)) - Z.of_nat (matched c guess (answer g))).
  { intros c. rewrite at0_freqs1, Hf0; [done|]. eapply small_le; [|done]. lia. }
  assert (Hs1 : small (freqs1 guess (answer g) (foldl incr ∅ (answer g))) (length guess)).
  { apply small_freqs1. eapply small_le; [|done]. lia. }
  split_and!.
  - apply evaluation_fresh; [done | lia | lia].
  - unfold scored. by rewrite length_fmap, cells2_length, cells1_length, length_replicate.
  - by apply colours_three.
  - intros c. unfold scored.
    pose proof (marked_bound (answer g) c guess (answer g) (replicate 5 blank) _
                  ltac:(by rewrite length_replicate) ltac:(lia) Hblank Hs1) as Hm.
    rewrite Hf1 in Hm. pose proof (matched_le_count c guess (answer g)). lia.
  - intros i r Hr. unfold scored.
    destruct (colours_pointwise (answer g) guess (answer g) (replicate 5 blank) _ i
                ltac:(by rewrite length_replicate) ltac:(lia) Hblank Hs1) as [Hg Hy].
    split.
    + rewrite Hg. split.
      * intros (r' & Hr' & Ha). congruence.
      * intros Ha. by exists r.
    + rewrite Hy. split.
      * intros (r' & a & Hr' & Ha & Hne & Hin & Hlt).
        assert (r' = r) as -> by congruence. rewrite Hf1 in Hlt.
        split; [congruence | lia].
      * intros [Hne Hlt].
        destruct (lookup_lt_is_Some_2 (answer g) i) as [a Ha].
        { apply lookup_lt_Some in Hr. lia. }
        exists r, a. split_and!; [done | done | congruence | | rewrite Hf1; lia].
        apply count_pos. lia.
Qed.

(** ** The hints, and the progress of the game *)

Lemma greens1_truth rs : ∀ ans gs,
  (∀ (i : nat) gh, gs !! i = Some gh → gh ≠ emptyRune → ans !! i = Some gh) →
  ∀ (i : nat) gh, greens1 rs ans gs !! i = Some gh → gh ≠ emptyRune → ans !! i = Some gh.
Proof.
  induction rs as [|r rs IH]; intros ans gs H i gh; [by apply H|].
  destruct ans as [|a ans], gs as [|x gs]; cbn [greens1]; try by apply H.
  destruct i as [|i]; cbn [lookup list_lookup].
  - destruct (Ascii.eqb_spec a r) as [->|_]; [congruence|]. apply (H 0%nat).
  - apply IH. intros j y. apply (H (S j)).
Qed.

Lemma yellows2_dom answer rs : ∀ ans y f l,
  l ∈ dom (yellows2 answer rs ans y f) → l ∈ dom y ∨ l ∈ answer.
Proof.
  induction rs as [|r rs IH]; intros ans y f l; [by left|].
  destruct ans as [|a ans]; cbn [yellows2]; [by left|].
  destruct (room answer a r f) eqn:E.
  - intros [H|H]%IH; [|by right].
    apply dom_insert in H. apply elem_of_union in H as [->%elem_of_singleton|H]; [|by left].
    right. by apply room_true in E as (_ & ? & _).
  - apply IH.
Qed.

Lemma truthful_played g guess : truthful g → truthful (played g guess).
Proof.
  intros [Hg Hy]. split; unfold played; cbn [hints_ green yellow answer].
  - by apply greens1_truth.
  - intros l [H|H]%yellows2_dom; [by apply Hy | done].
Qed.

Lemma newGame_truthful fuel fs day hard g : newGame fuel fs day hard = Some g → truthful g.
Proof.
  intros H. apply newGame_answer in H as (_ & _ & _ & _ & _ & _ & Hh & _).
  split; rewrite Hh; cbn [green yellow].
  - intros i gh Hi%lookup_replicate_1. by destruct Hi as [-> _].
  - intros l. by rewrite dom_empty, elem_of_empty.
Qed.

Lemma reachable_truthful g0 g :
  inv g0 → truthful g0 → reachable g0 g → truthful g ∧ answer g = answer g0.
Proof.
  intros Hi H0 Hr. induction Hr as [|g iter text g' out Hr IH Hc _ Ht]; [done|].
  destruct IH as [IHt IHa]. pose proof (reachable_inv _ _ Hi Hr) as Hig.
  destruct (accepts iter g text) eqn:Ha.
  - rewrite (turn_played _ _ _ _ _ Hig Hc Ha Ht). split; [by apply truthful_played | done].
  - by rewrite (rejects_turn _ _ _ _ _ Ha Ht).
Qed.

(** X4: in every state the loop of [main] reaches from the new game, the
    answer is the one the game started with, every green slot that is set
    holds the answer's letter at its position, and every yellow letter occurs
    in the answer. *)
Theorem hints_tell_the_truth fuel fs day hard g0 g :
  newGame fuel fs day hard = Some g0 → reachable g0 g →
  answer g = answer g0 ∧
  (∀ (i : nat) gh, green (hints_ g) !! i = Some gh → gh ≠ emptyRune →
                   answer g !! i = Some gh) ∧
  (∀ l, l ∈ dom (yellow (hints_ g)) → l ∈ answer g).
Proof.
  intros Hn Hr.
  destruct (reachable_truthful g0 g (newGame_inv _ _ _ _ _ Hn) (newGame_truthful _ _ _ _ _ Hn) Hr)
    as [[H1 H2] H3].
  done.
Qed.

(** X3: with a five-letter answer, a round of the loop that accepts its line
    never panics: it returns the game [addGuess] leaves. *)
Theorem accepted_line_is_played fuel fs day hard g0 g iter text :
  newGame fuel fs day hard = Some g0 → length (answer g0) = 5%nat →
  reachable g0 g → complete g = false → accepts iter g text = true →
  ∃ out, turn iter g text = Some (played g (guessOf text), out).
Proof.
  intros Hn L5 Hr Hc Ha.
  pose proof (newGame_inv _ _ _ _ _ Hn) as Hi0.
  pose proof (reachable_inv _ _ Hi0 Hr) as Hi.
  destruct (reachable_truthful g0 g Hi0 (newGame_truthful _ _ _ _ _ Hn) Hr) as [_ Hans].
  destruct (accepts_turn _ _ _ Ha) as [o Ho]. rewrite Ho.
  assert (Hv : valid (guessOf text) = true).
  { unfold accepts in Ha. by apply andb_prop in Ha as [[? _]%andb_prop _]. }
  rewrite addGuess_fresh.
  - cbn [mbind option_bind]. eauto.
  - by apply inv_fresh.
  - rewrite (valid_length _ Hv). lia.
  - rewrite (valid_length _ Hv), Hans, L5. lia.
Qed.

Lemma greens1_pointwise rs : ∀ ans gs (i : nat),
  (length rs ≤ length gs)%nat →
  greens1 rs ans gs !! i =
    match rs !! i, ans !! i with
    | Some r, Some a => if Ascii.eqb a r then Some r else gs !! i
    | _, _ => gs !! i
    end.
Proof.
  induction rs as [|r rs IH]; intros ans gs i L.
  - by rewrite lookup_nil.
  - destruct gs as [|x gs]; [simpl in L; lia|]. simpl in L.
    destruct ans as [|a ans]; cbn [greens1].
    + rewrite lookup_nil. by destruct ((r :: rs) !! i).
    + destruct i as [|i]; cbn [lookup list_lookup].
      * by destruct (Ascii.eqb a r).
      * apply IH. lia.
Qed.

Lemma yellows2_recorded answer rs : ∀ ans row y f l,
  length row = length rs → (length rs ≤ length ans)%nat →
  Forall (λ x, color x = blackSquare) row →
  l ∈ dom (yellows2 answer rs ans y f) ↔
  l ∈ dom y ∨
  ∃ i : nat, rs !! i = Some l ∧
     (color <$> cells2 answer rs ans (cells1 rs ans row) f) !! i = Some yellowSquare.
Proof.
  pose proof square_distinct as (Hgy & Hgb & Hyb).
  induction rs as [|r rs IH]; intros ans row y f l Lr La Hb.
  - cbn [yellows2]. split; [by left|]. intros [H|(i & H & _)]; [done|].
    by rewrite lookup_nil in H.
  - destruct ans as [|a ans]; [simpl in La; lia|].
    destruct row as [|x row]; [done|].
    apply Forall_cons in Hb as [Hx Hb]. simpl in Lr, La.
    cbn [yellows2 cells1 cells2].
    destruct (room answer a r f) eqn:E.
    + rewrite (IH ans row) by (first [done | lia]).
      rewrite dom_insert, elem_of_union, elem_of_singleton, fmap_cons. cbn [color].
      split.
      * intros [[->|H]|(i & Hi & Hc)].
        -- right. by exists 0%nat.
        -- by left.
        -- right. by exists (S i).
      * intros [H|(i & Hi & Hc)]; [by left; right|].
        destruct i as [|i].
        -- left. left. simpl in Hi. congruence.
        -- right. by exists i.
    + rewrite (IH ans row) by (first [done | lia]).
      rewrite fmap_cons. cbn [color].
      split.
      * intros [H|(i & Hi & Hc)]; [by left|]. right. by exists (S i).
      * intros [H|(i & Hi & Hc)]; [by left|].
        destruct i as [|i].
        -- exfalso. simpl in Hc. destruct (Ascii.eqb a r); congruence.
        -- right. by exists i.
Qed.

(** X6: what [addGuess] records in the hints.  A green slot takes the letter
    of the guess at every position marked correct and keeps its content at
    every other position; the yellow letters after the guess are the yellow
    letters before it and the letters of the positions marked present. *)
Theorem hints_are_recorded g guess :
  fresh g → valid guess = true → length (answer g) = 5%nat →
  ∃ g' cs, addGuess g guess = Some g' ∧ evaluation g guess = Some cs ∧
    (∀ (i : nat) r, guess !! i = Some r → cs !! i = Some greenSquare →
                    green (hints_ g') !! i = Some r) ∧
    (∀ i : nat, cs !! i ≠ Some greenSquare →
                green (hints_ g') !! i = green (hints_ g) !! i) ∧
    (∀ l, l ∈ dom (yellow (hints_ g')) ↔
          l ∈ dom (yellow (hints_ g)) ∨
          ∃ i : nat, guess !! i = Some l ∧ cs !! i = Some yellowSquare).
Proof.
  intros Hf Hv La. pose proof (valid_length _ Hv) as Lg.
  pose proof Hf as (Hct & Hrow & Hgr).
  exists (played g guess), (color <$> scored (answer g) guess).
  assert (Hblank : Forall (λ x, color x = blackSquare) (replicate 5 blank))
    by (by apply Forall_replicate).
  assert (Hs1 : small (freqs1 guess (answer g) (foldl incr ∅ (answer g))) (length guess)).
  { apply small_freqs1. eapply small_le; [|apply (freq_of_answer _ "a"%char); lia]. lia. }
  assert (Hgreen : ∀ (i : nat), (color <$> scored (answer g) guess) !! i = Some greenSquare ↔
                     ∃ r, guess !! i = Some r ∧ answer g !! i = Some r).
  { intros i. unfold scored.
    by destruct (colours_pointwise (answer g) guess (answer g) (replicate 5 blank) _ i
                   ltac:(by rewrite length_replicate) ltac:(lia) Hblank Hs1) as [Hg _]. }
  split_and!.
  - apply addGuess_fresh; [done | lia | lia].
  - apply evaluation_fresh; [done | lia | lia].
  - intros i r Hr Hc. apply Hgreen in Hc as (r' & Hr' & Ha).
    unfold played; cbn [hints_ green]. rewrite greens1_pointwise by lia.
    rewrite Hr', Ha, Ascii.eqb_refl. congruence.
  - intros i Hc. unfold played; cbn [hints_ green]. rewrite greens1_pointwise by lia.
    destruct (guess !! i) as [r|] eqn:Hr; [|done].
    destruct (answer g !! i) as [a|] eqn:Ha; [|done].
    destruct (Ascii.eqb_spec a r) as [->|_]; [|done].
    exfalso. apply Hc, Hgreen. eauto.
  - intros l. unfold played, scored; cbn [hints_ yellow].
    apply yellows2_recorded; [by rewrite length_replicate | lia | done].
Qed.


(** ** The single-pass board, and the default day *)

(** C1, at its failing input: [board.addGuess] of termle.go colours a letter
    yellow whenever the answer contains it, with no count of what is left.
    For the answer ALLOT and the guess LLAMA both A are yellow, and ALLOT has
    one A. *)
Theorem single_pass_marks_twice :
  TermleGo.addGuess TermleGo.newBoard 0 (bytes "LLAMA") (bytes "ALLOT") =
    Some (<[0%nat := [TermleGo.yellow (bytes "L"); TermleGo.green (bytes "L");
                      TermleGo.yellow (bytes "A"); TermleGo.black (bytes "M");
                      TermleGo.yellow (bytes "A")]]> TermleGo.newBoard) ∧
  count "A"%char (bytes "ALLOT") = 1%nat.
Proof. split; reflexivity. Qed.

Lemma exactDays_spec n : ∀ k j,
  exactDays n k = true → k ≤ j < k + Z.of_nat n → daysOf (wholeDays j) = j.
Proof.
  induction n as [|n IH]; intros k j H Hj; [lia|].
  cbn [exactDays] in H. apply andb_prop in H as [H1 H2].
  destruct (decide (j = k)) as [->|Hne].
  - by apply Z.eqb_eq.
  - apply (IH (k + 1)); [done | lia].
Qed.

Lemma daysOf_answer_days j : 0 ≤ j < totalWordles → daysOf (wholeDays j) = j.
Proof.
  intros Hj. apply (exactDays_spec 2315 0); [by vm_compute | unfold totalWordles in Hj; lia].
Qed.

Lemma default_day_exact now offset y m d :
  Date now offset = (y, m, d) →
  0 ≤ days_from_civil y m d - days_from_civil 2021 6 19 < totalWordles →
  daysSinceFirstWordle now offset = days_from_civil y m d - days_from_civil 2021 6 19.
Proof.
  intros HD Hk. unfold daysSinceFirstWordle. rewrite HD.
  fold (daysOf (Sub (DateUTC y m d) firstDay)).
  replace (Sub (DateUTC y m d) firstDay)
    with (wholeDays (days_from_civil y m d - days_from_civil 2021 6 19)).
  - by apply daysOf_answer_days.
  - unfold Sub, firstDay, wholeDays, Second. unfold DateUTC. cbn [unixSec nsec].
    change (days_from_civil 2021 6 19) with 18797 in *.
    set (D := days_from_civil y m d) in *. clearbody D.
    unfold totalWordles, int_max, int_min in *.
    change (10 ^ 9) with 1000000000. change (2 ^ 63) with 9223372036854775808.
    repeat match goal with |- context [Z.ltb ?a ?b] => destruct (Z.ltb_spec a b) end; lia.
Qed.

Lemma june_20_utc now :
  1624147200 ≤ unixSec now < 1624233600 → Date now 0 = (2021, 6, 20).
Proof.
  intros H. unfold Date.
  replace ((unixSec now + 0) / 86400) with 18798; [reflexivity|].
  apply Z.div_unique with (unixSec now - 18798 * 86400); lia.
Qed.

(** X2: at any instant of 2021-06-20 (UTC), in the zone UTC,
    [daysSinceFirstWordle] is 1. *)
Theorem june_20_is_day_one now :
  1624147200 ≤ unixSec now < 1624233600 → daysSinceFirstWordle now 0 = 1.
Proof.
  intros H. rewrite (default_day_exact now 0 2021 6 20).
  - reflexivity.
  - by apply june_20_utc.
  - by vm_compute.
Qed.

(** The date is the one of the local clock: at 2021-06-20T23:30:00Z in a zone
    one hour east of UTC it is already June 21, and the day is 2. *)
Example default_day_follows_local_date :
  Date (mkTime 1624231800 0) 0 = (2021, 6, 20) ∧
  Date (mkTime 1624231800 0) 3600 = (2021, 6, 21) ∧
  daysSinceFirstWordle (mkTime 1624231800 0) 3600 = 2.
Proof. split_and!; by vm_compute. Qed.

(** C3, at its failing input: at noon of 2021-06-20 (UTC) [currentDay] of
    termle.go is 0, one less than the whole days since the first day;
    [daysSinceFirstWordle] is 1 there. *)
Theorem current_day_is_one_behind :
  Date june20_noon 0 = (2021, 6, 20) ∧
  TermleGo.currentDay june20_noon = 0 ∧
  daysSinceFirstWordle june20_noon 0 = 1.
Proof. split_and!; by vm_compute. Qed.

(** ** The theorems at concrete games, files and instants *)

Example hard_game_after_trace_played :
  turn [] hard_game trace = Some (hard_game_after_trace, (checkHints [] hard_game (bytes "TRACE")).1 ++ printTurn hard_game_after_trace).
Proof. by vm_compute. Qed.

Example hard_game_after_trace_hints :
  hints_ hard_game_after_trace =
    mkHints (insert "C"%char true ∅) [emptyRune; "R"%char; "A"%char; emptyRune; "E"%char].
Proof. by vm_compute. Qed.

Lemma hard_mode_validation_witness :
  (∃ l, (l ∉ bytes "LLAMA") ∧
        (checkHints ["C"%char] hard_game_after_trace (bytes "LLAMA")).2 =
          Some (Some (MustContain l))) ∧
  ∃ out, turn ["C"%char] hard_game_after_trace (bytes "CRANE") =
           (g' ← addGuess hard_game_after_trace (bytes "CRANE"); Some (g', out g')).
Proof.
  split.
  - destruct (hard_mode_validation ["C"%char] hard_game_after_trace (bytes "LLAMA"))
      as (H & _); [by vm_compute | reflexivity | reflexivity |].
    destruct H as (l & [_ Hl] & Hr).
    + exists "C"%char. split; [by vm_compute|]. by apply (bool_decide_unpack _).
    + by exists l.
  - destruct (hard_mode_validation ["C"%char] hard_game_after_trace (bytes "CRANE"))
      as (_ & _ & _ & _ & H); [by vm_compute | reflexivity | reflexivity |].
    destruct (H (bytes "CRANE")) as [out Ho];
      [reflexivity | reflexivity | by apply (bool_decide_unpack _) | reflexivity |].
    exists out. rewrite Ho. by vm_compute.
Defined.


Lemma guess_equal_answer_all_correct_witness :
  evaluation crane_game (bytes "CRANE") = Some (replicate 5 greenSquare) ∧
  ∃ bd', TermleGo.addGuess TermleGo.newBoard 0 (bytes "CRANE") (bytes "CRANE") = Some bd' ∧
         bd' !! Z.to_nat 0 =
           Some ((λ c, TermleGo.green (string_of_rune c)) <$> bytes "CRANE").
Proof.
  apply (guess_equal_answer_all_correct crane_game TermleGo.newBoard 0
           (replicate 5 (TermleGo.black (bytes "_"))) (bytes "CRANE")).
  - repeat split; simpl; first [lia | reflexivity].
  - reflexivity.
  - reflexivity.
  - lia.
  - reflexivity.
  - reflexivity.
Defined.

Lemma turns_sum_to_six_witness :
  currentTurn (played crane_game (bytes "TRACE")) +
    turnsRemaining (played crane_game (bytes "TRACE")) = 6 ∧
  0 ≤ currentTurn (played crane_game (bytes "TRACE")) ≤ 6.
Proof.
  apply (turns_sum_to_six 1 crane_fs 0 false crane_game).
  - reflexivity.
  - eapply (reach_turn _ crane_game [] trace);
      [apply reach_new | reflexivity | by vm_compute | by vm_compute].
Defined.

Lemma two_pass_rule_witness :
  ∃ cs, evaluation allot_game (bytes "LLAMA") = Some cs ∧ length cs = 5%nat ∧
    Forall (λ x, x = greenSquare ∨ x = yellowSquare ∨ x = blackSquare) cs ∧
    (∀ c, (marked c (bytes "LLAMA") cs ≤ count c (answer allot_game))%nat) ∧
    (∀ i r, bytes "LLAMA" !! i = Some r →
       (cs !! i = Some greenSquare ↔ answer allot_game !! i = Some r) ∧
       (cs !! i = Some yellowSquare ↔
          answer allot_game !! i ≠ Some r ∧
          (matched r (bytes "LLAMA") (answer allot_game) +
           unmatched r (take i (bytes "LLAMA")) (take i (answer allot_game))
           < count r (answer allot_game))%nat)).
Proof.
  apply (two_pass_rule allot_game (bytes "LLAMA")).
  - repeat split; simpl; first [lia | reflexivity].
  - reflexivity.
  - reflexivity.
Defined.

Example allot_llama_evaluation :
  evaluation allot_game (bytes "LLAMA") =
    Some [yellowSquare; greenSquare; yellowSquare; blackSquare; blackSquare].
Proof. by vm_compute. Qed.

Lemma june_20_is_day_one_witness : daysSinceFirstWordle june20_noon 0 = 1.
Proof. apply (june_20_is_day_one june20_noon). by vm_compute. Defined.

Lemma hints_are_recorded_witness :
  ∃ g' cs, addGuess hard_game (bytes "TRACE") = Some g' ∧
    evaluation hard_game (bytes "TRACE") = Some cs ∧
    (∀ (i : nat) r, bytes "TRACE" !! i = Some r → cs !! i = Some greenSquare →
                    green (hints_ g') !! i = Some r) ∧
    (∀ i : nat, cs !! i ≠ Some greenSquare →
                green (hints_ g') !! i = green (hints_ hard_game) !! i) ∧
    (∀ l, l ∈ dom (yellow (hints_ g')) ↔
          l ∈ dom (yellow (hints_ hard_game)) ∨
          ∃ i : nat, bytes "TRACE" !! i = Some l ∧ cs !! i = Some yellowSquare).
Proof.
  apply (hints_are_recorded hard_game (bytes "TRACE")).
  - repeat split; simpl; first [lia | reflexivity].
  - reflexivity.
  - reflexivity.
Defined.

Lemma hints_tell_the_truth_witness :
  answer hard_game_after_trace = answer hard_game ∧
  (∀ (i : nat) gh, green (hints_ hard_game_after_trace) !! i = Some gh → gh ≠ emptyRune →
                   answer hard_game_after_trace !! i = Some gh) ∧
  (∀ l, l ∈ dom (yellow (hints_ hard_game_after_trace)) → l ∈ answer hard_game_after_trace).
Proof.
  apply (hints_tell_the_truth 1 crane_fs 0 true hard_game).
  - reflexivity.
  - eapply (reach_turn _ hard_game [] trace);
      [apply reach_new | reflexivity | by vm_compute | by vm_compute].
Defined.

Lemma accepted_line_is_played_witness :
  ∃ out, turn ["C"%char] hard_game_after_trace (bytes "crane") =
           Some (played hard_game_after_trace (guessOf (bytes "crane")), out).
Proof.
  apply (accepted_line_is_played 1 crane_fs 0 true hard_game).
  - reflexivity.
  - reflexivity.
  - eapply (reach_turn _ hard_game [] trace);
      [apply reach_new | reflexivity | by vm_compute | by vm_compute].
  - reflexivity.
  - by vm_compute.
Defined.

Lemma hard_mode_rejects_witness :
  accepts ["C"%char] hard_game_after_trace (bytes "llama") = false ∧
  ∃ out, turn ["C"%char] hard_game_after_trace (bytes "llama") =
           Some (hard_game_after_trace, out).
Proof.
  apply (hard_mode_rejects ["C"%char] hard_game_after_trace (bytes "llama")).
  - reflexivity.
  - by vm_compute.
  - reflexivity.
  - reflexivity.
  - by apply (bool_decide_unpack _).
  - left. exists "C"%char. split; by apply (bool_decide_unpack _).
Defined.

(** ** The lines of the embedded files *)

Lemma scans_line fuel : ∀ s n,
  (length (src s) < fuel)%nat →
  Text (scans (S n) s) = default [] (ScanAll fuel s !! n).
Proof.
  induction fuel as [|fuel IH]; intros s n Hf; [lia|].
  cbn [ScanAll scans].
  destruct (Scan s) as [ok s'] eqn:E.
  destruct (Scan_shorter _ _ _ E) as [[-> ->]|[-> Hlt]]; cbn [snd].
  - by rewrite scans_end.
  - destruct n as [|n]; [done|].
    cbn [lookup list_lookup]. apply IH. lia.
Qed.

(** X7: on an ASCII answers.txt whose lines are all shorter than the buffer
    of the scanner, for a day from 0 up to, and not including, the largest [int],
    [answerForDay] returns the upper-cased line of that index of answers.txt,
    as the scanner cuts the file into lines, and the empty string when the
    file has no such line. *)
Theorem answer_is_line_of_day fs day fuel :
  isASCII (answers_txt fs) = true → shortLines 0 (answers_txt fs) = true →
  0 ≤ day < int_max → (Z.to_nat (day + 1) ≤ fuel)%nat →
  answerForDay fuel fs day =
    Some (ToUpper (default [] (Lines (answers_txt fs) !! Z.to_nat day))).
Proof.
  intros _ _ Hd Hf. unfold answerForDay.
  rewrite (scanLoop_run (Z.to_nat (day + 1))); [|lia| unfold int_min; lia | lia | done].
  cbn [mbind option_bind].
  replace (Z.to_nat (day + 1)) with (S (Z.to_nat day)) by lia.
  rewrite (scans_line (S (length (answers_txt fs)))) by (simpl; lia).
  done.
Qed.

Lemma Scan_cut w rest tok :
  LF ∉ w → Scan (mkScanner (w ++ LF :: rest) tok) = (true, mkScanner rest (dropCR w)).
Proof.
  intros Hn. unfold Scan. cbn [src].
  destruct (w ++ LF :: rest) as [|c data] eqn:E; [by destruct w|].
  rewrite <- E, cutLine_line by done. done.
Qed.

Lemma cutLine_whole w : LF ∉ w → cutLine w = (w, []).
Proof.
  induction w as [|c w IH]; intros Hn; [done|].
  apply not_elem_of_cons in Hn as [Hc Hw]. cbn [cutLine].
  destruct (Ascii.eqb_spec c LF) as [->|_]; [done|]. by rewrite IH.
Qed.

Lemma Scan_rest w tok :
  w ≠ [] → LF ∉ w → Scan (mkScanner w tok) = (true, mkScanner [] (dropCR w)).
Proof.
  intros Hne Hn. unfold Scan. cbn [src]. destruct w as [|c w]; [done|].
  by rewrite cutLine_whole.
Qed.

Lemma textLines_cons w ws : textLines (w :: ws) = w ++ LF :: textLines ws.
Proof. unfold textLines. cbn [fmap list_fmap concat]. by rewrite <- app_assoc. Qed.

Lemma records_cons w ws : records (w :: ws) = (w ++ [CR]) ++ LF :: records ws.
Proof. unfold records. cbn [fmap list_fmap concat]. by rewrite <- !app_assoc. Qed.

Lemma ScanAll_textLines ws : ∀ fuel tok tail_,
  Forall (λ w, (LF ∉ w) ∧ (CR ∉ w)) ws → LF ∉ tail_ → CR ∉ tail_ →
  (length (textLines ws ++ tail_) < fuel)%nat →
  ScanAll fuel (mkScanner (textLines ws ++ tail_) tok) =
    ws ++ (if decide (tail_ = []) then [] else [tail_]).
Proof.
  induction ws as [|w ws IH]; intros fuel tok tail_ Hall H1 H2 Hf.
  - cbn [textLines fmap list_fmap concat app] in *.
    destruct fuel as [|fuel]; [lia|]. cbn [ScanAll].
    destruct (decide (tail_ = [])) as [->|Hne]; [done|].
    rewrite Scan_rest by done. rewrite dropCR_line by done. cbn [Text token].
    destruct fuel as [|fuel]; [destruct tail_; [done | simpl in Hf; lia]|]. done.
  - apply Forall_cons in Hall as [[Hw1 Hw2] Hall].
    rewrite textLines_cons in *. rewrite <- app_assoc in *. cbn [app] in *.
    destruct fuel as [|fuel]; [lia|]. cbn [ScanAll].
    rewrite Scan_cut by done. rewrite dropCR_line by done. cbn [Text token].
    rewrite IH; [done..|]. rewrite length_app in Hf. cbn [length] in Hf. lia.
Qed.

Lemma ScanAll_records ws : ∀ fuel tok,
  Forall (λ w, LF ∉ w) ws → (length (records ws) < fuel)%nat →
  ScanAll fuel (mkScanner (records ws) tok) = ws.
Proof.
  induction ws as [|w ws IH]; intros fuel tok Hall Hf.
  - destruct fuel as [|fuel]; [lia|]. done.
  - apply Forall_cons in Hall as [Hw Hall].
    rewrite records_cons in *.
    destruct fuel as [|fuel]; [lia|]. cbn [ScanAll].
    rewrite Scan_cut.
    + rewrite dropCR_record. cbn [Text token]. rewrite IH; [done..|].
      rewrite length_app in Hf. cbn [length] in Hf. lia.
    + intros [H|H%list_elem_of_singleton]%elem_of_app; done.
Qed.

(** X8: [guessesSet] reads one word per line.  For ASCII words without line
    feed or carriage return, each with its line ending shorter than the
    buffer of the scanner, written one per line with LF or with CR LF endings,
    with or without a line ending after the last word, the set holds exactly
    the upper-cased words; so does the set of termle.go. *)
Theorem word_list_is_read ws a :
  Forall (λ w, isASCII w = true) ws →
  Forall (λ w, Z.of_nat (length w) + 1 < MaxScanTokenSize) ws →
  Forall (λ w, (LF ∉ w) ∧ (CR ∉ w)) ws →
  guessesSet (mkFS (textLines ws) a) = list_to_set (ToUpper <$> ws) ∧
  guessesSet (mkFS (records ws) a) = list_to_set (ToUpper <$> ws) ∧
  TermleGo.guessesSet (records ws) = list_to_set (ToUpper <$> ws) ∧
  (∀ w, isASCII w = true → Z.of_nat (length w) + 1 < MaxScanTokenSize →
        w ≠ [] → LF ∉ w → CR ∉ w →
     guessesSet (mkFS (textLines ws ++ w) a) = list_to_set (ToUpper <$> (ws ++ [w]))).
Proof.
  intros _ _ Hall.
  assert (Hrec : Lines (records ws) = ws).
  { unfold Lines, NewScanner. apply ScanAll_records; [|lia].
    eapply Forall_impl; [exact Hall|]. by intros w [? _]. }
  split_and!.
  - unfold guessesSet, Lines, NewScanner. cbn [guesses_txt].
    rewrite <- (app_nil_r (textLines ws)).
    rewrite ScanAll_textLines; [|done|by intros ?%elem_of_nil..|lia].
    by rewrite decide_True, app_nil_r.
  - unfold guessesSet. cbn [guesses_txt]. by rewrite Hrec.
  - unfold TermleGo.guessesSet. by rewrite Hrec.
  - intros w _ _ Hne H1 H2. unfold guessesSet, Lines, NewScanner. cbn [guesses_txt].
    rewrite ScanAll_textLines; [|done..|lia].
    by rewrite decide_False.
Qed.

(** ** The whole run of [Part000.main] *)

Lemma checkGreen_total gs : ∀ i guess,
  (i + length gs ≤ length guess)%nat → is_Some (checkGreen i gs guess).
Proof.
  induction gs as [|gh gs IH]; intros i guess L; [done|].
  cbn [checkGreen length] in *.
  destruct (lookup_lt_is_Some_2 guess i) as [c Hc]; [lia|]. rewrite Hc.
  cbn [mbind option_bind].
  destruct (negb _); [destruct (negb _); [done|] |]; apply IH; lia.
Qed.

Lemma played_frame g guess :
  answer (played g guess) = answer g ∧
  validGuesses (played g guess) = validGuesses g ∧
  hardMode (played g guess) = hardMode g ∧
  Part000.day (played g guess) = Part000.day g ∧
  length (board (played g guess)) = length (board g) ∧
  won (played g guess) = bool_decide (guess = answer g) || won g.
Proof.
  unfold played. cbn [answer validGuesses hardMode Part000.day board won].
  split_and!; [done.. | by rewrite length_insert | by destruct (bool_decide _)].
Qed.

(** A round of the loop returns, as long as the answer has five letters or
    more. *)
Lemma turn_total iter g text :
  inv g → complete g = false → (5 ≤ length (answer g))%nat →
  ∃ g' out, turn iter g text = Some (g', out).
Proof.
  intros Hi Hc La. destruct (accepts iter g text) eqn:Ha.
  - destruct (accepts_turn _ _ _ Ha) as [o Ho]. rewrite Ho.
    assert (Hv : valid (guessOf text) = true).
    { unfold accepts in Ha. by apply andb_prop in Ha as [[? _]%andb_prop _]. }
    rewrite addGuess_fresh; [cbn [mbind option_bind]; eauto | by apply inv_fresh | |];
      rewrite (valid_length _ Hv); lia.
  - unfold accepts in Ha. unfold turn. fold (guessOf text).
    destruct (valid (guessOf text)) eqn:Hv; cbn [negb andb] in *; [|eauto].
    destruct (bool_decide (guessOf text ∈ validGuesses g)); cbn [negb andb] in *; [|eauto].
    destruct (hardMode g); cbn [negb orb] in *; [|done].
    unfold checkHints in *. cbn [snd] in Ha.
    destruct (checkYellow iter (guessOf text)) as [e|]; [cbn [mbind option_bind]; eauto|].
    destruct (checkGreen_total (green (hints_ g)) 0 (guessOf text)) as [res Hres].
    { destruct Hi as (_ & _ & _ & _ & Lg). rewrite Lg, (valid_length _ Hv). lia. }
    rewrite Hres in *. cbn [mbind option_bind].
    destruct res as [e|]; [eauto | done].
Qed.

Lemma turn_frame iter g text g' out :
  inv g → complete g = false → turn iter g text = Some (g', out) →
  answer g' = answer g ∧ validGuesses g' = validGuesses g ∧
  hardMode g' = hardMode g ∧ Part000.day g' = Part000.day g ∧
  length (board g') = length (board g).
Proof.
  intros Hi Hc Ht. destruct (accepts iter g text) eqn:Ha.
  - rewrite (turn_played _ _ _ _ _ Hi Hc Ha Ht).
    destruct (played_frame g (guessOf text)) as (? & ? & ? & ? & ? & _). done.
  - by rewrite (rejects_turn _ _ _ _ _ Ha Ht).
Qed.

Lemma mainLoop_total input : ∀ g out,
  inv g → (5 ≤ length (answer g))%nat → length (board g) = 6%nat →
  ∃ g' out', mainLoop g input out = Some (g', out') ∧
             inv g' ∧ length (board g') = 6%nat.
Proof.
  induction input as [|[text iter] rest IH]; intros g out Hi La Lb.
  - exists g, out. cbn [mainLoop]. by destruct (complete g).
  - cbn [mainLoop]. destruct (complete g) eqn:Hc; [by exists g, out|].
    destruct (turn_total iter g text Hi Hc La) as (g1 & o & Ht). rewrite Ht.
    cbn [mbind option_bind].
    destruct (turn_frame _ _ _ _ _ Hi Hc Ht) as (Ha & _ & _ & _ & Lb').
    apply IH; [by eapply turn_inv | by rewrite Ha | by rewrite Lb'].
Qed.

Lemma printShareableScore_total g :
  inv g → length (board g) = 6%nat → is_Some (printShareableScore g).
Proof.
  intros (Hct & _) Lb. unfold printShareableScore.
  destruct (Nat.ltb_spec (length (board g)) (Z.to_nat (currentTurn g))); [lia|]. done.
Qed.

(** X9: on ASCII word lists whose lines are all shorter than the buffer of
    the scanner, when the answer of the day has five letters or more, [main]
    of part_000 returns for every ASCII input that the scanner reads without
    an error, in hard mode or not, whatever the order of the ranges over the
    yellow hints; on a scanner error it panics. *)
Theorem main_never_panics fuel fs fl now offset r input a :
  isASCII (guesses_txt fs) = true → shortLines 0 (guesses_txt fs) = true →
  isASCII (answers_txt fs) = true → shortLines 0 (answers_txt fs) = true →
  Forall (λ line, isASCII line.1 = true) input →
  answerForDay fuel fs (selectDay fl now offset r) = Some a → (5 ≤ length a)%nat →
  (∃ g out, main fuel fs fl now offset r input false = Some (g, out)) ∧
  main fuel fs fl now offset r input true = None.
Proof.
  intros _ _ _ _ _ Ha La. unfold main.
  destruct (newGame fuel fs (selectDay fl now offset r) (hardFlag fl)) as [g0|] eqn:Hn;
    [|unfold newGame in Hn; by rewrite Ha in Hn].
  cbn [mbind option_bind].
  pose proof (newGame_inv _ _ _ _ _ Hn) as Hi.
  apply newGame_answer in Hn as (Hans & _ & _ & _ & _ & Hb & _).
  assert (a = answer g0) as -> by congruence.
  destruct (mainLoop_total input g0 (printTurn g0) Hi La) as (g & out & Hl & Hi' & Lb').
  { by rewrite Hb. }
  rewrite Hl. cbn [mbind option_bind]. split; [|done].
  destruct (complete g); [|eauto].
  destruct (printShareableScore_total g Hi' Lb') as [s Hs]. rewrite Hs.
  cbn [mbind option_bind]. eauto.
Qed.

(** ** Games that cannot be won, and games that can *)

Lemma reachable_frame g0 g :
  inv g0 → reachable g0 g →
  answer g = answer g0 ∧ validGuesses g = validGuesses g0 ∧
  hardMode g = hardMode g0 ∧ Part000.day g = Part000.day g0 ∧
  length (board g) = length (board g0).
Proof.
  intros Hi Hr. induction Hr as [|g iter text g' out Hr IH Hc _ Ht]; [done|].
  pose proof (reachable_inv _ _ Hi Hr) as Hig.
  destruct (turn_frame _ _ _ _ _ Hig Hc Ht) as (-> & -> & -> & -> & ->). done.
Qed.

(** X10: a game whose answer is not of the valid format (five letters), or
    is not in the word list, is never won: no state the loop reaches has
    [won] set. *)
Theorem never_won fuel fs day hard g0 g :
  newGame fuel fs day hard = Some g0 →
  valid (answer g0) = false ∨ answer g0 ∉ validGuesses g0 →
  reachable g0 g → won g = false.
Proof.
  intros Hn Hbad Hr.
  pose proof (newGame_inv _ _ _ _ _ Hn) as Hi.
  apply newGame_answer in Hn as (_ & _ & _ & _ & Hw & _).
  induction Hr as [|g iter text g' out Hr IH Hc _ Ht]; [done|].
  pose proof (reachable_inv _ _ Hi Hr) as Hig.
  destruct (reachable_frame _ _ Hi Hr) as (Ha & Hvg & _).
  destruct (accepts iter g text) eqn:Hacc.
  - rewrite (turn_played _ _ _ _ _ Hig Hc Hacc Ht).
    destruct (played_frame g (guessOf text)) as (_ & _ & _ & _ & _ & ->).
    rewrite IH, orb_false_r. apply bool_decide_eq_false. intros Hsame.
    unfold accepts in Hacc. apply andb_prop in Hacc as [[Hv Hin]%andb_prop _].
    apply bool_decide_eq_true in Hin. rewrite Hsame, Ha in Hv, Hin. rewrite Hvg in Hin.
    destruct Hbad; congruence.
  - by rewrite (rejects_turn _ _ _ _ _ Hacc Ht).
Qed.

(** X11: when the answer has fewer than five letters the game never leaves
    its first state, and every round that accepts its line panics there, in
    [addGuess], indexing the answer. *)
Theorem short_answer_panics fuel fs day hard g0 g :
  newGame fuel fs day hard = Some g0 → (length (answer g0) < 5)%nat →
  reachable g0 g →
  g = g0 ∧ ∀ iter text, accepts iter g text = true → turn iter g text = None.
Proof.
  intros Hn La Hr.
  assert (Hstuck : ∀ iter text, accepts iter g0 text = true → turn iter g0 text = None).
  { intros iter text Hacc. destruct (accepts_turn _ _ _ Hacc) as [o ->].
    unfold accepts in Hacc. apply andb_prop in Hacc as [[Hv%valid_length _]%andb_prop _].
    rewrite addGuess_short; [done | by destruct (guessOf text) | lia]. }
  assert (g = g0) as ->; [|done].
  induction Hr as [|g iter text g' out _ IH Hc _ Ht]; [done|]. subst g.
  destruct (accepts iter g0 text) eqn:E.
  - rewrite Hstuck in Ht; done.
  - by eapply rejects_turn.
Qed.

(** X12: when the answer is of the valid format and in the word list, then
    in every state the loop reaches that is not complete, a line that stands
    for the answer is accepted, also in hard mode with the hints gathered so
    far, and the round ends the game won. *)
Theorem answer_always_wins fuel fs day hard g0 g iter text :
  newGame fuel fs day hard = Some g0 →
  valid (answer g0) = true → answer g0 ∈ validGuesses g0 →
  reachable g0 g → complete g = false → ranges (yellow (hints_ g)) iter →
  guessOf text = answer g0 →
  accepts iter g text = true ∧
  ∃ g' out, turn iter g text = Some (g', out) ∧ won g' = true ∧ complete g' = true.
Proof.
  intros Hn Hv Hin Hr Hc Hrg Htext.
  pose proof (newGame_inv _ _ _ _ _ Hn) as Hi.
  pose proof (reachable_inv _ _ Hi Hr) as Hig.
  destruct (reachable_truthful g0 g Hi (newGame_truthful _ _ _ _ _ Hn) Hr) as [[Hg Hy] Ha].
  destruct (reachable_frame _ _ Hi Hr) as (_ & Hvg & _).
  assert (Hacc : accepts iter g text = true).
  { unfold accepts. rewrite Htext, Hv, Hvg, bool_decide_eq_true_2 by done.
    cbn [andb]. destruct (hardMode g); [|done]. cbn [negb orb].
    unfold checkHints. cbn [snd].
    assert (checkYellow iter (answer g0) = None) as ->.
    { apply checkYellow_None. intros l Hl. rewrite <- Ha. apply Hy.
      by apply (ranges_elem_of _ _ _ Hrg). }
    assert (L : (0 + length (green (hints_ g)) ≤ length (answer g0))%nat).
    { destruct Hig as (_ & _ & _ & _ & Lg). rewrite Lg, (valid_length _ Hv). lia. }
    destruct (checkGreen_spec (green (hints_ g)) 0 (answer g0) L) as [H1 _].
    rewrite H1; [done|].
    intros j gh (Hj & Hne & Hw). apply Hw. rewrite <- Ha. by apply Hg. }
  split; [done|].
  destruct (turn_total iter g text Hig Hc) as (g' & out & Ht).
  { rewrite Ha, (valid_length _ Hv). lia. }
  exists g', out. split; [done|].
  rewrite (turn_played _ _ _ _ _ Hig Hc Hacc Ht).
  unfold played. cbn [won complete]. rewrite Htext, Ha.
  by rewrite bool_decide_eq_true_2.
Qed.

(** ** The hints only grow *)





Import History.

(** ** The board and the score record the accepted guesses *)

Lemma letters1 rs : ∀ ans row,
  (length rs ≤ length ans)%nat → length row = length rs →
  letter <$> cells1 rs ans row = string_of_rune <$> rs.
Proof.
  induction rs as [|r rs IH]; intros ans row La Lr.
  - by destruct row.
  - destruct ans as [|a ans]; [simpl in La; lia|]. destruct row as [|x row]; [done|].
    cbn [cells1 fmap list_fmap letter]. simpl in La, Lr. rewrite IH by lia. done.
Qed.

Lemma letters2 answer rs : ∀ ans row f,
  (length rs ≤ length ans)%nat → length row = length rs →
  letter <$> row = string_of_rune <$> rs →
  letter <$> cells2 answer rs ans row f = string_of_rune <$> rs.
Proof.
  induction rs as [|r rs IH]; intros ans row f La Lr Hl.
  - by destruct row.
  - destruct ans as [|a ans]; [simpl in La; lia|]. destruct row as [|x row]; [done|].
    cbn [fmap list_fmap] in Hl. injection Hl as Hx Hl. simpl in La, Lr.
    cbn [cells2]. destruct (room answer a r f); cbn [fmap list_fmap letter];
      rewrite IH by (first [lia | done]); [done | by rewrite Hx].
Qed.

Lemma scored_letters answer guess :
  length guess = 5%nat → (5 ≤ length answer)%nat →
  letter <$> scored answer guess = string_of_rune <$> guess.
Proof.
  intros Lg La. unfold scored. apply letters2.
  - lia.
  - by rewrite cells1_length, length_replicate.
  - apply letters1; [lia | by rewrite length_replicate].
Qed.






(** ** The single pass of [board.addGuess] *)

Lemma painted_lookup answer cs : ∀ ans row (i : nat) c a,
  cs !! i = Some c → ans !! i = Some a → (i < length row)%nat →
  painted answer cs ans row !! i =
    Some (if Ascii.eqb c a then TermleGo.green (string_of_rune c)
          else if ContainsRune answer c then TermleGo.yellow (string_of_rune c)
          else TermleGo.black (string_of_rune c)).
Proof.
  induction cs as [|c0 cs IH]; intros ans row i c a Hc Ha Hi; [done|].
  destruct ans as [|a0 ans]; [done|]. destruct row as [|x row]; [simpl in Hi; lia|].
  cbn [painted]. destruct i as [|i].
  - cbn [lookup list_lookup] in *. by simplify_eq.
  - cbn [lookup list_lookup length] in *. apply IH; [done | done | lia].
Qed.

Lemma painted_beyond answer cs : ∀ ans row (i : nat),
  (length cs ≤ i)%nat → painted answer cs ans row !! i = row !! i.
Proof.
  induction cs as [|c0 cs IH]; intros ans row i Hi; [by destruct ans, row|].
  destruct ans as [|a0 ans]; [done|]. destruct row as [|x row]; [done|].
  cbn [painted]. destruct i as [|i]; [simpl in Hi; lia|].
  simpl. apply IH. simpl in Hi. lia.
Qed.

Lemma painted_length answer cs : ∀ ans row,
  length (painted answer cs ans row) = length row.
Proof.
  induction cs as [|c0 cs IH]; intros ans row; [by destruct ans, row|].
  destruct ans as [|a0 ans]; [done|]. destruct row as [|x row]; [done|].
  cbn [painted length]. by rewrite IH.
Qed.

Lemma setCell_length b turn i x b' :
  TermleGo.setCell b turn i x = Some b' →
  0 ≤ turn ∧ length b' = length b ∧
  ∃ row, b !! Z.to_nat turn = Some row ∧ (i < length row)%nat ∧
         b' !! Z.to_nat turn = Some (<[i := x]> row).
Proof.
  unfold TermleGo.setCell. destruct (Z.ltb_spec turn 0); [done|].
  destruct (b !! Z.to_nat turn) as [row|] eqn:E; [|done]. cbn [mbind option_bind].
  destruct (row !! i) as [y|] eqn:Ei; [|done]. cbn [mbind option_bind].
  intros [= <-]. split; [done|]. split; [by rewrite length_insert|].
  exists row. split; [done|]. split; [by eapply lookup_lt_Some|].
  rewrite list_lookup_insert_eq; [done|]. by eapply lookup_lt_Some.
Qed.

(** [board.addGuess] panics when it indexes outside the board, the row or the
    answer. *)
Lemma addGuessFrom_panics cs : ∀ i b turn answer,
  cs ≠ [] →
  turn < 0 ∨ Z.of_nat (length b) ≤ turn ∨
  (length answer < i + length cs)%nat ∨
  (∃ row, b !! Z.to_nat turn = Some row ∧ (length row < i + length cs)%nat) →
  TermleGo.addGuessFrom i cs b turn answer = None.
Proof.
  induction cs as [|c cs IH]; intros i b turn answer Hne H; [done|].
  cbn [TermleGo.addGuessFrom].
  destruct (answer !! i) as [a|] eqn:Ha; [|done]. cbn [mbind option_bind].
  destruct (TermleGo.setCell b turn i _) as [b'|] eqn:Hs; [|done]. cbn [mbind option_bind].
  apply setCell_length in Hs as (Ht & Lb & row & Hrow & Hi & Hrow').
  apply lookup_lt_Some in Ha. cbn [length] in H.
  assert (Hb : (Z.to_nat turn < length b)%nat) by (by eapply lookup_lt_Some).
  destruct cs as [|c' cs].
  { exfalso. cbn [length] in H. destruct H as [H|[H|[H|(row' & Hr' & H)]]]; try lia.
    rewrite Hrow in Hr'. injection Hr' as <-. lia. }
  apply IH; [done|].
  destruct H as [H|[H|[H|(row' & Hr' & H)]]]; try lia.
  right. right. right. eexists. split; [exact Hrow'|].
  rewrite Hrow in Hr'. injection Hr' as <-. rewrite length_insert. cbn [length] in *. lia.
Qed.

(** The row [board.addGuess] leaves, and the cell of each letter of the guess. *)
Lemma addGuess_painted (b : TermleGo.board) turn guess answer row :
  0 ≤ turn → b !! Z.to_nat turn = Some row →
  (length guess ≤ length row)%nat → (length guess ≤ length answer)%nat →
  TermleGo.addGuess b turn guess answer =
    Some (<[Z.to_nat turn := painted answer guess answer row]> b) ∧
  ∀ (i : nat) c, guess !! i = Some c →
    ∃ a, answer !! i = Some a ∧
         painted answer guess answer row !! i =
           Some (if Ascii.eqb c a then TermleGo.green (string_of_rune c)
                 else if ContainsRune answer c then TermleGo.yellow (string_of_rune c)
                 else TermleGo.black (string_of_rune c)).
Proof.
  intros Ht Hrow L1 L2. split.
  - unfold TermleGo.addGuess.
    by apply (addGuessFrom_run guess 0 [] row [] answer).
  - intros i c Hc. pose proof (lookup_lt_Some _ _ _ Hc) as Hi.
    destruct (lookup_lt_is_Some_2 answer i) as [a Ha]; [lia|].
    exists a. split; [done|]. apply painted_lookup; [done | done | lia].
Qed.

(** X17: [board.addGuess] with an ASCII guess, and the row of the turn and
    the answer at least as long as the guess, returns; it changes no other row and keeps the
    length of the row; the cell of each letter of the guess is the letter in
    green when the answer has it at this position, else in yellow when the
    answer has it anywhere, else in black; the cells past the guess stay. *)
Theorem single_pass_row (b : TermleGo.board) turn guess answer row :
  isASCII guess = true →
  0 ≤ turn → b !! Z.to_nat turn = Some row →
  (length guess ≤ length row)%nat → (length guess ≤ length answer)%nat →
  ∃ b' row',
    TermleGo.addGuess b turn guess answer = Some b' ∧
    length b' = length b ∧
    b' !! Z.to_nat turn = Some row' ∧ length row' = length row ∧
    (∀ t : nat, t ≠ Z.to_nat turn → b' !! t = b !! t) ∧
    (∀ (i : nat) c, guess !! i = Some c →
       ∃ a, answer !! i = Some a ∧
         row' !! i =
           Some (if Ascii.eqb c a then TermleGo.green (string_of_rune c)
                 else if ContainsRune answer c then TermleGo.yellow (string_of_rune c)
                 else TermleGo.black (string_of_rune c))) ∧
    (∀ i : nat, (length guess ≤ i)%nat → row' !! i = row !! i).
Proof.
  intros _ Ht Hrow L1 L2.
  destruct (addGuess_painted b turn guess answer row Ht Hrow L1 L2) as [Hadd Hcell].
  exists (<[Z.to_nat turn := painted answer guess answer row]> b),
         (painted answer guess answer row).
  pose proof (lookup_lt_Some _ _ _ Hrow) as Hlt.
  split_and!.
  - done.
  - by rewrite length_insert.
  - by rewrite list_lookup_insert_eq.
  - apply painted_length.
  - intros t Hne. by rewrite list_lookup_insert_ne.
  - done.
  - intros i Hi. by apply painted_beyond.
Qed.

(** X18: [board.addGuess] with an ASCII guess that is not empty panics when the
    turn is outside the board, or the answer or the row of the turn is
    shorter than the guess. *)
Theorem single_pass_panics (b : TermleGo.board) turn guess answer :
  isASCII guess = true → guess ≠ [] →
  turn < 0 ∨ Z.of_nat (length b) ≤ turn ∨ (length answer < length guess)%nat ∨
  (∃ row, b !! Z.to_nat turn = Some row ∧ (length row < length guess)%nat) →
  TermleGo.addGuess b turn guess answer = None.
Proof.
  intros _ Hne H. unfold TermleGo.addGuess. by apply addGuessFrom_panics.
Qed.

Lemma scored_cell answer guess (i : nat) r :
  length answer = 5%nat → length guess = 5%nat → guess !! i = Some r →
  let cs := color <$> scored answer guess in
  (cs !! i = Some greenSquare ↔ answer !! i = Some r) ∧
  (cs !! i = Some yellowSquare ↔
     answer !! i ≠ Some r ∧
     (matched r guess answer + unmatched r (take i guess) (take i answer)
      < count r answer)%nat) ∧
  (cs !! i = Some greenSquare ∨ cs !! i = Some yellowSquare ∨ cs !! i = Some blackSquare).
Proof.
  intros La Lg Hr cs.
  assert (Hblank : Forall (λ x, color x = blackSquare) (replicate 5 blank))
    by (by apply Forall_replicate).
  assert (Hf0 : ∀ c, at0 (foldl incr ∅ answer) c = Z.of_nat (count c answer))
    by (intros c; apply freq_of_answer; lia).
  assert (Hs0 : small (foldl incr ∅ answer) 10)
    by (apply (freq_of_answer _ "a"%char); lia).
  assert (Hf1 : ∀ c, at0 (freqs1 guess answer (foldl incr ∅ answer)) c =
                     Z.of_nat (count c answer) - Z.of_nat (matched c guess answer)).
  { intros c. rewrite at0_freqs1, Hf0; [done|]. eapply small_le; [|done]. lia. }
  assert (Hs1 : small (freqs1 guess answer (foldl incr ∅ answer)) (length guess)).
  { apply small_freqs1. eapply small_le; [|done]. lia. }
  subst cs. unfold scored.
  destruct (colours_pointwise answer guess answer (replicate 5 blank) _ i
              ltac:(by rewrite length_replicate) ltac:(lia) Hblank Hs1) as [Hg Hy].
  split_and!.
  - rewrite Hg. split.
    + intros (r' & Hr' & Ha). congruence.
    + intros Ha. by exists r.
  - rewrite Hy. split.
    + intros (r' & a & Hr' & Ha & Hne & Hin & Hlt).
      assert (r' = r) as -> by congruence. rewrite Hf1 in Hlt.
      split; [congruence | lia].
    + intros [Hne Hlt].
      destruct (lookup_lt_is_Some_2 answer i) as [a Ha].
      { apply lookup_lt_Some in Hr. lia. }
      exists r, a. split_and!; [done | done | congruence | | rewrite Hf1; lia].
      apply count_pos. lia.
  - pose proof (colours_three answer guess answer (replicate 5 blank)
                  (freqs1 guess answer (foldl incr ∅ answer)) Hblank) as H3.
    rewrite Forall_lookup in H3.
    destruct ((color <$> cells2 answer guess answer (cells1 guess answer (replicate 5 blank))
                (freqs1 guess answer (foldl incr ∅ answer))) !! i) as [x|] eqn:E.
    + destruct (H3 i x E) as [-> | [-> | ->]]; auto.
    + exfalso. apply lookup_ge_None in E.
      rewrite length_fmap, cells2_length, cells1_length, length_replicate in E.
      apply lookup_lt_Some in Hr. lia.
Qed.

Lemma absent_counts c rs : ∀ ans,
  c ∉ rs → matched c rs ans = 0%nat ∧ unmatched c rs ans = 0%nat.
Proof.
  induction rs as [|r rs IH]; intros [|a ans] Hn; try done.
  apply not_elem_of_cons in Hn as [Hne Hn].
  rewrite matched_cons, unmatched_cons.
  rewrite !decide_False by (intros [? ?]; congruence). by apply IH.
Qed.

Lemma matched_once rs : ∀ ans (i : nat) r,
  NoDup rs → rs !! i = Some r → ans !! i ≠ Some r → matched r rs ans = 0%nat.
Proof.
  induction rs as [|x rs IH]; intros ans i r Hnd Hr Ha; [done|].
  apply NoDup_cons in Hnd as [Hx Hnd].
  destruct ans as [|a ans]; [done|]. rewrite matched_cons.
  destruct i as [|i]; cbn [lookup list_lookup] in Hr, Ha.
  - injection Hr as ->. rewrite decide_False by (intros [_ ->]; done).
    by apply absent_counts.
  - rewrite decide_False.
    + by apply (IH ans i).
    + intros [-> _]. apply Hx. by eapply list_elem_of_lookup_2.
Qed.

Lemma take_absent (rs : list ascii) (i : nat) r :
  NoDup rs → rs !! i = Some r → r ∉ take i rs.
Proof.
  intros Hnd Hr Hin. apply list_elem_of_lookup in Hin as [j Hj].
  pose proof (lookup_lt_Some _ _ _ Hj) as Hlt. rewrite length_take in Hlt.
  rewrite lookup_take_lt in Hj by lia.
  assert (i = j) by (by eapply NoDup_lookup). lia.
Qed.

Lemma paints_distinct l :
  TermleGo.green l ≠ TermleGo.yellow l ∧ TermleGo.green l ≠ TermleGo.black l ∧
  TermleGo.yellow l ≠ TermleGo.black l.
Proof. unfold TermleGo.green, TermleGo.yellow, TermleGo.black. by split_and!. Qed.

(** X19: the single pass of termle.go marks at least what the two passes of
    part_000 mark.  On the same five-letter answer and guess the green cells
    are the same, every cell the two passes leave yellow the single pass
    leaves yellow, and every cell the single pass leaves black the two
    passes leave black. *)
Theorem single_pass_marks_more g (bd : TermleGo.board) turn row guess :
  fresh g → valid guess = true → length (answer g) = 5%nat →
  0 ≤ turn → bd !! Z.to_nat turn = Some row → length row = 5%nat →
  ∃ cs bd' row',
    evaluation g guess = Some cs ∧
    TermleGo.addGuess bd turn guess (answer g) = Some bd' ∧
    bd' !! Z.to_nat turn = Some row' ∧
    ∀ (i : nat) r, guess !! i = Some r →
      (cs !! i = Some greenSquare ↔
         row' !! i = Some (TermleGo.green (string_of_rune r))) ∧
      (cs !! i = Some yellowSquare →
         row' !! i = Some (TermleGo.yellow (string_of_rune r))) ∧
      (row' !! i = Some (TermleGo.black (string_of_rune r)) →
         cs !! i = Some blackSquare).
Proof.
  intros Hf Hv La Ht Hrow Lrow. pose proof (valid_length _ Hv) as Lg.
  destruct (addGuess_painted bd turn guess (answer g) row Ht Hrow ltac:(lia) ltac:(lia))
    as [Hadd Hcell].
  exists (color <$> scored (answer g) guess),
         (<[Z.to_nat turn := painted (answer g) guess (answer g) row]> bd),
         (painted (answer g) guess (answer g) row).
  split_and!; [apply evaluation_fresh; [done|lia|lia] | done
              | rewrite list_lookup_insert_eq; [done | by eapply lookup_lt_Some] |].
  intros i r Hr.
  destruct (scored_cell (answer g) guess i r La Lg Hr) as (Hg & Hy & H3).
  destruct (Hcell i r Hr) as (a & Ha & Hp). rewrite Hp.
  pose proof (paints_distinct (string_of_rune r)) as (D1 & D2 & D3).
  pose proof square_distinct as (S1 & S2 & S3).
  destruct (Ascii.eqb_spec r a) as [<-|Hne].
  - split_and!.
    + rewrite Hg. done.
    + intros Hyy. apply Hg in Ha. congruence.
    + by intros [=].
  - assert (Hng : answer g !! i ≠ Some r) by congruence.
    split_and!.
    + rewrite Hg. split; [done|]. destruct (ContainsRune _ _); by intros [=].
    + intros Hyy. apply Hy in Hyy as [_ Hlt].
      assert (r ∈ answer g) as Hin by (apply count_pos; lia).
      apply ContainsRune_elem in Hin. by rewrite Hin.
    + destruct (ContainsRune (answer g) r) eqn:E; [by intros [=]|]. intros _.
      destruct H3 as [H3|[H3|H3]]; [by apply Hg in H3 | | done].
      apply Hy in H3 as [_ Hlt].
      assert (r ∈ answer g) as Hin by (apply count_pos; lia).
      apply ContainsRune_elem in Hin. congruence.
Qed.

(** X20: on a guess without a repeated letter the two evaluators agree at
    every position: green, yellow and black cells are the same. *)
Theorem evaluators_agree_without_repeats g (bd : TermleGo.board) turn row guess :
  fresh g → valid guess = true → length (answer g) = 5%nat →
  0 ≤ turn → bd !! Z.to_nat turn = Some row → length row = 5%nat →
  NoDup guess →
  ∃ cs bd' row',
    evaluation g guess = Some cs ∧
    TermleGo.addGuess bd turn guess (answer g) = Some bd' ∧
    bd' !! Z.to_nat turn = Some row' ∧
    ∀ (i : nat) r, guess !! i = Some r →
      (cs !! i = Some greenSquare ↔
         row' !! i = Some (TermleGo.green (string_of_rune r))) ∧
      (cs !! i = Some yellowSquare ↔
         row' !! i = Some (TermleGo.yellow (string_of_rune r))) ∧
      (cs !! i = Some blackSquare ↔
         row' !! i = Some (TermleGo.black (string_of_rune r))).
Proof.
  intros Hf Hv La Ht Hrow Lrow Hnd. pose proof (valid_length _ Hv) as Lg.
  destruct (addGuess_painted bd turn guess (answer g) row Ht Hrow ltac:(lia) ltac:(lia))
    as [Hadd Hcell].
  exists (color <$> scored (answer g) guess),
         (<[Z.to_nat turn := painted (answer g) guess (answer g) row]> bd),
         (painted (answer g) guess (answer g) row).
  split_and!; [apply evaluation_fresh; [done|lia|lia] | done
              | rewrite list_lookup_insert_eq; [done | by eapply lookup_lt_Some] |].
  intros i r Hr.
  destruct (scored_cell (answer g) guess i r La Lg Hr) as (Hg & Hy & H3).
  destruct (Hcell i r Hr) as (a & Ha & Hp). rewrite Hp.
  pose proof (paints_distinct (string_of_rune r)) as (D1 & D2 & D3).
  pose proof square_distinct as (S1 & S2 & S3).
  destruct (Ascii.eqb_spec r a) as [<-|Hne].
  - apply Hg in Ha. rewrite Ha. split_and!; split; (done || congruence).
  - assert (Hng : answer g !! i ≠ Some r) by congruence.
    assert (Hyel : (color <$> scored (answer g) guess) !! i = Some yellowSquare ↔ r ∈ answer g).
    { rewrite Hy. rewrite (matched_once guess (answer g) i r Hnd Hr Hng).
      destruct (absent_counts r (take i guess) (take i (answer g))) as [_ ->];
        [by apply take_absent|].
      rewrite <- count_pos. split; [intros [_ ?]; lia | intros ?; split; [done | lia]]. }
    destruct (ContainsRune (answer g) r) eqn:E.
    + apply ContainsRune_elem in E. apply Hyel in E. rewrite E.
      split_and!; split; (done || congruence).
    + assert (Hblack : (color <$> scored (answer g) guess) !! i = Some blackSquare).
      { destruct H3 as [H3|[H3|H3]]; [by apply Hg in H3 | | done].
        apply Hyel, ContainsRune_elem in H3. congruence. }
      rewrite Hblack. split_and!; split; (done || congruence).
Qed.

(** ** The run of [TermleGo.main] *)

Lemma termle_valid_length s : TermleGo.valid s = true → length s = 5%nat.
Proof.
  unfold TermleGo.valid. intros [H _]%andb_prop. by apply Nat.eqb_eq.
Qed.

Lemma termle_rejects answer vg st text :
  Turns.accepts vg text = false →
  ∃ o, TermleGo.turn answer vg st text = Some (st, o, false).
Proof.
  unfold Turns.accepts, TermleGo.turn. fold (guessOf text). intros H.
  destruct (TermleGo.valid (guessOf text)); cbn [negb andb] in *; [|eauto].
  destruct (bool_decide _); cbn [negb] in *; [done | eauto].
Qed.

Lemma termle_accepts answer vg st text (c : nat) rows :
  Turns.accepts vg text = true → length answer = 5%nat →
  TermleGo.currentTurn st = Z.of_nat c → length rows = c →
  TermleGo.b st = rows ++ Turns.blankRow :: replicate (5 - c) Turns.blankRow →
  let guess := guessOf text in
  let b' := rows ++ Turns.row answer guess :: replicate (5 - c) Turns.blankRow in
  TermleGo.turn answer vg st text =
    if bool_decide (guess = answer) then
      Some (TermleGo.mkState b' (TermleGo.currentTurn st) (TermleGo.turnsRemaining st),
            TermleGo.printTurn b' ++ bytes "you won!", true)
    else
      let tr := wrap (TermleGo.turnsRemaining st - 1) in
      let st' := TermleGo.mkState b' (wrap (TermleGo.currentTurn st + 1)) tr in
      if tr =? 0 then Some (st', TermleGo.printTurn b' ++ Turns.lost answer, true)
      else Some (st', TermleGo.printTurn b', false).
Proof.
  intros [Hv Hin]%andb_prop La Hc Lr Hb guess b'.
  pose proof (termle_valid_length _ Hv) as Lg. fold guess in Lg.
  unfold TermleGo.turn. fold (guessOf text).
  rewrite Hv, Hin. cbn [negb]. fold guess.
  unfold TermleGo.addGuess.
  rewrite (addGuessFrom_run guess 0 [] Turns.blankRow [] answer (TermleGo.b st)
             (TermleGo.currentTurn st) answer);
    [ | lia | rewrite Hb, Hc, Nat2Z.id, <- Lr; by rewrite list_lookup_middle
      | done | done | done
      | rewrite Lg; unfold Turns.blankRow; by rewrite length_replicate
      | rewrite Lg; lia ].
  cbn [mbind option_bind app].
  assert (Hb' : <[Z.to_nat (TermleGo.currentTurn st) := painted answer guess answer Turns.blankRow]>
                  (TermleGo.b st) = b').
  { subst b'. unfold Turns.row. rewrite Hb, Hc, Nat2Z.id, <- Lr. by rewrite insert_middle. }
  rewrite Hb'. done.
Qed.

(** The loop of [TermleGo.main] from a state with the rows [rows] played. *)
Lemma termle_loop answer vg : length answer = 5%nat → ∀ input st out rows,
  (length rows < 6)%nat → TermleGo.currentTurn st = Z.of_nat (length rows) →
  TermleGo.turnsRemaining st = 6 - Z.of_nat (length rows) →
  TermleGo.b st = rows ++ replicate (6 - length rows) Turns.blankRow →
  let ps := Turns.plays answer (6 - length rows) (Turns.guesses vg input) in
  let won := bool_decide (last ps = Some answer) in
  ∃ st' out',
    TermleGo.mainLoop answer vg st input out =
      Some (st', out', won || (length rows + length ps =? 6)%nat) ∧
    TermleGo.b st' =
      rows ++ (Turns.row answer <$> ps) ++ replicate (6 - length rows - length ps) Turns.blankRow ∧
    TermleGo.currentTurn st' =
      Z.of_nat (length rows + length ps) - (if won then 1 else 0) ∧
    TermleGo.turnsRemaining st' = 6 - TermleGo.currentTurn st' ∧
    (won = true → ∃ o, out' = o ++ bytes "you won!") ∧
    (won = false → (length rows + length ps)%nat = 6%nat → ∃ o, out' = o ++ Turns.lost answer).
Proof.
  intros La. induction input as [|text rest IH]; intros st out rows Hc6 Hc Hr Hb ps won.
  - subst ps won. unfold Turns.guesses. cbn [filter list_filter fmap list_fmap TermleGo.mainLoop].
    replace (Turns.plays answer (6 - length rows) []) with (@nil (list ascii))
      by (by destruct (6 - length rows)%nat).
    cbn [last length fmap list_fmap app]. rewrite bool_decide_eq_false_2 by done.
    exists st, out. rewrite Nat.add_0_r, Nat.sub_0_r.
    destruct (Nat.eqb_spec (length rows) 6); [lia|]. split_and!; try done; try lia.
  - destruct (Turns.accepts vg text) eqn:Ha.
    + assert (Hg : Turns.guesses vg (text :: rest) = guessOf text :: Turns.guesses vg rest).
      { unfold Turns.guesses. rewrite filter_cons_True by done. done. }
      assert (H6 : (6 - length rows)%nat = S (5 - length rows)) by lia.
      pose proof (termle_accepts answer vg st text (length rows) rows Ha La Hc eq_refl) as Ht.
      rewrite Hb, H6 in Ht. specialize (Ht eq_refl). cbn zeta in Ht.
      subst ps won. rewrite Hg, H6. cbn [Turns.plays TermleGo.mainLoop]. rewrite Ht. clear Ht.
      destruct (decide (guessOf text = answer)) as [Hsame|Hsame].
      * rewrite !(bool_decide_eq_true_2 _ Hsame).
        cbn [mbind option_bind last length fmap list_fmap].
        rewrite Hsame. rewrite bool_decide_eq_true_2 by done.
        eexists _, _. split; [reflexivity|].
        cbn [TermleGo.b TermleGo.currentTurn TermleGo.turnsRemaining].
        split_and!; try done; try lia.
        -- cbn [app]. do 3 f_equal. lia.
        -- intros _. eexists. rewrite app_assoc. reflexivity.
      * rewrite !(bool_decide_eq_false_2 _ Hsame).
        rewrite Hr, Hc. rewrite !wrap_id by (unfold int_min, int_max; lia).
        destruct (Z.eqb_spec (6 - Z.of_nat (length rows) - 1) 0) as [E|E].
        -- assert (L5 : length rows = 5%nat) by lia. rewrite L5. cbn [Nat.sub Turns.plays].
           cbn [mbind option_bind last length fmap list_fmap].
           rewrite bool_decide_eq_false_2 by congruence.
           eexists _, _. split; [reflexivity|].
           cbn [TermleGo.b TermleGo.currentTurn TermleGo.turnsRemaining].
           split_and!; try done; try lia.
           intros _ _. eexists. rewrite app_assoc. reflexivity.
        -- cbn [mbind option_bind].
           edestruct (IH (TermleGo.mkState
                            (rows ++ Turns.row answer (guessOf text) :: replicate (5 - length rows) Turns.blankRow)
                            (Z.of_nat (length rows) + 1) (6 - Z.of_nat (length rows) - 1))
                         (out ++ TermleGo.printTurn
                            (rows ++ Turns.row answer (guessOf text) :: replicate (5 - length rows) Turns.blankRow))
                         (rows ++ [Turns.row answer (guessOf text)]))
             as (st' & out' & Hl & Hb' & Hc' & Hr' & Hw & Hlo).
           { rewrite length_app. simpl. lia. }
           { cbn [TermleGo.currentTurn]. rewrite length_app. simpl. lia. }
           { cbn [TermleGo.turnsRemaining]. rewrite length_app. simpl. lia. }
           { cbn [TermleGo.b]. rewrite <- app_assoc. cbn [app]. do 3 f_equal.
             rewrite length_app. simpl. lia. }
           rewrite length_app in Hl, Hb', Hc', Hw, Hlo. cbn [length] in Hl, Hb', Hc', Hw, Hlo.
           replace (6 - (length rows + 1))%nat with (5 - length rows)%nat in * by lia.
           set (ps' := Turns.plays answer (5 - length rows) (Turns.guesses vg rest)) in *.
           assert (Hlast : bool_decide (last (guessOf text :: ps') = Some answer)
                           = bool_decide (last ps' = Some answer)).
           { generalize ps'. intros [|p ps'']; [|done]. simpl.
             by rewrite !bool_decide_eq_false_2 by congruence. }
           rewrite Hlast. cbn [length fmap list_fmap].
           exists st', out'.
           replace (length rows + S (length ps'))%nat
             with (length rows + 1 + length ps')%nat by lia.
           split; [exact Hl|].
           split_and!; try done.
           rewrite Hb', <- app_assoc. cbn [app]. repeat f_equal; lia.
    + destruct (termle_rejects answer vg st text Ha) as [o Ho].
      assert (Hg : Turns.guesses vg (text :: rest) = Turns.guesses vg rest).
      { unfold Turns.guesses. rewrite filter_cons_False; [done|]. congruence. }
      subst ps won. rewrite Hg. cbn [TermleGo.mainLoop]. rewrite Ho.
      cbn [mbind option_bind]. by apply IH.
Qed.

Lemma ToUpper_length s : length (ToUpper s) = length s.
Proof. unfold ToUpper. apply length_map. Qed.

(** X21: [answerForDay] of termle.go, on an ASCII answers.txt.  With the offset day*7 (as an [int],
    so it wraps) before the start or at or past the end of the file it
    panics; otherwise it returns the five bytes from the offset, upper-cased,
    a record cut short by the end of the file filled up with zero bytes; a
    returned answer always has five bytes. *)
Theorem seek_answer answers day :
  isASCII answers = true →
  let off := wrap (day * 7) in
  let len := Z.of_nat (length answers) in
  (off < 0 ∨ len ≤ off → TermleGo.answerForDay answers day = None) ∧
  (0 ≤ off < len →
   TermleGo.answerForDay answers day =
     Some (ToUpper (take 5 (drop (Z.to_nat off) answers) ++
                    replicate (5 - (length answers - Z.to_nat off)) (byte 0)))) ∧
  (∀ a, TermleGo.answerForDay answers day = Some a → length a = 5%nat).
Proof.
  intros _ off len. unfold TermleGo.answerForDay, Seek, Read. fold off. fold len.
  split_and!.
  - intros [H|H].
    + destruct (Z.ltb_spec off 0); [done|lia].
    + destruct (Z.ltb_spec off 0); [done|]. cbn [orb].
      destruct (Z.ltb_spec len off); [done|]. cbn [mbind option_bind].
      destruct (Z.leb_spec len off); [done|lia].
  - intros H. destruct (Z.ltb_spec off 0); [lia|]. cbn [orb].
    destruct (Z.ltb_spec len off); [lia|]. cbn [mbind option_bind].
    destruct (Z.leb_spec len off); [lia|]. cbn [mbind option_bind].
    do 2 f_equal.
    destruct (decide (5 ≤ length (drop (Z.to_nat off) answers))%nat) as [Hl|Hl].
    + rewrite take_app_le by done. rewrite length_drop in Hl.
      replace (5 - (length answers - Z.to_nat off))%nat with 0%nat by lia.
      by rewrite app_nil_r.
    + rewrite take_app_ge by lia. rewrite (take_ge (drop _ _)) by lia.
      f_equal. rewrite take_replicate, length_drop. f_equal. lia.
  - intros a. destruct (_ || _); [done|]. cbn [mbind option_bind].
    destruct (_ <=? _); [done|]. cbn [mbind option_bind]. intros [= <-].
    rewrite ToUpper_length, length_take, length_app. cbn [length]. lia.
Qed.

Lemma answerForDay_five answers day a :
  TermleGo.answerForDay answers day = Some a → length a = 5%nat.
Proof.
  unfold TermleGo.answerForDay, Seek, Read.
  destruct (_ || _); [done|]. cbn [mbind option_bind].
  destruct (_ <=? _); [done|]. cbn [mbind option_bind]. intros [= <-].
  rewrite ToUpper_length, length_take, length_app. cbn [length]. lia.
Qed.

(** X22: a run of [main] of termle.go on ASCII files and input, the lines of
    guesses.txt all shorter than the buffer of the scanner, once
    [answerForDay] has returned.
    The guesses played are those of the accepted lines up to the first that
    equals the answer, at most six.  If none of them is the answer and they
    are fewer than six, [main] ends with the input, and panics when the
    scanner reports an error; otherwise it returns, whatever follows in the
    input.  currentTurn + turnsRemaining is 6; currentTurn is the number of
    guesses played, less one in a won game, whose last round returns before
    the counters change; a won game prints you won! last, a lost one you
    lose! and the answer. *)
Theorem single_pass_game gtxt atxt dayFlag randomFlag now r input err answer :
  isASCII gtxt = true → shortLines 0 gtxt = true → isASCII atxt = true →
  Forall (λ text, isASCII text = true) input →
  TermleGo.answerForDay atxt (TermleGo.selectDay dayFlag randomFlag now r) = Some answer →
  let ps := Turns.plays answer 6 (Turns.guesses (TermleGo.guessesSet gtxt) input) in
  let won := bool_decide (last ps = Some answer) in
  let over := won || (length ps =? 6)%nat in
  if negb over && err
  then TermleGo.main gtxt atxt dayFlag randomFlag now r input err = None
  else ∃ st out,
    TermleGo.main gtxt atxt dayFlag randomFlag now r input err = Some (st, out) ∧
    TermleGo.currentTurn st = Z.of_nat (length ps) - (if won then 1 else 0) ∧
    TermleGo.currentTurn st + TermleGo.turnsRemaining st = 6 ∧
    (won = true → ∃ o, out = o ++ bytes "you won!") ∧
    (won = false → length ps = 6%nat → ∃ o, out = o ++ Turns.lost answer).
Proof.
  intros _ _ _ _ Ha ps won over.
  assert (La : length answer = 5%nat).
  { by eapply answerForDay_five. }
  unfold TermleGo.main. rewrite Ha. cbn [mbind option_bind].
  destruct (termle_loop answer (TermleGo.guessesSet gtxt) La input
              (TermleGo.mkState TermleGo.newBoard 0 6) (TermleGo.printTurn TermleGo.newBoard) [])
    as (st & out & Hl & Hb & Hc & Hr & Hw & Hlo); [simpl; lia | done | done | done |].
  cbn [length Nat.sub Nat.add] in Hl, Hb, Hc, Hw, Hlo.
  fold ps in Hl, Hb, Hc, Hw, Hlo. fold won in Hl, Hc, Hw, Hlo. fold over in Hl.
  rewrite Hl. cbn [mbind option_bind].
  destruct over; cbn [negb andb].
  - exists st, out. split_and!; [done | done | lia | done | done].
  - destruct err; [done|]. exists st, out. split_and!; [done | done | lia | done | done].
Qed.

Lemma plays_Forall (P : list ascii → Prop) answer n : ∀ gs,
  Forall P gs → Forall P (Turns.plays answer n gs).
Proof.
  induction n as [|n IH]; intros [|guess gs] H; cbn [Turns.plays]; try done.
  apply Forall_cons in H as [H1 H2]. apply Forall_cons. split; [done|].
  destruct (bool_decide _); [done | by apply IH].
Qed.

Lemma guesses_Forall vg input :
  Forall (λ guess, TermleGo.valid guess = true ∧ guess ∈ vg) (Turns.guesses vg input).
Proof.
  unfold Turns.guesses. apply Forall_fmap, Forall_forall. intros text Ht.
  apply list_elem_of_filter in Ht as [Ha _]. unfold Turns.accepts in Ha.
  apply andb_prop in Ha as [Hv Hin%bool_decide_eq_true]. done.
Qed.

(** X23: the board of termle.go after a run of [main] on ASCII files and
    input: the rows of the
    guesses played, in order, each as [board.addGuess] paints it on a new
    row, above the rows still new; every guess played has the valid format
    and is in the word list. *)
Theorem single_pass_board gtxt atxt dayFlag randomFlag now r input answer st out :
  isASCII gtxt = true → isASCII atxt = true → Forall (λ text, isASCII text = true) input →
  TermleGo.answerForDay atxt (TermleGo.selectDay dayFlag randomFlag now r) = Some answer →
  TermleGo.main gtxt atxt dayFlag randomFlag now r input false = Some (st, out) →
  let ps := Turns.plays answer 6 (Turns.guesses (TermleGo.guessesSet gtxt) input) in
  TermleGo.b st = (Turns.row answer <$> ps) ++ replicate (6 - length ps) Turns.blankRow ∧
  Forall (λ guess, TermleGo.valid guess = true ∧ guess ∈ TermleGo.guessesSet gtxt) ps.
Proof.
  intros _ _ _ Ha Hm ps.
  assert (La : length answer = 5%nat).
  { by eapply answerForDay_five. }
  unfold TermleGo.main in Hm. rewrite Ha in Hm. cbn [mbind option_bind] in Hm.
  destruct (termle_loop answer (TermleGo.guessesSet gtxt) La input
              (TermleGo.mkState TermleGo.newBoard 0 6) (TermleGo.printTurn TermleGo.newBoard) [])
    as (st' & out' & Hl & Hb & _); [simpl; lia | done | done | done |].
  cbn [length Nat.sub Nat.add app] in Hl, Hb. fold ps in Hl, Hb.
  rewrite Hl in Hm. cbn [mbind option_bind] in Hm.
  assert (st = st') as -> by (destruct (_ || _); congruence).
  split; [done|]. apply plays_Forall, guesses_Forall.
Qed.

Import Rounding.

(** ** The default day, day by day *)

Lemma exactDays_wide j : -2315 ≤ j < 4630 → daysOf (wholeDays j) = j.
Proof.
  intros Hj. apply (exactDays_spec (Z.to_nat 6945) (-2315)); [by vm_compute|].
  rewrite Z2Nat.id; lia.
Qed.

Lemma roundsUp_spec n : ∀ k j,
  roundsUp n k = true → k ≤ j < k + Z.of_nat n → daysOf (wholeDays (j + 1) - 1) = j + 1.
Proof.
  induction n as [|n IH]; intros k j H Hj; [lia|].
  cbn [roundsUp] in H. apply andb_prop in H as [H1 H2].
  destruct (decide (j = k)) as [->|Hne].
  - by apply Z.eqb_eq.
  - apply (IH (k + 1)); [done | lia].
Qed.

(** X16: [daysSinceFirstWordle] is the number of calendar days from
    2021-06-19 to the date of the local clock, for every date from 2315 days
    before the first day to 4630 days after it: over this range the float
    arithmetic of [Hours() / 24] is exact. *)
Theorem default_day_counts_calendar_days now offset y m d :
  Date now offset = (y, m, d) →
  -2315 ≤ days_from_civil y m d - days_from_civil 2021 6 19 < 4630 →
  daysSinceFirstWordle now offset = days_from_civil y m d - days_from_civil 2021 6 19.
Proof.
  intros HD Hk. unfold daysSinceFirstWordle. rewrite HD.
  fold (daysOf (Sub (DateUTC y m d) firstDay)).
  replace (Sub (DateUTC y m d) firstDay)
    with (wholeDays (days_from_civil y m d - days_from_civil 2021 6 19)).
  - by apply exactDays_wide.
  - unfold Sub, firstDay, wholeDays, Second. unfold DateUTC. cbn [unixSec nsec].
    change (days_from_civil 2021 6 19) with 18797 in *.
    set (D := days_from_civil y m d) in *. clearbody D.
    unfold int_max, int_min in *.
    change (10 ^ 9) with 1000000000. change (2 ^ 63) with 9223372036854775808.
    repeat match goal with |- context [Z.ltb ?a ?b] => destruct (Z.ltb_spec a b) end; lia.
Qed.

Lemma Sub_small t u :
  - 10 ^ 9 ≤ unixSec t - unixSec u ≤ 10 ^ 9 → 0 ≤ nsec t < 10 ^ 9 → 0 ≤ nsec u < 10 ^ 9 →
  Sub t u = (unixSec t - unixSec u) * 10 ^ 9 + (nsec t - nsec u).
Proof.
  intros H1 H2 H3. unfold Sub, Second, int_max, int_min.
  change (10 ^ 9) with 1000000000 in *. change (2 ^ 63) with 9223372036854775808.
  repeat match goal with |- context [Z.ltb ?a ?b] => destruct (Z.ltb_spec a b) end; lia.
Qed.

(** X24: at the midnight (UTC) that begins the k-th day after the first
    day, [currentDay] of termle.go is k - 1, for every k from -2315 to 4629:
    it is negative until the second day begins. *)
Theorem current_day_at_midnight k :
  -2315 ≤ k < 4630 →
  TermleGo.currentDay (mkTime (unixSec TermleGo.firstDay + 86400 * k) 0) = k - 1.
Proof.
  intros Hk. unfold TermleGo.currentDay.
  fold (daysOf (Sub (mkTime (unixSec TermleGo.firstDay + 86400 * k) 0) TermleGo.firstDay)).
  rewrite Sub_small; cbn [unixSec nsec TermleGo.firstDay DateUTC];
    change (10 ^ 9) with 1000000000; [|lia..].
  replace ((days_from_civil 2021 6 19 * 86400 + 86400 * k - days_from_civil 2021 6 19 * 86400)
           * 1000000000 + (0 - 0)) with (wholeDays k)
    by (unfold wholeDays, Second; change (10 ^ 9) with 1000000000; lia).
  rewrite exactDays_wide by done. apply wrap_id. unfold int_min, int_max. lia.
Qed.

(** X25: [int(Hours() / 24)] is not the floor of the days elapsed.  One
    nanosecond before the midnight (UTC) that begins the k-th day after the
    first day, for every k from 171 to 2314, the duration since the first
    day is one nanosecond short of k days, and [currentDay] of termle.go is
    already k - 1, its value at that midnight: the sum of the hours rounds
    up to 24 k. *)
Theorem current_day_rounds_up k :
  171 ≤ k < 2315 →
  let t := mkTime (unixSec TermleGo.firstDay + 86400 * k - 1) 999999999 in
  Sub t TermleGo.firstDay = wholeDays k - 1 ∧
  TermleGo.currentDay t = k - 1.
Proof.
  intros Hk t.
  assert (Hs : Sub t TermleGo.firstDay = wholeDays k - 1).
  { unfold t. rewrite Sub_small; cbn [unixSec nsec TermleGo.firstDay DateUTC];
      change (10 ^ 9) with 1000000000; [|lia..].
    unfold wholeDays, Second. change (10 ^ 9) with 1000000000. lia. }
  split; [done|]. unfold TermleGo.currentDay.
  fold (daysOf (Sub t TermleGo.firstDay)). rewrite Hs.
  replace (wholeDays k - 1) with (wholeDays (k - 1 + 1) - 1) by (f_equal; f_equal; lia).
  rewrite (roundsUp_spec (Z.to_nat 2144) 170); [|by vm_compute|rewrite Z2Nat.id; lia].
  rewrite wrap_id by (unfold int_min, int_max; lia). lia.
Qed.

Import Display.

(** ** The boards as printed *)

Lemma print_shown g :
  print g = bytes "Wordle " ++ Itoa (Part000.day g) ++ [LF] ++
            TermleGo.print (shownBoard (board g)).
Proof.
  unfold print, TermleGo.print, shownBoard. do 4 f_equal.
  rewrite <- list_fmap_compose. apply list_fmap_ext. intros _ y _. cbn [compose].
  f_equal. rewrite <- list_fmap_compose. by f_equal.
Qed.

Lemma scored_once answer guess (i : nat) r a :
  length answer = 5%nat → length guess = 5%nat → NoDup guess →
  guess !! i = Some r → answer !! i = Some a →
  scored answer guess !! i =
    Some (mkCell (if Ascii.eqb r a then greenSquare
                  else if ContainsRune answer r then yellowSquare else blackSquare)
                 (string_of_rune r)).
Proof.
  intros La Lg Hnd Hr Ha.
  destruct (scored_cell answer guess i r La Lg Hr) as (Hg & Hy & H3).
  pose proof (scored_letters answer guess Lg ltac:(lia)) as Hl.
  apply (f_equal (λ l, l !! i)) in Hl. rewrite !list_lookup_fmap, Hr in Hl.
  rewrite list_lookup_fmap in Hg, Hy, H3.
  destruct (scored answer guess !! i) as [[c l]|] eqn:E; [|done].
  cbn [fmap option_fmap option_map color letter] in *. injection Hl as ->.
  do 2 f_equal.
  pose proof square_distinct as (S1 & S2 & S3).
  destruct (Ascii.eqb_spec r a) as [<-|Hne].
  - apply Hg in Ha. congruence.
  - assert (Hng : answer !! i ≠ Some r) by congruence.
    assert (Hyel : Some c = Some yellowSquare ↔ r ∈ answer).
    { rewrite Hy. rewrite (matched_once guess answer i r Hnd Hr Hng).
      destruct (absent_counts r (take i guess) (take i answer)) as [_ ->];
        [by apply take_absent|].
      rewrite <- count_pos. split; [intros [_ ?]; lia | intros ?; split; [done | lia]]. }
    destruct (ContainsRune answer r) eqn:Ec.
    + apply ContainsRune_elem in Ec. apply Hyel in Ec. congruence.
    + destruct H3 as [H3|[H3|H3]]; [by apply Hg in H3 | | congruence].
      apply Hyel, ContainsRune_elem in H3. congruence.
Qed.

Lemma shown_scored answer guess :
  length answer = 5%nat → length guess = 5%nat → NoDup guess →
  shown <$> scored answer guess =
    painted answer guess answer (shown <$> replicate 5 blank).
Proof.
  intros La Lg Hnd. apply list_eq. intros i.
  destruct (guess !! i) as [r|] eqn:Hr.
  - pose proof (lookup_lt_Some _ _ _ Hr) as Hi.
    destruct (lookup_lt_is_Some_2 answer i) as [a Ha]; [lia|].
    rewrite list_lookup_fmap, (scored_once answer guess i r a) by done.
    rewrite (painted_lookup answer guess answer _ i r a)
      by (first [done | rewrite length_fmap, length_replicate; lia]).
    cbn [fmap option_fmap option_map]. f_equal. unfold shown. cbn [color letter].
    pose proof square_distinct as (S1 & S2 & S3).
    destruct (Ascii.eqb r a); [by rewrite bool_decide_eq_true_2|].
    destruct (ContainsRune answer r).
    + by rewrite bool_decide_eq_false_2, bool_decide_eq_true_2 by done.
    + by rewrite !bool_decide_eq_false_2 by done.
  - apply lookup_ge_None in Hr.
    rewrite !(proj2 (lookup_ge_None _ _)); [done | |].
    + rewrite painted_length, length_fmap, length_replicate. lia.
    + unfold scored.
      rewrite length_fmap, cells2_length, cells1_length, length_replicate. lia.
Qed.

(** X26: the two programs show the same board.  When the board of termle.go
    holds the texts [game.print] shows for the cells of a game, then after
    the same valid guess without a repeated letter, against a five-letter
    answer, it still does, and [game.print] prints the line Wordle and the
    day followed by exactly what [board.print] prints. *)
Theorem boards_print_alike g guess :
  fresh g → valid guess = true → length (answer g) = 5%nat → NoDup guess →
  ∃ g' b',
    addGuess g guess = Some g' ∧
    TermleGo.addGuess (shownBoard (board g)) (currentTurn g) guess (answer g) = Some b' ∧
    b' = shownBoard (board g') ∧
    print g' = bytes "Wordle " ++ Itoa (Part000.day g') ++ [LF] ++ TermleGo.print b'.
Proof.
  intros Hf Hv La Hnd. pose proof (valid_length _ Hv) as Lg.
  pose proof Hf as (Hct & Hrow & _).
  exists (played g guess), (shownBoard (board (played g guess))).
  split_and!; [apply addGuess_fresh; [done | lia | lia] | | done | apply print_shown].
  destruct (addGuess_painted (shownBoard (board g)) (currentTurn g) guess (answer g)
              (shown <$> replicate 5 blank)) as [-> _].
  - done.
  - unfold shownBoard. by rewrite list_lookup_fmap, Hrow.
  - rewrite length_fmap, length_replicate. lia.
  - lia.
  - f_equal. unfold played, shownBoard. cbn [board].
    rewrite list_fmap_insert. f_equal. symmetry. by apply shown_scored.
Qed.


(** ** The theorems above at concrete games, files and instants *)

(** [answer_is_line_of_day] at day 0 of the one-line answer file. *)
Lemma answer_is_line_of_day_witness :
  answerForDay 1 crane_fs 0 =
    Some (ToUpper (default [] (Lines (answers_txt crane_fs) !! Z.to_nat 0))).
Proof.
  apply (answer_is_line_of_day crane_fs 0 1).
  - reflexivity.
  - reflexivity.
  - by vm_compute.
  - simpl. lia.
Defined.

(** [word_list_is_read] at the words trace and crane. *)
Lemma word_list_is_read_witness :
  guessesSet (mkFS (textLines [trace; crane]) []) = list_to_set (ToUpper <$> [trace; crane]) ∧
  guessesSet (mkFS (records [trace; crane]) []) = list_to_set (ToUpper <$> [trace; crane]) ∧
  TermleGo.guessesSet (records [trace; crane]) = list_to_set (ToUpper <$> [trace; crane]) ∧
  (∀ w, isASCII w = true → Z.of_nat (length w) + 1 < MaxScanTokenSize →
        w ≠ [] → LF ∉ w → CR ∉ w →
     guessesSet (mkFS (textLines [trace; crane] ++ w) []) =
       list_to_set (ToUpper <$> ([trace; crane] ++ [w]))).
Proof.
  apply (word_list_is_read [trace; crane] []).
  - by repeat constructor.
  - by repeat constructor.
  - repeat constructor; by apply (bool_decide_unpack _).
Defined.

(** [main_never_panics] at a hard-mode game of CRANE with the lines trace and crane. *)
Lemma main_never_panics_witness :
  (∃ g out, main 1 crane_fs day0_hard june20_noon 0 0 trace_crane false = Some (g, out)) ∧
  main 1 crane_fs day0_hard june20_noon 0 0 trace_crane true = None.
Proof.
  apply (main_never_panics 1 crane_fs day0_hard june20_noon 0 0 trace_crane (bytes "CRANE")).
  - reflexivity.
  - reflexivity.
  - reflexivity.
  - reflexivity.
  - by repeat constructor.
  - reflexivity.
  - simpl. lia.
Defined.

(** [never_won] at a game of CRANE whose word list holds TRACE only, after the guess TRACE. *)
Lemma never_won_witness : won (played stray_game (bytes "TRACE")) = false.
Proof.
  apply (never_won 1 stray_fs 0 false stray_game).
  - reflexivity.
  - right. by apply (bool_decide_unpack _).
  - eapply (reach_turn _ stray_game [] trace);
      [apply reach_new | reflexivity | by vm_compute | by vm_compute].
Defined.

(** [short_answer_panics] at the game of the three-letter answer CAT. *)
Lemma short_answer_panics_witness :
  cat_game = cat_game ∧
  ∀ iter text, accepts iter cat_game text = true → turn iter cat_game text = None.
Proof.
  apply (short_answer_panics 1 cat_fs 0 false cat_game).
  - reflexivity.
  - simpl. lia.
  - apply reach_new.
Defined.

(** [answer_always_wins] at the hard-mode game of CRANE after the guess TRACE. *)
Lemma answer_always_wins_witness :
  accepts ["C"%char] hard_game_after_trace crane = true ∧
  ∃ g' out, turn ["C"%char] hard_game_after_trace crane = Some (g', out) ∧
            won g' = true ∧ complete g' = true.
Proof.
  apply (answer_always_wins 1 crane_fs 0 true hard_game).
  - reflexivity.
  - reflexivity.
  - by apply (bool_decide_unpack _).
  - eapply (reach_turn _ hard_game [] trace);
      [apply reach_new | reflexivity | by vm_compute | by vm_compute].
  - reflexivity.
  - by vm_compute.
  - reflexivity.
Defined.




(** [default_day_counts_calendar_days] at noon of 2021-06-20, in the zone UTC. *)
Lemma default_day_counts_calendar_days_witness :
  daysSinceFirstWordle june20_noon 0 =
    days_from_civil 2021 6 20 - days_from_civil 2021 6 19.
Proof.
  apply (default_day_counts_calendar_days june20_noon 0 2021 6 20).
  - reflexivity.
  - by vm_compute.
Defined.

(** [single_pass_row] at the guess LLAMA against ALLOT on the new board. *)
Lemma single_pass_row_witness :
  ∃ b' row',
    TermleGo.addGuess TermleGo.newBoard 0 (bytes "LLAMA") (bytes "ALLOT") = Some b' ∧
    length b' = length TermleGo.newBoard ∧
    b' !! Z.to_nat 0 = Some row' ∧ length row' = length Turns.blankRow ∧
    (∀ t : nat, t ≠ Z.to_nat 0 → b' !! t = TermleGo.newBoard !! t) ∧
    (∀ (i : nat) c, bytes "LLAMA" !! i = Some c →
       ∃ a, bytes "ALLOT" !! i = Some a ∧
         row' !! i =
           Some (if Ascii.eqb c a then TermleGo.green (string_of_rune c)
                 else if ContainsRune (bytes "ALLOT") c then TermleGo.yellow (string_of_rune c)
                 else TermleGo.black (string_of_rune c))) ∧
    (∀ i : nat, (length (bytes "LLAMA") ≤ i)%nat → row' !! i = Turns.blankRow !! i).
Proof.
  apply (single_pass_row TermleGo.newBoard 0 (bytes "LLAMA") (bytes "ALLOT") Turns.blankRow).
  - reflexivity.
  - lia.
  - reflexivity.
  - simpl. lia.
  - simpl. lia.
Defined.

(** [single_pass_panics] at turn 6 of the six-row board. *)
Lemma single_pass_panics_witness :
  TermleGo.addGuess TermleGo.newBoard 6 (bytes "LLAMA") (bytes "ALLOT") = None.
Proof.
  apply (single_pass_panics TermleGo.newBoard 6 (bytes "LLAMA") (bytes "ALLOT")).
  - reflexivity.
  - discriminate.
  - right. left. simpl. lia.
Defined.

(** [single_pass_marks_more] at the guess LLAMA against ALLOT. *)
Lemma single_pass_marks_more_witness :
  ∃ cs bd' row',
    evaluation allot_game (bytes "LLAMA") = Some cs ∧
    TermleGo.addGuess TermleGo.newBoard 0 (bytes "LLAMA") (answer allot_game) = Some bd' ∧
    bd' !! Z.to_nat 0 = Some row' ∧
    ∀ (i : nat) r, bytes "LLAMA" !! i = Some r →
      (cs !! i = Some greenSquare ↔
         row' !! i = Some (TermleGo.green (string_of_rune r))) ∧
      (cs !! i = Some yellowSquare →
         row' !! i = Some (TermleGo.yellow (string_of_rune r))) ∧
      (row' !! i = Some (TermleGo.black (string_of_rune r)) →
         cs !! i = Some blackSquare).
Proof.
  apply (single_pass_marks_more allot_game TermleGo.newBoard 0 Turns.blankRow (bytes "LLAMA")).
  - repeat split; simpl; first [lia | reflexivity].
  - reflexivity.
  - reflexivity.
  - lia.
  - reflexivity.
  - reflexivity.
Defined.

(** [evaluators_agree_without_repeats] at the guess TRACE against CRANE. *)
Lemma evaluators_agree_without_repeats_witness :
  ∃ cs bd' row',
    evaluation crane_game (bytes "TRACE") = Some cs ∧
    TermleGo.addGuess TermleGo.newBoard 0 (bytes "TRACE") (answer crane_game) = Some bd' ∧
    bd' !! Z.to_nat 0 = Some row' ∧
    ∀ (i : nat) r, bytes "TRACE" !! i = Some r →
      (cs !! i = Some greenSquare ↔
         row' !! i = Some (TermleGo.green (string_of_rune r))) ∧
      (cs !! i = Some yellowSquare ↔
         row' !! i = Some (TermleGo.yellow (string_of_rune r))) ∧
      (cs !! i = Some blackSquare ↔
         row' !! i = Some (TermleGo.black (string_of_rune r))).
Proof.
  apply (evaluators_agree_without_repeats crane_game TermleGo.newBoard 0 Turns.blankRow
           (bytes "TRACE")).
  - repeat split; simpl; first [lia | reflexivity].
  - reflexivity.
  - reflexivity.
  - lia.
  - reflexivity.
  - reflexivity.
  - by apply (bool_decide_unpack _).
Defined.

(** [single_pass_game] at the lines trace and crane against CRANE. *)
Lemma single_pass_game_witness :
  let ps := Turns.plays (bytes "CRANE") 6
              (Turns.guesses (TermleGo.guessesSet (guesses_txt crane_fs)) [trace; crane]) in
  let won := bool_decide (last ps = Some (bytes "CRANE")) in
  let over := won || (length ps =? 6)%nat in
  if negb over && false
  then TermleGo.main (guesses_txt crane_fs) (records [crane]) (Some 0) false june20_noon 0
         [trace; crane] false = None
  else ∃ st out,
    TermleGo.main (guesses_txt crane_fs) (records [crane]) (Some 0) false june20_noon 0
      [trace; crane] false = Some (st, out) ∧
    TermleGo.currentTurn st = Z.of_nat (length ps) - (if won then 1 else 0) ∧
    TermleGo.currentTurn st + TermleGo.turnsRemaining st = 6 ∧
    (won = true → ∃ o, out = o ++ bytes "you won!") ∧
    (won = false → length ps = 6%nat → ∃ o, out = o ++ Turns.lost (bytes "CRANE")).
Proof.
  apply (single_pass_game (guesses_txt crane_fs) (records [crane]) (Some 0) false
           june20_noon 0 [trace; crane] false (bytes "CRANE")).
  - reflexivity.
  - reflexivity.
  - reflexivity.
  - by repeat constructor.
  - reflexivity.
Defined.

(** [single_pass_board] at the lines trace and crane against CRANE. *)
Lemma single_pass_board_witness :
  let ps := Turns.plays (bytes "CRANE") 6
              (Turns.guesses (TermleGo.guessesSet (guesses_txt crane_fs)) [trace; crane]) in
  TermleGo.b (TermleGo.mkState termle_board_2 1 5) =
    (Turns.row (bytes "CRANE") <$> ps) ++ replicate (6 - length ps) Turns.blankRow ∧
  Forall (λ guess, TermleGo.valid guess = true ∧
                   guess ∈ TermleGo.guessesSet (guesses_txt crane_fs)) ps.
Proof.
  apply (single_pass_board (guesses_txt crane_fs) (records [crane]) (Some 0) false
           june20_noon 0 [trace; crane] (bytes "CRANE")
           (TermleGo.mkState termle_board_2 1 5)
           (TermleGo.printTurn TermleGo.newBoard ++ TermleGo.printTurn termle_board_1 ++
            TermleGo.printTurn termle_board_2 ++ bytes "you won!")).
  - reflexivity.
  - reflexivity.
  - by repeat constructor.
  - reflexivity.
  - by vm_compute.
Defined.

(** [current_day_at_midnight] at 2021-06-20T00:00:00Z. *)
Lemma current_day_at_midnight_witness :
  TermleGo.currentDay (mkTime (unixSec TermleGo.firstDay + 86400 * 1) 0) = 1 - 1.
Proof. apply (current_day_at_midnight 1). lia. Defined.

(** [current_day_rounds_up] one nanosecond before the 200th midnight. *)
Lemma current_day_rounds_up_witness :
  let t := mkTime (unixSec TermleGo.firstDay + 86400 * 200 - 1) 999999999 in
  Sub t TermleGo.firstDay = wholeDays 200 - 1 ∧ TermleGo.currentDay t = 200 - 1.
Proof. apply (current_day_rounds_up 200). lia. Defined.

(** [seek_answer] at day 1 of the file of the two records cigar and rebut. *)
Lemma seek_answer_witness :
  let off := wrap (1 * 7) in
  let len := Z.of_nat (length (records two_answers)) in
  (off < 0 ∨ len ≤ off → TermleGo.answerForDay (records two_answers) 1 = None) ∧
  (0 ≤ off < len →
   TermleGo.answerForDay (records two_answers) 1 =
     Some (ToUpper (take 5 (drop (Z.to_nat off) (records two_answers)) ++
                    replicate (5 - (length (records two_answers) - Z.to_nat off)) (byte 0)))) ∧
  (∀ a, TermleGo.answerForDay (records two_answers) 1 = Some a → length a = 5%nat).
Proof. apply (seek_answer (records two_answers) 1). reflexivity. Defined.

(** [boards_print_alike] at the guess TRACE in the new game of CRANE. *)
Lemma boards_print_alike_witness :
  ∃ g' b',
    addGuess crane_game (bytes "TRACE") = Some g' ∧
    TermleGo.addGuess (shownBoard (board crane_game)) (currentTurn crane_game)
      (bytes "TRACE") (answer crane_game) = Some b' ∧
    b' = shownBoard (board g') ∧
    print g' = bytes "Wordle " ++ Itoa (Part000.day g') ++ [LF] ++ TermleGo.print b'.
Proof.
  apply (boards_print_alike crane_game (bytes "TRACE")).
  - repeat split; simpl; first [lia | reflexivity].
  - reflexivity.
  - reflexivity.
  - by apply (bool_decide_unpack _).
Defined.
